(** * deck_printer: the resolution-and-layout pipeline of [src/main.py]

    A shallow embedding of the card resolver, the identifier resolver and the
    page layout engine, with the properties the specification states about
    them.  NumPy arrays are nested lists that carry their shape, Python
    exceptions are values of [exn] threaded through an error monad, Python
    floats are the kernel's binary64 numbers. *)

From Stdlib Require Import ZArith List Floats Lia Bool Ascii.
From stdpp Require Import base gmap sets list strings.

#[local] Set Warnings "-inexact-float,-clear-no-such-hyp".
#[local] Open Scope Z_scope.

(** ** Exceptions and the error monad *)

(** A Python exception: its class name and its [args]. *)
Record exn := Exn { exn_class : string; exn_args : list string }.

Inductive result (A : Type) : Type :=
| Ok (a : A)
| Raise (e : exn).
Arguments Ok {A} a.
Arguments Raise {A} e.

Definition rbind {A B} (m : result A) (k : A → result B) : result B :=
  match m with
  | Ok a => k a
  | Raise e => Raise e
  end.

#[global] Instance result_ret : MRet result := @Ok.
#[global] Instance result_bind : MBind result := fun A B k m => rbind m k.

Definition IndexError : exn := Exn "IndexError" ["list index out of range"].
Definition ValueError (msg : string) : exn := Exn "ValueError" [msg].
Definition OverflowError (msg : string) : exn := Exn "OverflowError" [msg].
Definition EinopsError (msg : string) : exn := Exn "EinopsError" [msg].
Definition KeyError (key : string) : exn := Exn "KeyError" [key].

Definition is_ok {A} (r : result A) : bool :=
  match r with Ok _ => true | Raise _ => false end.

(** ** Python floats *)

Module PyFloat.

(** [float(n)] for a Python [int]: the nearest binary64 number, ties to
    even; an [int] beyond the largest double raises. *)
Definition float_of_int (n : Z) : result float :=
  match binary_normalize prec emax n 0 false with
  | S754_infinity _ => Raise (OverflowError "int too large to convert to float")
  | sf => Ok (SF2Prim sf)
  end.

(** The integer nearest to [m * 2^e], ties to the even one. *)
Definition round_half_even (m e : Z) : Z :=
  if 0 <=? e then m * 2 ^ e
  else
    let d := 2 ^ (- e) in
    let q := m / d in
    let r := m mod d in
    if 2 * r <? d then q
    else if d <? 2 * r then q + 1
    else if Z.even q then q else q + 1.

(** The builtin [round(x)] on a float, with no [ndigits]: an [int], ties to
    even; infinities and NaN raise. *)
Definition py_round (x : float) : result Z :=
  match Prim2SF x with
  | S754_zero _ => Ok 0
  | S754_finite s m e =>
      let v := round_half_even (Z.pos m) e in
      Ok (if s then - v else v)
  | S754_infinity _ => Raise (OverflowError "cannot convert float infinity to integer")
  | S754_nan => Raise (ValueError "cannot convert float NaN to integer")
  end.

(** [sf] is [+0] or a positive finite float below [2^K]. *)
Definition sf_below (K : Z) (sf : spec_float) : Prop :=
  sf = S754_zero false \/
  exists m e, sf = S754_finite false m e /\ Z.pos m < 2 ^ (K - e) /\ e <= K.

End PyFloat.

(** ** NumPy arrays *)

Module Np.

(** A colour channel value, a pixel (its channels), a row of pixels, an
    image: the [h x w x c] array [cv2.imdecode] returns. *)
Abbreviation pixel := (list Z) (only parsing).
Abbreviation row := (list (list Z)) (only parsing).
Abbreviation image := (list (list (list Z))) (only parsing).

(** [np.asarray(img).shape] *)
Definition shape3 (img : image) : nat * nat * nat :=
  (length img, length (hd [] img), length (hd [] (hd [] img))).

(** [img] is a full [h x w x c] raster. *)
Definition has_shape (s : nat * nat * nat) (img : image) : bool :=
  let '(h, w, c) := s in
  (length img =? h)%nat &&
  forallb (fun r : row =>
             (length r =? w)%nat && forallb (fun p : pixel => (length p =? c)%nat) r) img.

(** A four-axis array: a stack of images with the shape NumPy stores for it. *)
Record ndarray := NdArray { shape : nat * nat * nat * nat; data : list image }.

(** [np.full([n, *s], v)] *)
Definition full3 (s : nat * nat * nat) (v : Z) : image :=
  let '(h, w, c) := s in repeat (repeat (repeat v c) w) h.

Definition full (n : nat) (s : nat * nat * nat) (v : Z) : ndarray :=
  let '(h, w, c) := s in NdArray (n, h, w, c) (repeat (full3 s v) n).

(** [np.asanyarray(image_list)] for a nonempty list of images: they must
    all have one shape. *)
Definition asarray (image_list : list image) : result ndarray :=
  let s := shape3 (hd [] image_list) in
  if forallb (has_shape s) image_list
  then let '(h, w, c) := s in Ok (NdArray (length image_list, h, w, c) image_list)
  else Raise (ValueError "setting an array element with a sequence. The requested array has an inhomogeneous shape").

(** [np.vstack([a, b])] on two four-axis arrays: concatenation along the
    first axis; the other axes must agree. *)
Definition vstack (a b : ndarray) : result ndarray :=
  let '(n1, h1, w1, c1) := shape a in
  let '(n2, h2, w2, c2) := shape b in
  if (h1 =? h2)%nat && (w1 =? w2)%nat && (c1 =? c2)%nat
  then Ok (NdArray ((n1 + n2)%nat, h1, w1, c1) (data a ++ data b))
  else Raise (ValueError "all the input array dimensions except for the concatenation axis must match exactly").

(** One row of a [pad_width] table as NumPy broadcasts it to
    [(before, after)]: a single number counts for both sides. *)
Definition as_pair (r : list Z) : result (Z * Z) :=
  match r with
  | [x] => Ok (x, x)
  | [b; a] => Ok (b, a)
  | _ => Raise (ValueError "Unable to create correctly shaped tuple")
  end.

Definition check_width (p : Z * Z) : result (nat * nat) :=
  if (0 <=? fst p) && (0 <=? snd p)
  then Ok (Z.to_nat (fst p), Z.to_nat (snd p))
  else Raise (ValueError "index can't contain negative values").

Definition pad_axis {A} (before after : nat) (fill : A) (l : list A) : list A :=
  repeat fill before ++ l ++ repeat fill after.

(** [np.pad(a, pad_width, constant_values=v)] on a four-axis array. *)
Definition pad (a : ndarray) (pad_width : list (list Z)) (v : Z) : result ndarray :=
  match pad_width with
  | [r0; r1; r2; r3] =>
      p0 ← as_pair r0 ≫= check_width;
      p1 ← as_pair r1 ≫= check_width;
      p2 ← as_pair r2 ≫= check_width;
      p3 ← as_pair r3 ≫= check_width;
      let '(n, h, w, c) := shape a in
      let n' := (fst p0 + n + snd p0)%nat in
      let h' := (fst p1 + h + snd p1)%nat in
      let w' := (fst p2 + w + snd p2)%nat in
      let c' := (fst p3 + c + snd p3)%nat in
      let pad_pixel (p : pixel) := pad_axis (fst p3) (snd p3) v p in
      let pad_row (r : row) :=
        pad_axis (fst p2) (snd p2) (repeat v c') (map pad_pixel r) in
      let pad_image (i : image) :=
        pad_axis (fst p1) (snd p1) (repeat (repeat v c') w') (map pad_row i) in
      Ok (NdArray (n', h', w', c')
            (pad_axis (fst p0) (snd p0) (full3 (h', w', c') v)
               (map pad_image (data a))))
  | _ => Raise (ValueError "Unable to create correctly shaped tuple")
  end.

(** Consecutive blocks of [k] elements. *)
Fixpoint chunks_aux {A} (n k : nat) (l : list A) : list (list A) :=
  match n with
  | O => []
  | S n' => firstn k l :: chunks_aux n' k (skipn k l)
  end.

Definition chunks {A} (k : nat) (l : list A) : list (list A) :=
  chunks_aux (length l / k)%nat k l.

(** Images of [h] rows side by side: row [y] of the result is the rows [y]
    of the images, one after the other. *)
Definition hstack (h : nat) (imgs : list image) : image :=
  fold_right (fun (img acc : image) => zip_with app img acc) (repeat [] h) imgs.

(** [rearrange(a, '(p rows cols) h w c -> p (rows h) (cols w) c', rows, cols)]:
    every block of [rows * cols] images becomes one image, a grid filled
    row by row. *)
Definition rearrange (a : ndarray) (rows cols : nat) : result ndarray :=
  let '(n, h, w, c) := shape a in
  if (n mod (rows * cols) =? 0)%nat
  then Ok (NdArray ((n / (rows * cols))%nat, (rows * h)%nat, (cols * w)%nat, c)
             (map (fun cells : list image => concat (map (hstack h) (chunks cols cells)))
                  (chunks (rows * cols) (data a))))
  else Raise (EinopsError "Shape mismatch, can't divide axis").

End Np.

(** ** The page layout engine: [tile_in_pages] *)

Module Layout.
Import Np PyFloat.

Definition ROWS_PER_PAGE : nat := 3.
Definition COLS_PER_PAGE : nat := 3.
Definition CARDS_PER_PAGE : nat := ROWS_PER_PAGE * COLS_PER_PAGE.
Definition H_INCHES : float := 3.48.
Definition W_INCHES : float := 2.49.
Definition PAD_INCHES : float := 0.005.
Definition WHITE : Z := 255.

(** [image_list[0]] *)
Definition first_image (image_list : list image) : result image :=
  match image_list with
  | [] => Raise IndexError
  | img :: _ => Ok img
  end.

(** Lines 105-110: the images followed by [nb_missing] white images of the
    first image's shape, as one array. *)
Definition nb_missing (image_list : list image) : nat :=
  (CARDS_PER_PAGE - length image_list mod CARDS_PER_PAGE)%nat.

Definition stack_with_filler (image_list : list image) : result ndarray :=
  let nb_missing := nb_missing image_list in
  first ← first_image image_list;
  let img_shape := shape3 first in
  stacked ← asarray image_list;
  vstack stacked (full nb_missing img_shape WHITE).

(** Lines 112-114: the [pad_width] table of the padding between cards, a
    [4 x 2] table of zeros whose column 0 gets the two rounded widths. *)
Definition card_padding (canvas_shape : nat * nat * nat * nat) : result (list (list Z)) :=
  let '(_, h, w, _) := canvas_shape in
  fh ← float_of_int (Z.of_nat h);
  ph ← py_round (PAD_INCHES / H_INCHES * fh)%float;
  fw ← float_of_int (Z.of_nat w);
  pw ← py_round (PAD_INCHES / W_INCHES * fw)%float;
  Ok [[0; 0]; [ph; 0]; [pw; 0]; [0; 0]].

(** Lines 124-129: the [pad_width] table of the page margins, a [4 x 1]
    table of zeros, from the shape the canvas had before it was
    rearranged into pages. *)
Definition page_padding (canvas_shape : nat * nat * nat * nat) : result (list (list Z)) :=
  let '(_, h, w, _) := canvas_shape in
  fh ← float_of_int (Z.of_nat h);
  let MISSING_HEIGHT := ((11 - H_INCHES * 3) / H_INCHES * fh)%float in
  fw ← float_of_int (Z.of_nat w);
  let MISSING_WIDTH := ((8.5 - W_INCHES * 3) / W_INCHES * fw)%float in
  mh ← py_round (MISSING_HEIGHT / 2)%float;
  mw ← py_round (MISSING_WIDTH / 2)%float;
  Ok [[0]; [mh]; [mw]; [0]].

(** Lines 105-116: the stacked images, each with its padding. *)
Definition pad_cards (image_list : list image) : result ndarray :=
  canvas ← stack_with_filler image_list;
  padding ← card_padding (shape canvas);
  pad canvas padding WHITE.

Definition tile_in_pages (image_list : list image) : result ndarray :=
  canvas ← pad_cards image_list;
  let canvas_shape := shape canvas in
  canvas ← rearrange canvas ROWS_PER_PAGE COLS_PER_PAGE;
  padding ← page_padding canvas_shape;
  pad canvas padding WHITE.

End Layout.

(** ** Page geometry

    What a page is made of, in the words of the specification: padded cells,
    a grid of them, margins around the grid, and the way back from a page to
    its cells. *)

Module Geometry.
Import Np PyFloat Layout.

(** [round(0.005 / 3.48 * d)] and [round(0.005 / 2.49 * d)]: the padding
    between cards for a pixel height, and a pixel width, of [d]. *)
Definition card_pad_height (d : nat) : result Z :=
  fd ← float_of_int (Z.of_nat d); py_round (PAD_INCHES / H_INCHES * fd)%float.

Definition card_pad_width (d : nat) : result Z :=
  fd ← float_of_int (Z.of_nat d); py_round (PAD_INCHES / W_INCHES * fd)%float.

(** [round((11 - 3.48 * 3) / 3.48 * d / 2)] and
    [round((8.5 - 2.49 * 3) / 2.49 * d / 2)]: half of what a Letter page
    has left beside three cards, for a pixel height, and a pixel width, of
    [d]. *)
Definition margin_height (d : nat) : result Z :=
  fd ← float_of_int (Z.of_nat d);
  py_round ((11 - H_INCHES * 3) / H_INCHES * fd / 2)%float.

Definition margin_width (d : nat) : result Z :=
  fd ← float_of_int (Z.of_nat d);
  py_round ((8.5 - W_INCHES * 3) / W_INCHES * fd / 2)%float.

Definition white_pixel (c : nat) : pixel := repeat WHITE c.
Definition white_row (w c : nat) : row := repeat (white_pixel c) w.
Definition white_rows (n w c : nat) : list row := repeat (white_row w c) n.

(** A white image of shape [s]: a filler cell. *)
Definition filler (s : nat * nat * nat) : image := full3 s WHITE.

(** A [w]-wide cell with [ph] white rows above it and [pw] white pixels
    left of each of its rows. *)
Definition pad_cell (ph pw w c : nat) (img : image) : image :=
  white_rows ph (pw + w) c ++ map (fun r : row => white_row pw c ++ r) img.

(** The same cell padded on both sides of each axis. *)
Definition pad_cell_symmetric (ph pw w c : nat) (img : image) : image :=
  white_rows ph (pw + w + pw) c
    ++ map (fun r : row => white_row pw c ++ r ++ white_row pw c) img
    ++ white_rows ph (pw + w + pw) c.

(** The cells of one page, [h] rows each, as a grid filled row by row. *)
Definition grid (h : nat) (cells : list image) : image :=
  concat (map (hstack h) (chunks COLS_PER_PAGE cells)).

(** A [w]-wide raster with [mh] white rows above and below it and [mw]
    white pixels on both sides of each of its rows. *)
Definition add_margins (mh mw w c : nat) (g : image) : image :=
  white_rows mh (mw + w + mw) c
    ++ map (fun r : row => white_row mw c ++ r ++ white_row mw c) g
    ++ white_rows mh (mw + w + mw) c.

(** The [h x w] window of a raster whose corner is at row [top], column
    [left]. *)
Definition crop (top left h w : nat) (img : image) : image :=
  map (fun r : row => firstn w (skipn left r)) (firstn h (skipn top img)).

(** A band of rows cut into [n] images of width [w]. *)
Fixpoint split_columns (n w : nat) (band : list row) : list image :=
  match n with
  | O => []
  | S n' => map (firstn w) band :: split_columns n' w (map (skipn w) band)
  end.

(** A grid of cells of shape [h x w] cut back into its cells, row by row. *)
Definition split_cells (h w : nat) (g : image) : list image :=
  concat (map (split_columns COLS_PER_PAGE w) (chunks_aux ROWS_PER_PAGE h g)).

(** A page cut back into its cells: the margins are dropped and the grid is
    split at the known cell size. *)
Definition untile_page (mh mw h w : nat) (page : image) : list image :=
  split_cells h w (crop mh mw (ROWS_PER_PAGE * h) (COLS_PER_PAGE * w) page).

Definition untile (mh mw h w : nat) (pages : list image) : list image :=
  concat (map (untile_page mh mw h w) pages).

(** A cell without its padding. *)
Definition unpad_cell (ph pw h w : nat) (cell : image) : image :=
  crop ph pw h w cell.

(** After line 116 every stacked image is [pad_one ph pw w c] of itself,
    with [ph = round(0.005 / 3.48 * h)] and [pw = round(0.005 / 2.49 * w)]
    for images of shape [h x w x c]. *)
Definition cards_padded_with
    (pad_one : nat → nat → nat → nat → image → image)
    (image_list : list image) : Prop :=
  ∃ (h w c ph pw : nat) (canvas : ndarray),
    shape3 (hd [] image_list) = (h, w, c) ∧
    card_pad_height h = Ok (Z.of_nat ph) ∧ card_pad_width w = Ok (Z.of_nat pw) ∧
    pad_cards image_list = Ok canvas ∧
    data canvas =
      map (pad_one ph pw w c)
          (image_list ++ repeat (filler (h, w, c)) (nb_missing image_list)).

(** The pixel sizes a margin is computed from: those of one padded cell,
    or those of the assembled grid. *)
Definition cell_size (cell_h cell_w : nat) : nat * nat := (cell_h, cell_w).
Definition grid_size (cell_h cell_w : nat) : nat * nat :=
  ((ROWS_PER_PAGE * cell_h)%nat, (COLS_PER_PAGE * cell_w)%nat).

(** Every page is the grid of its nine padded cells between margins of
    [round(missing_height / 2)] rows and [round(missing_width / 2)]
    columns on both sides, the missing sizes being computed from
    [basis cell_h cell_w]. *)
Definition pages_margined_from
    (basis : nat → nat → nat * nat) (image_list : list image) : Prop :=
  ∃ (h w c ph pw mh mw : nat) (pages : ndarray),
    shape3 (hd [] image_list) = (h, w, c) ∧
    card_pad_height h = Ok (Z.of_nat ph) ∧ card_pad_width w = Ok (Z.of_nat pw) ∧
    margin_height (fst (basis (ph + h) (pw + w))%nat) = Ok (Z.of_nat mh) ∧
    margin_width (snd (basis (ph + h) (pw + w))%nat) = Ok (Z.of_nat mw) ∧
    tile_in_pages image_list = Ok pages ∧
    data pages =
      map (fun page_cells =>
             add_margins mh mw (COLS_PER_PAGE * (pw + w)) c (grid (ph + h) page_cells))
          (chunks CARDS_PER_PAGE
             (map (pad_cell ph pw w c)
                (image_list ++ repeat (filler (h, w, c)) (nb_missing image_list)))).

(** The images share the shape of the first one. *)
Definition same_shape (image_list : list image) : Prop :=
  forallb (has_shape (shape3 (hd [] image_list))) image_list = true.

(** Pixel counts the image decoder can produce. *)
Definition decodable (d : nat) : Prop := Z.of_nat d < 2 ^ 31.

(** [img] has [h] rows of [w] pixels. *)
Definition raster (h w : nat) (img : image) : Prop :=
  length img = h ∧ Forall (fun r : row => length r = w) img.

End Geometry.

(** ** Python strings *)

Module Py.

(** [str.isspace] on one ASCII character. *)
Definition is_space (a : Ascii.ascii) : bool :=
  let n := Ascii.nat_of_ascii a in
  (n =? 32)%nat || ((9 <=? n)%nat && (n <=? 13)%nat) || ((28 <=? n)%nat && (n <=? 31)%nat).

Fixpoint lstrip_with (p : Ascii.ascii → bool) (s : string) : string :=
  match s with
  | String a s' => if p a then lstrip_with p s' else s
  | EmptyString => EmptyString
  end.

Definition reverse (s : string) : string :=
  String.string_of_list_ascii (rev (String.list_ascii_of_string s)).

Definition rstrip_with (p : Ascii.ascii → bool) (s : string) : string :=
  reverse (lstrip_with p (reverse s)).

(** [s.strip()] *)
Definition strip (s : string) : string :=
  rstrip_with is_space (lstrip_with is_space s).

(** [s.strip(c)] for a single character [c] *)
Definition strip_char (c : Ascii.ascii) (s : string) : string :=
  rstrip_with (Ascii.eqb c) (lstrip_with (Ascii.eqb c) s).

(** [s.startswith(p)] *)
Definition startswith (s p : string) : bool := String.prefix p s.

(** [c in s] for a single character [c] *)
Fixpoint contains (c : Ascii.ascii) (s : string) : bool :=
  match s with
  | String a s' => Ascii.eqb c a || contains c s'
  | EmptyString => false
  end.

Definition is_digit (a : Ascii.ascii) : bool :=
  let n := Ascii.nat_of_ascii a in (48 <=? n)%nat && (n <=? 57)%nat.

Fixpoint all_digits (s : string) : bool :=
  match s with
  | String a s' => is_digit a && all_digits s'
  | EmptyString => true
  end.

(** [s.isdigit()] *)
Definition isdigit (s : string) : bool :=
  match s with
  | EmptyString => false
  | _ => all_digits s
  end.

(** [s.split(c)]: the pieces of [s] between the occurrences of [c]. *)
Fixpoint split (c : Ascii.ascii) (s : string) : list string :=
  match s with
  | EmptyString => [EmptyString]
  | String a s' =>
      if Ascii.eqb c a then EmptyString :: split c s'
      else match split c s' with
           | piece :: pieces => String a piece :: pieces
           | [] => [String a EmptyString]
           end
  end.

(** [s.split(c, 1)]: [s] cut at the first [c], or [s] alone. *)
Fixpoint split_once (c : Ascii.ascii) (s : string) : list string :=
  match s with
  | EmptyString => [EmptyString]
  | String a s' =>
      if Ascii.eqb c a then [EmptyString; s']
      else match split_once c s' with
           | piece :: pieces => String a piece :: pieces
           | [] => [String a EmptyString]
           end
  end.

(** [a, b = l]: unpacking into two names. *)
Definition unpack2 (l : list string) : result (string * string) :=
  match l with
  | [a; b] => Ok (a, b)
  | _ => Raise (ValueError "not enough values to unpack (expected 2)")
  end.

(** The truth value of an [Optional[str]]: [None] and [''] are false. *)
Definition truthy (o : option string) : bool :=
  match o with
  | Some s => negb (String.eqb s "")
  | None => false
  end.

(** [d[key]] on a dict that may lack the key. *)
Definition getitem {A} (key : string) (field : option A) : result A :=
  match field with
  | Some v => Ok v
  | None => Raise (KeyError key)
  end.

End Py.

(** ** The catalog service and the other collaborators *)

Module Scryfall.
Import Np.

(** An entry of a card's [all_parts]. *)
Record part := Part { part_component : option string; part_id : option string }.

(** A card as the catalog returns it: the JSON fields the program reads;
    a field the object lacks is [None]. *)
Record card := Card {
  card_id : option string;
  type_line : option string;
  image_uris_normal : option string;
  all_parts : option (list part)
}.

(** What a scrython call returns: a plain [dict], or an object that holds
    the dict as [scryfallJson]. *)
Inductive card_data :=
| JsonDict (json : card)
| ScryObject (scryfallJson : card).

(** The world outside the program, fixed for one run. *)
Record world := World {
  cards_Id : string → result card_data;          (* scrython.cards.Id(id=...) *)
  cards_Named : string → result card_data;       (* scrython.cards.Named(fuzzy=...) *)
  cards_Search : string → result (list card);    (* scrython.cards.Search(q=...).data() *)
  get_image : string → result image;             (* requests.get(url), cv2.imdecode *)
  urlparse_path : string → result string;        (* urlparse(spec).path *)
  random_draw : nat → nat;                       (* the generator's n-th raw draw *)
  draw_limit : nat          (* draws one pick of random.sample is followed through *)
}.

(** The calls to the outside the program makes, as the run's trace. *)
Inductive call :=
| CallId (id : string)
| CallNamed (name : string)
| CallSearch (q : string)
| CallGet (url : string)
| CallSleep
| CallPrint (msg : string).

#[global] Instance call_eq_dec : EqDecision call.
Proof. solve_decision. Defined.

End Scryfall.

(** ** The resolvers and the top-level driver *)

Module Pipeline.
Import Np Py Scryfall.

(** What a run accumulates: the image list and the token-id set the driver
    owns, the trace of outside calls, and how many random draws were
    taken. *)
Record run_state := RunState {
  image_list : list image;
  token_ids : gset string;
  calls : list call;
  draws : nat
}.

(** A computation that reads and changes the run state and returns or
    raises; the state it leaves is kept either way. *)
Definition M (A : Type) : Type := run_state → result A * run_state.

Definition ret {A} (a : A) : M A := fun s => (Ok a, s).
Definition raise {A} (e : exn) : M A := fun s => (Raise e, s).
Definition bind {A B} (m : M A) (k : A → M B) : M B :=
  fun s => match m s with
           | (Ok a, s') => k a s'
           | (Raise e, s') => (Raise e, s')
           end.

#[global] Instance M_ret : MRet M := @ret.
#[global] Instance M_bind : MBind M := fun A B k m => bind m k.

Definition lift {A} (r : result A) : M A := fun s => (r, s).

(** [try: m except Exception as e: handler(e)] *)
Definition try_except {A} (m : M A) (handler : exn → M A) : M A :=
  fun s => match m s with
           | (Ok a, s') => (Ok a, s')
           | (Raise e, s') => handler e s'
           end.

Definition log (c : call) : M unit :=
  fun s => (Ok tt, RunState (image_list s) (token_ids s) (calls s ++ [c]) (draws s)).

(** [image_list.extend(imgs)] *)
Definition extend_images (imgs : list image) : M unit :=
  fun s => (Ok tt, RunState (image_list s ++ imgs) (token_ids s) (calls s) (draws s)).

(** [token_ids |= ids] *)
Definition add_token_ids (ids : gset string) : M unit :=
  fun s => (Ok tt, RunState (image_list s) (token_ids s ∪ ids) (calls s) (draws s)).

(** One call of the generator's [randbelow(n)]. *)
Definition randbelow (w : world) (n : nat) : M nat :=
  fun s => (Ok (random_draw w (draws s) mod n)%nat,
            RunState (image_list s) (token_ids s) (calls s) (S (draws s))).

(** [ceil(log(x, 4))] for [x >= 1]: the least [e] with [x <= 4 ** e].
    CPython computes the logarithm in floating point; [x] is three times a
    count here, never a power of 4, and the exact value is taken. *)
Definition ceil_log4 (x : Z) : Z := (Z.log2_up x + 1) / 2.

(** The population size up to which [random.sample] selects from a pool:
    [setsize = 21], and [setsize += 4 ** _ceil(_log(k * 3, 4))] when
    [k > 5]. *)
Definition setsize (k : Z) : Z :=
  if 5 <? k then 21 + 4 ^ ceil_log4 (k * 3) else 21.

(** What the model gives a pick that is still drawing after [draw_limit]
    draws. It is no exception of the program, which would go on drawing:
    the run is followed no further. *)
Definition StillDrawing : exn := Exn "StillDrawing" [].

Section World.
Variable w : world.

Definition scrython_Id (id : string) : M card_data :=
  _ ← log (CallId id); lift (cards_Id w id).
Definition scrython_Named (name : string) : M card_data :=
  _ ← log (CallNamed name); lift (cards_Named w name).
Definition scrython_Search (q : string) : M (list card) :=
  _ ← log (CallSearch q); lift (cards_Search w q).

Definition to_json (cd : card_data) : card :=
  match cd with
  | JsonDict json => json
  | ScryObject json => json
  end.

Definition fetch_image (card_data : card) : M image :=
  image_url ← lift (getitem "image_uris" (image_uris_normal card_data));
  _ ← log (CallGet image_url);
  lift (get_image w image_url).

Fixpoint get_tokens_loop (parts : list part) (token_ids : gset string)
  : result (gset string) :=
  match parts with
  | [] => Ok token_ids
  | p :: parts' =>
      component ← getitem "component" (part_component p);
      if String.eqb component "token"
      then id ← getitem "id" (part_id p); get_tokens_loop parts' (token_ids ∪ {[ id ]})
      else get_tokens_loop parts' token_ids
  end.

Definition get_tokens (card_data : card) : result (gset string) :=
  get_tokens_loop (default [] (all_parts card_data)) ∅.

(** The query of lines 153 and 158. *)
Definition set_number_query (set_code number : string) : string :=
  "set:" +:+ set_code +:+ " number:" +:+ number.

(** [results[0]['id']] when [results] is not empty, else [None]. *)
Definition first_id (results : list card) : M (option string) :=
  match results with
  | c :: _ => id ← lift (getitem "id" (card_id c)); ret (Some id)
  | [] => ret None
  end.

Definition resolve_token_spec (spec : string) : M (option string) :=
  let spec := strip spec in
  try_except
    (if startswith spec "http" then
       path ← lift (urlparse_path w spec);
       let parts := split "/"%char (strip_char "/"%char path) in
       match parts with
       | p0 :: set_code :: number :: _ =>
           if String.eqb p0 "card" then
             results ← scrython_Search (set_number_query set_code number);
             first_id results
           else ret None
       | _ => ret None
       end
     else if contains "/"%char spec then
       '(set_code, number) ← lift (unpack2 (split_once "/"%char spec));
       results ← scrython_Search (set_number_query set_code number);
       first_id results
     else
       card ← scrython_Named spec;
       id ← lift (getitem "id" (card_id (to_json card)));
       ret (Some id))
    (fun _ => ret None).

(** [random.sample(population, k)] as CPython selects it. For a population
    of at most [setsize] entries it selects from a pool, a copy of the
    population: the [i]-th pick is [pool[j]] for [j = randbelow(n - i)],
    after which the last live entry takes its place. *)
Fixpoint sample_loop {A} (k live : nat) (pool : list A) : M (list A) :=
  match k with
  | O => ret []
  | S k' =>
      j ← randbelow w live;
      match pool !! j, pool !! (live - 1)%nat with
      | Some x, Some y =>
          rest ← sample_loop k' (live - 1)%nat (<[j := y]> pool);
          ret (x :: rest)
      | _, _ => raise IndexError
      end
  end.

(** For a larger population it keeps the set of the positions selected:
    [j = randbelow(n)], and [while j in selected: j = randbelow(n)]. *)
Fixpoint draw_unselected (fuel n : nat) (selected : gset nat) : M nat :=
  match fuel with
  | O => raise StillDrawing
  | S fuel' =>
      j ← randbelow w n;
      if decide (j ∈ selected) then draw_unselected fuel' n selected else ret j
  end.

Fixpoint sample_set_loop {A} (k n : nat) (population : list A) (selected : gset nat)
  : M (list A) :=
  match k with
  | O => ret []
  | S k' =>
      j ← draw_unselected (draw_limit w) n selected;
      match population !! j with
      | Some x =>
          rest ← sample_set_loop k' n population (selected ∪ {[ j ]});
          ret (x :: rest)
      | None => raise IndexError
      end
  end.

Definition random_sample {A} (population : list A) (k : Z) : M (list A) :=
  let n := length population in
  if (0 <=? k) && (k <=? Z.of_nat n) then
    if Z.of_nat n <=? setsize k
    then sample_loop (Z.to_nat k) n population
    else sample_set_loop (Z.to_nat k) n population ∅
  else raise (ValueError "Sample larger than population or is negative").

(** A deck line: [infos['name']] and [infos['count']]. *)
Record deck_entry := DeckEntry { entry_name : string; entry_count : Z }.

(** A name that looks like a URL or a set/number spec (line 53). *)
Definition looks_like_spec (name : string) : bool :=
  startswith name "http" || (contains "/"%char name && negb (isdigit name)).

(** Lines 51-62: the card record of a deck line's name. *)
Definition lookup_card (name : string) : M card :=
  try_except
    (card_data ←
       (if looks_like_spec name then
          tid ← resolve_token_spec name;
          if truthy tid then
            cd ← scrython_Id (default "" tid); ret (Some (to_json cd))
          else ret None
        else ret None);
     match card_data with
     | Some c => ret c
     | None => cd ← scrython_Named name; ret (to_json cd)
     end)
    (fun e => raise e).

(** [image_list.extend(map(f, items))]: the images are appended one by
    one as [f] returns them. *)
Fixpoint extend_map {A} (f : A → M image) (items : list A) : M unit :=
  match items with
  | [] => ret tt
  | x :: items' =>
      img ← f x;
      _ ← extend_images [img];
      extend_map f items'
  end.

Definition process_card (infos : deck_entry) (add_tokens : bool) : M unit :=
  let name := strip (entry_name infos) in
  card_data ← lookup_card name;
  tl ← lift (getitem "type_line" (type_line card_data));
  _ ← (if startswith tl "Basic Land" then
         candidates ← scrython_Search ("++" +:+ entry_name infos);
         sampled ← random_sample candidates (entry_count infos);
         extend_map fetch_image sampled
       else
         image ← fetch_image card_data;
         _ ← extend_images (repeat image (Z.to_nat (entry_count infos)));
         if add_tokens then
           ids ← lift (get_tokens card_data);
           add_token_ids ids
         else ret tt);
  log CallSleep.

Definition process_token (ident : string) : M unit :=
  token_data ← scrython_Id ident;
  img ← fetch_image (to_json token_data);
  extend_images [img; img].

(** The command line: [--no-tokens] and the [--token] specs. *)
Record args := Args { no_tokens : bool; token : list string }.

Fixpoint for_each {A} (f : A → M unit) (items : list A) : M unit :=
  match items with
  | [] => ret tt
  | x :: items' => _ ← f x; for_each f items'
  end.

(** Lines 213-219. *)
Fixpoint resolve_forced (specs : list string) (forced : gset string)
  : M (gset string) :=
  match specs with
  | [] => ret forced
  | spec :: specs' =>
      tid ← resolve_token_spec spec;
      if truthy tid then resolve_forced specs' (forced ∪ {[ default "" tid ]})
      else
        _ ← log (CallPrint ("Warning: could not resolve token spec: " +:+ spec));
        resolve_forced specs' forced
  end.

Definition get_token_ids : M (gset string) := fun s => (Ok (token_ids s), s).
Definition get_image_list : M (list image) := fun s => (Ok (image_list s), s).

Definition nonempty (ids : gset string) : bool := bool_decide (ids ≠ ∅).

(** Lines 209-226: the forced tokens, then the cards of the deck. *)
Definition card_phase (a : args) (deck : list deck_entry) : M (gset string) :=
  let add_tokens := negb (no_tokens a) in
  forced_token_ids ← resolve_forced (token a) ∅;
  _ ← (if nonempty forced_token_ids && no_tokens a
       then log (CallPrint "Note: user-specified tokens will be included despite --no-tokens.")
       else ret tt);
  _ ← add_token_ids forced_token_ids;
  _ ← for_each (fun card_infos => process_card card_infos add_tokens) deck;
  ret forced_token_ids.

(** Lines 228-231: the tokens, each id of the set once. *)
Definition token_phase (a : args) (forced_token_ids : gset string) : M unit :=
  let add_tokens := negb (no_tokens a) in
  ids ← get_token_ids;
  if (add_tokens && nonempty ids) || nonempty forced_token_ids
  then for_each process_token (elements ids)
  else ret tt.

(** Lines 207-233, from the loaded deck to the page canvases. *)
Definition main (a : args) (deck : list deck_entry) : M ndarray :=
  forced_token_ids ← card_phase a deck;
  _ ← token_phase a forced_token_ids;
  images ← get_image_list;
  lift (Layout.tile_in_pages images).

End World.

(** Line 209: [image_list, token_ids = [], set()]. *)
Definition initial_state : run_state := RunState [] ∅ [] 0.

End Pipeline.

(** ** What the resolvers compute

    The results and the traces of the resolvers as functions of the world,
    in the words of the specification; the theorems relate them to the
    program. *)

Module Resolution.
Import Np Py Scryfall Pipeline.

(** The state after [new_calls] more calls and nothing else. *)
Definition with_calls (s : run_state) (new_calls : list call) : run_state :=
  RunState (image_list s) (token_ids s) (calls s ++ new_calls) (draws s).

(** The selection of [random.sample] as a function of its draws: [js] are
    the values [randbelow] returned, in order. *)
Fixpoint pick {A} (js : list nat) (live : nat) (pool : list A) : option (list A) :=
  match js with
  | [] => Some []
  | j :: js' =>
      match pool !! j, pool !! (live - 1)%nat with
      | Some x, Some y => cons x <$> pick js' (live - 1)%nat (<[j := y]> pool)
      | _, _ => None
      end
  end.

(** Draws [randbelow] can return while [live] entries are left: the first
    below [live], the next below [live - 1], and so on. *)
Fixpoint valid_draws (js : list nat) (live : nat) : Prop :=
  match js with
  | [] => True
  | j :: js' => (j < live)%nat ∧ valid_draws js' (live - 1)%nat
  end.

(** The positions selected out of a large population when [randbelow]
    returns [js] in turn: every value not seen before is a pick, a value
    seen before is drawn again. [None] when [js] is not what a run of [k]
    picks consumes: it ends before the [k]-th pick, or goes on after
    it. *)
Fixpoint distinct_picks (js : list nat) (k : nat) (selected : list nat)
  : option (list nat) :=
  match js, k with
  | [], O => Some []
  | [], S _ => None
  | _ :: _, O => None
  | j :: js', S k' =>
      if bool_decide (j ∈ selected) then distinct_picks js' k selected
      else cons j <$> distinct_picks js' k' (j :: selected)
  end.

(** The positions [ps] are what [random.sample] selects out of [n]
    candidates, for a count of [k], when its calls of [randbelow] return
    [js] in turn, each value in the range of its call. *)
Definition selects (n k : nat) (js ps : list nat) : Prop :=
  if decide (Z.of_nat n <= setsize (Z.of_nat k))
  then length js = k ∧ valid_draws js n ∧ pick js n (seq 0 n) = Some ps
  else Forall (fun j => (j < n)%nat) js ∧ distinct_picks js k [] = Some ps.

(** An ordered selection of [k] positions below [n], none twice. *)
Definition ordered_selection (n k : nat) (ps : list nat) : Prop :=
  NoDup ps ∧ length ps = k ∧ Forall (fun p => (p < n)%nat) ps.

(** The draw sequences that select [ps] and those that select [ps'] match
    one to one, a sequence matching one of its own length: when every
    sequence of values [randbelow] can return is as likely as any other of
    its length, [ps] and [ps'] are selected with the same probability. *)
Definition equally_likely (n k : nat) (ps ps' : list nat) : Prop :=
  ∃ f g : list nat → list nat,
    (∀ js, selects n k js ps →
           selects n k (f js) ps' ∧ length (f js) = length js ∧ g (f js) = js) ∧
    (∀ js, selects n k js ps' →
           selects n k (g js) ps ∧ length (g js) = length js ∧ f (g js) = js).

Section World.
Variable w : world.

(** The [k] draws [randbelow] returns from the generator's [d]-th raw draw
    on, with [live] entries left. *)
Fixpoint draws_of (d k live : nat) : list nat :=
  match k with
  | O => []
  | S k' => (random_draw w d mod live)%nat :: draws_of (S d) k' (live - 1)%nat
  end.

(** The [m] values [randbelow(n)] returns from the generator's [d]-th raw
    draw on. *)
Fixpoint draws_below (d m n : nat) : list nat :=
  match m with
  | O => []
  | S m' => (random_draw w d mod n)%nat :: draws_below (S d) m' n
  end.

(** The values [randbelow] returns to [random.sample] on [n] candidates
    with a count of [k], when it is called [m] times from the generator's
    [d]-th raw draw on. *)
Definition generator_draws (d n k m : nat) : list nat :=
  if decide (Z.of_nat n <= setsize (Z.of_nat k))
  then draws_of d m n else draws_below d m n.

(** What identifier resolution returns, as a function of the world: the
    one lookup the form of [spec] selects, and [None] for every
    failure. *)
Definition search_id (q : string) : option string :=
  match cards_Search w q with
  | Ok (c :: _) => card_id c
  | _ => None
  end.

Definition resolved_id (spec : string) : option string :=
  let spec := strip spec in
  if startswith spec "http" then
    match urlparse_path w spec with
    | Ok path =>
        match split "/"%char (strip_char "/"%char path) with
        | p0 :: set_code :: number :: _ =>
            if String.eqb p0 "card"
            then search_id (set_number_query set_code number)
            else None
        | _ => None
        end
    | Raise _ => None
    end
  else if contains "/"%char spec then
    match unpack2 (split_once "/"%char spec) with
    | Ok (set_code, number) => search_id (set_number_query set_code number)
    | Raise _ => None
    end
  else
    match cards_Named w spec with
    | Ok card => card_id (to_json card)
    | Raise _ => None
    end.

(** The catalog lookups identifier resolution makes: at most one. *)
Definition resolution_calls (spec : string) : list call :=
  let spec := strip spec in
  if startswith spec "http" then
    match urlparse_path w spec with
    | Ok path =>
        match split "/"%char (strip_char "/"%char path) with
        | p0 :: set_code :: number :: _ =>
            if String.eqb p0 "card"
            then [CallSearch (set_number_query set_code number)]
            else []
        | _ => []
        end
    | Raise _ => []
    end
  else if contains "/"%char spec then
    match unpack2 (split_once "/"%char spec) with
    | Ok (set_code, number) => [CallSearch (set_number_query set_code number)]
    | Raise _ => []
    end
  else [CallNamed spec].

(** The card record a deck line's name resolves to (lines 51-62), as a
    function of the world, and the lookups made on the way. *)
Definition resolved_by_spec (name : string) : result (option card) :=
  if looks_like_spec name then
    let tid := resolved_id name in
    if truthy tid then
      match cards_Id w (default "" tid) with
      | Ok cd => Ok (Some (to_json cd))
      | Raise e => Raise e
      end
    else Ok None
  else Ok None.

Definition resolved_card (name : string) : result card :=
  match resolved_by_spec name with
  | Ok (Some c) => Ok c
  | Ok None =>
      match cards_Named w name with
      | Ok cd => Ok (to_json cd)
      | Raise e => Raise e
      end
  | Raise e => Raise e
  end.

Definition spec_calls (name : string) : list call :=
  if looks_like_spec name then
    resolution_calls name ++
    (if truthy (resolved_id name) then [CallId (default "" (resolved_id name))] else [])
  else [].

Definition lookup_calls (name : string) : list call :=
  spec_calls name ++
  match resolved_by_spec name with
  | Ok None => [CallNamed name]
  | _ => []
  end.

(** The card has an image and it can be fetched. *)
Definition fetchable (c : card) (img : image) : Prop :=
  ∃ url, image_uris_normal c = Some url ∧ get_image w url = Ok img.

(** The trace of fetching the images of [items]. *)
Definition fetch_calls (items : list card) : list call :=
  omap (fun c => CallGet <$> image_uris_normal c) items.

(** The ids of the parts of a card that are token components. *)
Definition is_token_part (p : part) : bool :=
  match part_component p with
  | Some component => String.eqb component "token"
  | None => false
  end.

Definition token_part_ids (parts : list part) : gset string :=
  list_to_set (omap (fun p => if is_token_part p then part_id p else None) parts).

(** The token id resolves to a record whose image is at [url] and is [img]. *)
Definition token_resolves (id url : string) (img : image) : Prop :=
  ∃ cd, cards_Id w id = Ok cd ∧ image_uris_normal (to_json cd) = Some url ∧
        get_image w url = Ok img.

(** The images and the calls of the token phase over the ids [ids]. *)
Definition token_images (img_of : string → image) (ids : list string) : list image :=
  concat (map (fun id => [img_of id; img_of id]) ids).

Definition token_calls (url_of : string → string) (ids : list string) : list call :=
  concat (map (fun id => [CallId id; CallGet (url_of id)]) ids).

(** Computations that leave the token-id set alone, whether they return
    or raise. *)
Definition keeps_token_ids {A} (m : M A) : Prop :=
  ∀ s, token_ids (snd (m s)) = token_ids s.

(** The token ids a deck line contributes: those of its card when it is not
    a basic land and token collection is on. *)
Definition card_token_ids (add_tokens : bool) (infos : deck_entry) : gset string :=
  match resolved_card (strip (entry_name infos)) with
  | Ok card_data =>
      match type_line card_data with
      | Some tl =>
          if startswith tl "Basic Land" then ∅
          else if add_tokens then
                 match get_tokens card_data with
                 | Ok ids => ids
                 | Raise _ => ∅
                 end
               else ∅
      | None => ∅
      end
  | Raise _ => ∅
  end.

(** Identifier resolution as a chain of attempts: each form is tried in
    turn, URL, then set/number, then name, and the first attempt that
    yields an id wins. *)
Definition url_attempt (spec : string) : option string :=
  if startswith spec "http" then
    match urlparse_path w spec with
    | Ok path =>
        match split "/"%char (strip_char "/"%char path) with
        | p0 :: set_code :: number :: _ =>
            if String.eqb p0 "card"
            then search_id (set_number_query set_code number)
            else None
        | _ => None
        end
    | Raise _ => None
    end
  else None.

Definition shorthand_attempt (spec : string) : option string :=
  if contains "/"%char spec then
    match unpack2 (split_once "/"%char spec) with
    | Ok (set_code, number) => search_id (set_number_query set_code number)
    | Raise _ => None
    end
  else None.

Definition name_attempt (spec : string) : option string :=
  match cards_Named w spec with
  | Ok card => card_id (to_json card)
  | Raise _ => None
  end.

Definition first_success (spec : string) : option string :=
  let spec := strip spec in
  match url_attempt spec with
  | Some id => Some id
  | None =>
      match shorthand_attempt spec with
      | Some id => Some id
      | None => name_attempt spec
      end
  end.

Definition first_success_wins : Prop :=
  ∀ spec s, fst (resolve_token_spec w spec s) = Ok (first_success spec).

End World.

End Resolution.

(** ** Deck files: the text branch of [load_deck] *)

Module DeckFile.
Import Py.

(** The line boundaries of [str.splitlines] in ASCII text: LF, VT, FF, CR
    and the separators FS, GS, RS. *)
Definition is_linebreak (a : Ascii.ascii) : bool :=
  let n := Ascii.nat_of_ascii a in
  ((10 <=? n)%nat && (n <=? 13)%nat) || ((28 <=? n)%nat && (n <=? 30)%nat).

(** [s.splitlines()]: the lines of [s] without their line breaks; CR LF
    counts as one break, and a break at the very end opens no further
    line. *)
Fixpoint splitlines (s : string) : list string :=
  match s with
  | EmptyString => []
  | String a s' =>
      if is_linebreak a then
        EmptyString ::
          match s' with
          | String b s'' =>
              if Ascii.eqb a "013"%char && Ascii.eqb b "010"%char
              then splitlines s'' else splitlines s'
          | EmptyString => []
          end
      else
        match splitlines s' with
        | line :: lines => String a line :: lines
        | [] => [String a EmptyString]
        end
  end.

(** Lines 31-34: the rows the data frame of a text deck is built from, one
    per line that is not empty, cut at the line's first space
    ([re.split(" ", line, maxsplit=1)]). *)
Definition load_deck_rows (content : string) : list (list string) :=
  let lines := splitlines content in
  map (split_once " "%char)
      (List.filter (fun line => negb (String.eqb line "")) lines).

(** A deck written out, one [count name] line per entry, the lines joined
    by LF. *)
Definition deck_line (entry : string * string) : string :=
  fst entry +:+ " " +:+ snd entry.

Definition deck_text (entries : list (string * string)) : string :=
  String.concat (String "010"%char EmptyString) (map deck_line entries).

(** [s] holds a line break. *)
Fixpoint has_linebreak (s : string) : bool :=
  match s with
  | EmptyString => false
  | String a s' => is_linebreak a || has_linebreak s'
  end.

(** An entry that can be written on one line and read back: no space in
    its count, no line break in its count or its name. *)
Definition writable (entry : string * string) : Prop :=
  contains " "%char (fst entry) = false ∧
  has_linebreak (fst entry) = false ∧ has_linebreak (snd entry) = false.

End DeckFile.

(** ** Looking for deck files: [find_deck_files] *)

Module DeckSearch.
Import Py.

(** [s.lower()] on ASCII text. *)
Definition lower_char (a : Ascii.ascii) : Ascii.ascii :=
  let n := Ascii.nat_of_ascii a in
  if (65 <=? n)%nat && (n <=? 90)%nat then Ascii.ascii_of_nat (n + 32) else a.

Fixpoint lower (s : string) : string :=
  match s with
  | EmptyString => EmptyString
  | String a s' => String (lower_char a) (lower s')
  end.

(** [sub in s] *)
Fixpoint contains_str (sub s : string) : bool :=
  match s with
  | EmptyString => String.eqb sub EmptyString
  | String _ s' => String.prefix sub s || contains_str sub s'
  end.

(** [s.rfind(c)], [None] for [-1]. *)
Fixpoint rfind (c : Ascii.ascii) (s : string) : option nat :=
  match s with
  | EmptyString => None
  | String a s' =>
      match rfind c s' with
      | Some i => Some (S i)
      | None => if Ascii.eqb a c then Some O else None
      end
  end.

(** [PurePath(name).suffix]: the name from its last dot on, when that dot
    is neither the first nor the last character of the name. *)
Definition suffix (name : string) : string :=
  match rfind "."%char name with
  | Some i =>
      if (0 <? i)%nat && (i <? String.length name - 1)%nat
      then String.substring i (String.length name - i) name
      else EmptyString
  | None => EmptyString
  end.

(** Line 193 and the test of line 201. *)
Definition allowed_exts : list string := [".csv"; ".txt"; ".tsv"].

Definition allowed (fname : string) : bool :=
  existsb (String.eqb (lower (suffix fname))) allowed_exts.

(** The test of line 198. *)
Definition is_venv (d : string) : bool := contains_str "venv" (lower d).

(** A directory as [os.walk] lists it: the names of its files, and its
    subdirectories by name. *)
#[local] Unset Elimination Schemes.
Inductive tree := Dir (filenames : list string) (dirnames : list (string * tree)).
#[local] Set Elimination Schemes.

Definition filenames (t : tree) : list string :=
  match t with Dir fs _ => fs end.
Definition dirnames (t : tree) : list (string * tree) :=
  match t with Dir _ ds => ds end.

(** Lines 195-202. The walk is top-down: the files of a directory come
    first, then its subdirectories in turn, those whose name holds [venv]
    having been taken out of the list. A path is the list of its
    components below the root. *)
Fixpoint find_deck_files (dirpath : list string) (t : tree) : list (list string) :=
  match t with
  | Dir filenames dirnames =>
      map (fun fname => dirpath ++ [fname]) (List.filter allowed filenames) ++
      concat (map (fun d => if is_venv (fst d) then []
                            else find_deck_files (dirpath ++ [fst d]) (snd d))
                  dirnames)
  end.

(** [t] has the file [fname] in the directory reached from its root through
    [dirs]. *)
Fixpoint has_file (t : tree) (dirs : list string) (fname : string) : Prop :=
  match dirs with
  | [] => In fname (filenames t)
  | d :: dirs' => ∃ sub, In (d, sub) (dirnames t) ∧ has_file sub dirs' fname
  end.

End DeckSearch.

(** ** Sample inputs *)

Module Samples.
Import Np.

(** Two [2 x 2] images of one channel. *)
Definition img_a : image := [[[1]; [2]]; [[3]; [4]]].
Definition img_b : image := [[[5]; [6]]; [[7]; [8]]].

(** A black image 400 pixels high, one pixel wide: high enough for the
    padding between cards to be one pixel. *)
Definition img_tall : image := repeat [[0]] 400.

Import Scryfall Pipeline.

(** A small catalog: two spells that make the same Soldier token, the
    token itself, a basic land with three printings, and a split card whose
    name contains a slash. *)
Definition soldier : card :=
  Card (Some "soldier-id") (Some "Token Creature — Soldier") (Some "img/soldier") None.
Definition alarm : card :=
  Card (Some "alarm-id") (Some "Instant") (Some "img/alarm")
       (Some [Part (Some "combo_piece") (Some "alarm-id");
              Part (Some "token") (Some "soldier-id")]).
Definition call_to_arms : card :=
  Card (Some "call-id") (Some "Sorcery") (Some "img/call")
       (Some [Part (Some "token") (Some "soldier-id")]).
Definition island (n : string) : card :=
  Card (Some ("island-" +:+ n)) (Some "Basic Land — Island")
       (Some ("img/island-" +:+ n)) None.
Definition fire_ice : card :=
  Card (Some "fire-ice-id") (Some "Instant // Instant") (Some "img/fire-ice") None.

Definition not_found : exn := Exn "ScryfallError" ["No cards found matching the query"].

Definition sample_Named (name : string) : result card_data :=
  if String.eqb name "Raise the Alarm" then Ok (ScryObject alarm)
  else if String.eqb name "Captain's Call" then Ok (ScryObject call_to_arms)
  else if String.eqb name "Island" then Ok (ScryObject (island "1"))
  else if String.eqb name "Fire // Ice" then Ok (ScryObject fire_ice)
  else Raise not_found.

Definition sample_Id (id : string) : result card_data :=
  if String.eqb id "soldier-id" then Ok (ScryObject soldier)
  else if String.eqb id "alarm-id" then Ok (ScryObject alarm)
  else Raise not_found.

Definition sample_Search (q : string) : result (list card) :=
  if String.eqb q "++Island" then Ok [island "1"; island "2"; island "3"]
  else if String.eqb q "set:m11 number:34" then Ok [alarm]
  else if String.eqb q "set:zzz number:1" then Ok []
  else Raise not_found.

Fixpoint checksum (s : string) : Z :=
  match s with
  | EmptyString => 0
  | String a s' => (Z.of_nat (nat_of_ascii a) + checksum s') mod 256
  end.

Definition sample_get_image (url : string) : result image :=
  if Py.startswith url "img/" then Ok [[[checksum url]]]
  else Raise (Exn "ConnectionError" [url]).

Definition sample_urlparse_path (url : string) : result string :=
  if Py.startswith url "https://scryfall.com"
  then Ok (String.substring 20 (String.length url - 20) url)
  else Ok EmptyString.

Definition sample_world : world :=
  World sample_Id sample_Named sample_Search sample_get_image sample_urlparse_path
        (fun i => i) 8.

End Samples.

(** ** More sample inputs *)

Module Scenarios.
Import Np Scryfall Pipeline Samples DeckFile DeckSearch.

(** A double-faced card: its images are with its faces, the record itself
    has no [image_uris]. *)
Definition werewolf : card :=
  Card (Some "werewolf-id") (Some "Creature — Human Werewolf") None None.

(** A catalog that knows this card under every name. *)
Definition faces_world : world :=
  World (fun _ => Raise not_found) (fun _ => Ok (JsonDict werewolf))
        (fun _ => Ok []) (fun _ => Raise not_found) (fun _ => Ok EmptyString)
        (fun i => i) 8.

(** The first scenario of the specification: two copies of a spell and
    three Islands, no tokens. *)
Definition spells_and_islands : list deck_entry :=
  [DeckEntry "Raise the Alarm" 2; DeckEntry "Island" 3].

(** A basic land with 22 printings, more than [random.sample] selects
    from a pool, and a generator that returns 0, 0 again, and then 5. *)
Definition printings : list card :=
  map island ["a"; "b"; "c"; "d"; "e"; "f"; "g"; "h"; "i"; "j"; "k";
              "l"; "m"; "n"; "o"; "p"; "q"; "r"; "s"; "t"; "u"; "v"].

Definition repeating_world : world :=
  World sample_Id sample_Named (fun _ => Ok printings) sample_get_image
        sample_urlparse_path (fun i => nth i [0; 0; 5]%nat 0%nat) 8.

(** A deck file of two lines with an empty line between them. *)
Definition LF : string := String "010"%char EmptyString.

Definition deck_file : string :=
  "4 Lightning Bolt" +:+ LF +:+ LF +:+ "Island" +:+ LF.

End Scenarios.

(** * Properties *)

(** ** Floating-point rounding stays in range

    The layout engine multiplies and divides pixel counts as binary64
    numbers.  The lemmas below bound a rounded value by a power of two, which
    is enough to show that no step overflows and that every rounded width is
    a natural number. *)

Module FloatFacts.
Import PyFloat.

Section Rounding.
(* shr_1 halves a nonnegative mantissa *)
Lemma shr_1_bounds mrs :
0 <= shr_m mrs -> 0 <= shr_m (shr_1 mrs) /\ 2 * shr_m (shr_1 mrs) <= shr_m mrs.
Proof.
destruct mrs as [m r s]; simpl. intros Hm.
destruct m as [|p|p]; simpl; [lia| |lia].
destruct p; simpl; lia.
Qed.

Lemma iter_shr_1_bounds p : forall mrs,
0 <= shr_m mrs ->
0 <= shr_m (SpecFloat.iter_pos shr_1 p mrs) /\
2 ^ Z.pos p * shr_m (SpecFloat.iter_pos shr_1 p mrs) <= shr_m mrs.
Proof.
induction p as [p IH|p IH|]; intros mrs Hm; simpl SpecFloat.iter_pos.
- destruct (shr_1_bounds mrs Hm) as [H0 H1].
  destruct (IH _ H0) as [H2 H3]. destruct (IH _ H2) as [H4 H5].
  split; [done|].
  replace (Z.pos p~1) with (Z.pos p + Z.pos p + 1) by lia.
  rewrite !Z.pow_add_r by lia. change (2 ^ 1) with 2.
  assert (0 < 2 ^ Z.pos p) by (apply Z.pow_pos_nonneg; lia). nia.
- destruct (IH _ Hm) as [H2 H3]. destruct (IH _ H2) as [H4 H5].
  split; [done|].
  replace (Z.pos p~0) with (Z.pos p + Z.pos p) by lia.
  rewrite !Z.pow_add_r by lia.
  assert (0 < 2 ^ Z.pos p) by (apply Z.pow_pos_nonneg; lia). nia.
- destruct (shr_1_bounds mrs Hm) as [H0 H1]. split; [done|].
  change (2 ^ 1) with 2. lia.
Qed.

Lemma digits2_pos_size p : digits2_pos p = Pos.size p.
Proof. induction p; simpl; congruence. Qed.

Lemma Zdigits2_nonneg m : 0 <= Zdigits2 m.
Proof. destruct m; simpl; lia. Qed.

(* m < 2^k gives at most k digits *)
Lemma Zdigits2_le m k : 0 <= m < 2 ^ k -> 0 <= k -> Zdigits2 m <= k.
Proof.
intros [Hm Hlt] Hk. destruct m as [|p|p]; simpl; [lia| |lia].
rewrite digits2_pos_size.
pose proof (Pos.size_le p) as Hle.
apply Pos2Z.pos_le_pos in Hle. rewrite Pos2Z.inj_pow in Hle.
change (Z.pos p~0) with (2 * Z.pos p) in Hle.
destruct (Z_lt_le_dec k (Z.pos (Pos.size p))) as [Hc|Hc]; [|lia].
exfalso.
assert (2 ^ (k + 1) <= 2 ^ Z.pos (Pos.size p)) by (apply Z.pow_le_mono_r; lia).
rewrite Z.pow_add_r in H by lia. change (2 ^ 1) with 2 in H. lia.
Qed.

Lemma Zdigits2_gt p : Z.pos p < 2 ^ Zdigits2 (Z.pos p).
Proof.
simpl. rewrite digits2_pos_size. pose proof (Pos.size_gt p) as H.
apply Pos2Z.pos_lt_pos in H. now rewrite Pos2Z.inj_pow in H.
Qed.

Lemma shr_m_of_loc m l : shr_m (shr_record_of_loc m l) = m.
Proof. destruct l as [|[]]; reflexivity. Qed.

Lemma fexp_le_l x : x - 53 <= fexp prec emax x.
Proof. unfold fexp, emin, prec, emax. lia. Qed.

Lemma fexp_le_r x K : x <= K -> -1074 <= K -> fexp prec emax x <= K.
Proof. unfold fexp, emin, prec, emax. lia. Qed.

(** Shifting a mantissa to its canonical exponent keeps the value below
  [2^K]. *)
Lemma shr_fexp_bounds m e l K :
0 <= m < 2 ^ (K - e) -> e <= K -> -1074 <= K ->
let r := shr_fexp prec emax m e l in
0 <= shr_m (fst r) /\ shr_m (fst r) < 2 ^ (K - snd r) /\ snd r <= K.
Proof.
intros [Hm Hlt] He HK. unfold shr_fexp, shr.
assert (Hd : Zdigits2 m <= K - e) by (apply Zdigits2_le; lia).
assert (Hf : fexp prec emax (Zdigits2 m + e) <= K) by (apply fexp_le_r; lia).
destruct (fexp prec emax (Zdigits2 m + e) - e) as [|p|p] eqn:Hn; simpl;
  rewrite ?shr_m_of_loc; try (split; [lia|split; [assumption|lia]]).
destruct (iter_shr_1_bounds p (shr_record_of_loc m l)) as [H0 H1];
  [rewrite shr_m_of_loc; lia|].
rewrite shr_m_of_loc in H1.
split; [assumption|]. split; [|lia].
assert (Hp : 0 < 2 ^ Z.pos p) by (apply Z.pow_pos_nonneg; lia).
assert (Hs : 2 ^ (K - e) = 2 ^ Z.pos p * 2 ^ (K - (e + Z.pos p))).
{ rewrite <- Z.pow_add_r by lia. f_equal; lia. }
nia.
Qed.

Lemma round_nearest_even_bounds m l :
0 <= m -> m <= round_nearest_even m l <= m + 1.
Proof. intros Hm. destruct l as [|[]]; simpl; try lia. destruct (Z.even m); lia. Qed.

(** A value below [2^K], with [K] well under the overflow threshold, rounds
  to a zero or a finite float of the sign it was given, below [2^(K+1)]. *)
Lemma binary_round_aux_bounds s m e l K :
0 <= m < 2 ^ (K - e) -> e <= K -> -1074 <= K <= 970 ->
binary_round_aux prec emax s m e l = S754_zero s \/
exists m' e', binary_round_aux prec emax s m e l = S754_finite s m' e' /\
              Z.pos m' < 2 ^ (K + 1 - e') /\ e' <= K + 1.
Proof.
intros Hm He HK. unfold binary_round_aux.
pose proof (shr_fexp_bounds m e l K Hm He ltac:(lia)) as H1. simpl in H1.
destruct (shr_fexp prec emax m e l) as [mrs1 e1]. simpl in H1.
destruct H1 as (H10 & H11 & H12).
pose proof (round_nearest_even_bounds (shr_m mrs1) (loc_of_shr_record mrs1) H10) as Hr.
set (m2 := round_nearest_even (shr_m mrs1) (loc_of_shr_record mrs1)) in *.
assert (Hm2 : 0 <= m2 < 2 ^ (K + 1 - e1)).
{ split; [lia|]. replace (K + 1 - e1) with (K - e1 + 1) by lia.
  rewrite Z.pow_add_r by lia. change (2 ^ 1) with 2.
  assert (0 < 2 ^ (K - e1)) by (apply Z.pow_pos_nonneg; lia). lia. }
pose proof (shr_fexp_bounds m2 e1 loc_Exact (K + 1) Hm2 ltac:(lia) ltac:(lia)) as H2.
simpl in H2. destruct (shr_fexp prec emax m2 e1 loc_Exact) as [mrs2 e2]. simpl in H2.
destruct H2 as (H20 & H21 & H22).
destruct (shr_m mrs2) as [|p|p] eqn:Hs; [left; reflexivity| |lia].
right. exists p, e2.
replace (e2 <=? emax - prec) with true
  by (symmetry; apply Z.leb_le; unfold emax, prec; lia).
auto.
Qed.
End Rounding.

Section Ops.

Lemma binary_round_aux_below m e l K :
0 <= m < 2 ^ (K - e) -> e <= K -> -1074 <= K <= 970 ->
sf_below (K + 1) (binary_round_aux prec emax false m e l).
Proof. intros. now apply binary_round_aux_bounds. Qed.

Lemma iter_xO p d : Z.pos (Pos.iter xO p d) = Z.pos p * 2 ^ Z.pos d.
Proof.
induction d as [|d IH] using Pos.peano_ind.
- simpl. lia.
- rewrite Pos.iter_succ, Pos2Z.inj_xO, IH, Pos2Z.inj_succ, Z.pow_succ_r by lia. lia.
Qed.

Lemma binary_round_below p e K :
Z.pos p < 2 ^ (K - e) -> e <= K -> -1074 <= K <= 970 ->
sf_below (K + 1) (binary_round prec emax false p e).
Proof.
intros Hp He HK. unfold binary_round, shl_align.
destruct (fexp prec emax (Z.pos (digits2_pos p) + e) - e) as [|d|d] eqn:Hd;
  try (apply binary_round_aux_below; lia).
apply binary_round_aux_below; [|lia|lia].
split; [lia|]. rewrite iter_xO.
replace (K - fexp prec emax (Z.pos (digits2_pos p) + e)) with (K - e + Z.pos d) by lia.
rewrite Z.pow_add_r by lia.
assert (0 < 2 ^ Z.pos d) by (apply Z.pow_pos_nonneg; lia). nia.
Qed.

Lemma of_uint63_below n K :
0 <= n < 2 ^ K -> 0 <= K <= 62 ->
sf_below (K + 1) (Prim2SF (of_uint63 (Uint63.of_Z n))).
Proof.
intros Hn HK. rewrite of_uint63_spec, Uint63.of_Z_spec.
rewrite Z.mod_small.
2:{ split; [lia|]. apply Z.lt_le_trans with (2 ^ K); [lia|].
    change Uint63.wB with (2 ^ 63). apply Z.pow_le_mono_r; lia. }
destruct n as [|p|p]; [left; reflexivity| |lia].
simpl. apply binary_round_below; rewrite ?Z.sub_0_r; lia.
Qed.

Lemma SFmul_below x y Kx Ky :
sf_below Kx x -> sf_below Ky y -> -1074 <= Kx + Ky <= 970 ->
sf_below (Kx + Ky + 1) (SF64mul x y).
Proof.
intros [->|(mx & ex & -> & Hx & Hex)] [->|(my & ey & -> & Hy & Hey)] HK;
  try (left; reflexivity).
unfold SF64mul, SFmul. simpl xorb.
apply binary_round_aux_below; [|lia|lia].
split; [lia|]. rewrite Pos2Z.inj_mul.
replace (Kx + Ky - (ex + ey)) with ((Kx - ex) + (Ky - ey)) by lia.
rewrite Z.pow_add_r by lia. nia.
Qed.

Lemma SFdiv_below x my ey K :
sf_below K x -> -1074 <= K - ey <= 970 ->
sf_below (K - ey + 1) (SF64div x (S754_finite false my ey)).
Proof.
intros [->|(mx & ex & -> & Hx & Hex)] HK; [left; reflexivity|].
unfold SF64div, SFdiv, SFdiv_core_binary. simpl xorb.
set (e' := Z.min _ _).
assert (He' : e' <= ex - ey) by (subst e'; lia).
set (m' := match ex - ey - e' with Z.pos _ => _ | Z0 => _ | Z.neg _ => _ end).
assert (Hm' : 0 <= m' < 2 ^ (K - ey - e')).
{ subst m'. destruct (ex - ey - e') as [|s|s] eqn:Hs; [| |lia].
  - replace (K - ey - e') with (K - ex) by lia. lia.
  - rewrite Z.shiftl_mul_pow2 by lia.
    replace (K - ey - e') with (K - ex + Z.pos s) by lia.
    rewrite Z.pow_add_r by lia.
    assert (0 < 2 ^ Z.pos s) by (apply Z.pow_pos_nonneg; lia). nia. }
pose proof (Z_div_mod m' (Z.pos my) ltac:(lia)) as Hdiv.
destruct (Z.div_eucl m' (Z.pos my)) as [q r].
apply binary_round_aux_below; [|lia|lia].
destruct Hdiv as [Hq Hr]. split; nia.
Qed.
End Ops.

Lemma float_of_int_below n K :
  0 <= n < 2 ^ K -> 0 <= K <= 62 ->
  exists f, float_of_int n = Ok f /\ sf_below (K + 1) (Prim2SF f).
Proof.
  intros Hn HK. exists (of_uint63 (Uint63.of_Z n)).
  pose proof (of_uint63_below n K Hn HK) as Hb. split; [|exact Hb].
  assert (Hs : binary_normalize prec emax n 0 false = Prim2SF (of_uint63 (Uint63.of_Z n))).
  { rewrite of_uint63_spec, Uint63.of_Z_spec, Z.mod_small; [reflexivity|].
    split; [lia|]. apply Z.lt_le_trans with (2 ^ K); [lia|].
    change Uint63.wB with (2 ^ 63). apply Z.pow_le_mono_r; lia. }
  unfold float_of_int. rewrite Hs.
  destruct Hb as [Hz|(m & e & Hf & _)]; rewrite ?Hz, ?Hf;
    rewrite <- ?Hz, <- ?Hf; now rewrite SF2Prim_Prim2SF.
Qed.

Lemma round_half_even_bounds m e K :
  0 < m < 2 ^ (K - e) -> e <= K -> 0 <= K ->
  0 <= round_half_even m e <= 2 ^ K.
Proof.
  intros Hm He HK. unfold round_half_even.
  destruct (Z.leb_spec 0 e) as [H0|H0].
  - assert (Hk : 2 ^ K = 2 ^ (K - e) * 2 ^ e).
    { rewrite <- Z.pow_add_r by lia. f_equal; lia. }
    assert (0 < 2 ^ e) by (apply Z.pow_pos_nonneg; lia). nia.
  - cbv zeta.
    assert (Hd : 0 < 2 ^ (- e)) by (apply Z.pow_pos_nonneg; lia).
    assert (Hk : 2 ^ (K - e) = 2 ^ K * 2 ^ (- e)).
    { rewrite <- Z.pow_add_r by lia. f_equal; lia. }
    pose proof (Z.div_mod m (2 ^ (- e)) ltac:(lia)) as Hdm.
    pose proof (Z.mod_pos_bound m (2 ^ (- e)) Hd) as Hr.
    assert (Hq : 0 <= m / 2 ^ (- e) < 2 ^ K) by nia.
    repeat match goal with |- context [if ?b then _ else _] => destruct b end; lia.
Qed.

Lemma py_round_below x K :
  sf_below K (Prim2SF x) -> 0 <= K ->
  exists z, py_round x = Ok z /\ 0 <= z <= 2 ^ K.
Proof.
  intros [Hz|(m & e & Hf & Hm & He)] HK; unfold py_round.
  - rewrite Hz. exists 0. split; [reflexivity|].
    assert (0 < 2 ^ K) by (apply Z.pow_pos_nonneg; lia). lia.
  - rewrite Hf. eexists; split; [reflexivity|].
    apply round_half_even_bounds; lia.
Qed.

End FloatFacts.

(** ** The layout engine, stage by stage *)

Module LayoutFacts.
Import Np PyFloat Layout Geometry FloatFacts.

Lemma bind_Ok {A B} (a : A) (k : A → result B) : (Ok a ≫= k) = k a.
Proof. reflexivity. Qed.

(** Lines 105-110 on a nonempty list of images of one shape. *)
Lemma stack_with_filler_ok image_list h w c :
  image_list ≠ [] → same_shape image_list →
  shape3 (hd [] image_list) = (h, w, c) →
  stack_with_filler image_list =
    Ok (NdArray ((length image_list + nb_missing image_list)%nat, h, w, c)
          (image_list ++ repeat (filler (h, w, c)) (nb_missing image_list))).
Proof.
  intros Hne Hsame Hs. unfold stack_with_filler.
  generalize (nb_missing image_list) as m. intros m.
  destruct image_list as [|img rest]; [done|]. simpl first_image. rewrite bind_Ok.
  unfold asarray. unfold same_shape in Hsame. rewrite Hsame.
  simpl hd in *. rewrite Hs. rewrite bind_Ok.
  unfold vstack, full, filler, full3. cbn. rewrite !Nat.eqb_refl. reflexivity.
Qed.

Lemma constant_pad_h : sf_below (-9) (Prim2SF (PAD_INCHES / H_INCHES)).
Proof. right. vm_compute. eexists _, _. split; [reflexivity|]. split; [reflexivity|discriminate]. Qed.

Lemma constant_pad_w : sf_below (-8) (Prim2SF (PAD_INCHES / W_INCHES)).
Proof. right. vm_compute. eexists _, _. split; [reflexivity|]. split; [reflexivity|discriminate]. Qed.

Lemma constant_missing_h : sf_below (-2) (Prim2SF ((11 - H_INCHES * 3) / H_INCHES)).
Proof. right. vm_compute. eexists _, _. split; [reflexivity|]. split; [reflexivity|discriminate]. Qed.

Lemma constant_missing_w : sf_below (-1) (Prim2SF ((8.5 - W_INCHES * 3) / W_INCHES)).
Proof. right. vm_compute. eexists _, _. split; [reflexivity|]. split; [reflexivity|discriminate]. Qed.

(** [round(c * d)] for a pixel count [d] and a ratio [c] below [2^Kc]. *)
Lemma scaled_round_ok c Kc d K :
  sf_below Kc (Prim2SF c) → 0 <= d < 2 ^ K → 0 <= K <= 62 →
  -1074 <= Kc + K + 1 → 0 <= Kc + K + 2 <= 970 →
  ∃ f z, float_of_int d = Ok f ∧ py_round (c * f)%float = Ok z ∧
         0 <= z <= 2 ^ (Kc + K + 2).
Proof.
  intros Hc Hd HK H1 H2.
  destruct (float_of_int_below d K Hd HK) as (f & Hf & Hb).
  destruct (py_round_below (c * f)%float (Kc + (K + 1) + 1)) as (z & Hz & Hz0).
  - rewrite mul_spec. apply SFmul_below; [assumption|assumption|lia].
  - lia.
  - exists f, z. replace (Kc + K + 2) with (Kc + (K + 1) + 1) by lia. auto.
Qed.

(** [round(c * d / 2)] likewise. *)
Lemma halved_round_ok c Kc d K :
  sf_below Kc (Prim2SF c) → 0 <= d < 2 ^ K → 0 <= K <= 62 →
  -1074 <= Kc + K + 1 → 0 <= Kc + K + 2 <= 900 →
  ∃ f z, float_of_int d = Ok f ∧ py_round (c * f / 2)%float = Ok z ∧ 0 <= z.
Proof.
  intros Hc Hd HK H1 H2.
  destruct (float_of_int_below d K Hd HK) as (f & Hf & Hb).
  assert (Hm : sf_below (Kc + (K + 1) + 1) (Prim2SF (c * f)%float)).
  { rewrite mul_spec. apply SFmul_below; [assumption|assumption|lia]. }
  destruct (py_round_below (c * f / 2)%float (Kc + (K + 1) + 1 - (-51) + 1)) as (z & Hz & Hz0).
  - rewrite div_spec. change (Prim2SF 2) with (S754_finite false 4503599627370496 (-51)).
    apply SFdiv_below; [assumption|lia].
  - lia.
  - exists f, z. split; [assumption|]. split; [assumption|lia].
Qed.

(** Lines 112-114 succeed, with natural numbers of pixels. *)
Lemma card_padding_ok n h w c :
  decodable h → decodable w →
  ∃ ph pw : nat,
    card_pad_height h = Ok (Z.of_nat ph) ∧ card_pad_width w = Ok (Z.of_nat pw) ∧
    card_padding (n, h, w, c) =
      Ok [[0; 0]; [Z.of_nat ph; 0]; [Z.of_nat pw; 0]; [0; 0]] ∧
    Z.of_nat ph <= 2 ^ 24 ∧ Z.of_nat pw <= 2 ^ 25.
Proof.
  unfold decodable. intros Hh Hw.
  destruct (scaled_round_ok _ (-9) (Z.of_nat h) 31 constant_pad_h)
    as (fh & zh & Hfh & Hzh & Hbh); try lia.
  destruct (scaled_round_ok _ (-8) (Z.of_nat w) 31 constant_pad_w)
    as (fw & zw & Hfw & Hzw & Hbw); try lia.
  change (2 ^ (-9 + 31 + 2)) with (2 ^ 24) in Hbh.
  change (2 ^ (-8 + 31 + 2)) with (2 ^ 25) in Hbw.
  exists (Z.to_nat zh), (Z.to_nat zw). rewrite !Z2Nat.id by lia.
  unfold card_pad_height, card_pad_width, card_padding.
  repeat (rewrite ?Hfh, ?Hfw, ?Hzh, ?Hzw; rewrite bind_Ok).
  rewrite ?Hzh, ?Hzw.
  split; [reflexivity|]. split; [reflexivity|]. split; [reflexivity|]. lia.
Qed.

(** Lines 124-129 succeed, with natural numbers of pixels. *)
Lemma page_padding_ok n h w c :
  Z.of_nat h < 2 ^ 32 → Z.of_nat w < 2 ^ 32 →
  ∃ mh mw : nat,
    margin_height h = Ok (Z.of_nat mh) ∧ margin_width w = Ok (Z.of_nat mw) ∧
    page_padding (n, h, w, c) = Ok [[0]; [Z.of_nat mh]; [Z.of_nat mw]; [0]].
Proof.
  intros Hh Hw.
  destruct (halved_round_ok _ (-2) (Z.of_nat h) 32 constant_missing_h)
    as (fh & zh & Hfh & Hzh & Hbh); try lia.
  destruct (halved_round_ok _ (-1) (Z.of_nat w) 32 constant_missing_w)
    as (fw & zw & Hfw & Hzw & Hbw); try lia.
  exists (Z.to_nat zh), (Z.to_nat zw). rewrite !Z2Nat.id by lia.
  unfold margin_height, margin_width, page_padding.
  repeat (rewrite ?Hfh, ?Hfw, ?Hzh, ?Hzw; rewrite bind_Ok).
  rewrite ?Hzh, ?Hzw.
  split; [reflexivity|]. split; reflexivity.
Qed.

(** Lines 112-116: the padding between cards goes above and to the left of
    every cell. *)
Lemma pad_cells_ok n h w c (cells : list image) (ph pw : nat) :
  pad (NdArray (n, h, w, c) cells)
      [[0; 0]; [Z.of_nat ph; 0]; [Z.of_nat pw; 0]; [0; 0]] WHITE =
    Ok (NdArray (n, (ph + h)%nat, (pw + w)%nat, c) (map (pad_cell ph pw w c) cells)).
Proof.
  unfold pad. cbn [as_pair]. rewrite !bind_Ok. unfold check_width. cbn [fst snd].
  rewrite !(proj2 (Z.leb_le 0 _)) by lia. cbn [andb]. rewrite !bind_Ok.
  cbn [shape data fst snd]. rewrite !Nat2Z.id. change (Z.to_nat 0) with 0%nat.
  rewrite !Nat.add_0_r. cbn [Nat.add]. f_equal. f_equal.
  unfold pad_axis. cbn [repeat app]. rewrite app_nil_r.
  apply map_ext. intros img. unfold pad_cell, white_rows, white_row, white_pixel.
  rewrite app_nil_r. f_equal. apply map_ext. intros r.
  rewrite app_nil_r. f_equal. rewrite <- (map_id r) at 2.
  apply map_ext. intros p. apply app_nil_r.
Qed.

(** Lines 127-131: the page margins go on both sides of each axis. *)
Lemma add_margins_ok n h w c (pages : list image) (mh mw : nat) :
  pad (NdArray (n, h, w, c) pages)
      [[0]; [Z.of_nat mh]; [Z.of_nat mw]; [0]] WHITE =
    Ok (NdArray (n, (mh + h + mh)%nat, (mw + w + mw)%nat, c)
          (map (add_margins mh mw w c) pages)).
Proof.
  unfold pad. cbn [as_pair]. rewrite !bind_Ok. unfold check_width. cbn [fst snd].
  rewrite !(proj2 (Z.leb_le 0 _)) by lia. cbn [andb]. rewrite !bind_Ok.
  cbn [shape data fst snd]. rewrite !Nat2Z.id. change (Z.to_nat 0) with 0%nat.
  rewrite !Nat.add_0_r. cbn [Nat.add]. f_equal. f_equal.
  unfold pad_axis. cbn [repeat app]. rewrite app_nil_r.
  apply map_ext. intros img. unfold add_margins, white_rows, white_row, white_pixel.
  f_equal. f_equal. apply map_ext. intros r.
  f_equal. f_equal. rewrite <- (map_id r) at 2.
  apply map_ext. intros p. apply app_nil_r.
Qed.

(** Lines 119-122. *)
Lemma rearrange_ok n h w c (cells : list image) :
  (n mod CARDS_PER_PAGE = 0)%nat →
  rearrange (NdArray (n, h, w, c) cells) ROWS_PER_PAGE COLS_PER_PAGE =
    Ok (NdArray ((n / CARDS_PER_PAGE)%nat, (ROWS_PER_PAGE * h)%nat,
                 (COLS_PER_PAGE * w)%nat, c)
          (map (grid h) (chunks CARDS_PER_PAGE cells))).
Proof.
  intros Hn. unfold rearrange. cbn [shape data].
  change (ROWS_PER_PAGE * COLS_PER_PAGE)%nat with CARDS_PER_PAGE.
  rewrite Hn. reflexivity.
Qed.

(** The stacked sequence fills whole pages: one more than [N / 9]. *)
Lemma padded_length n :
  let m := (CARDS_PER_PAGE - n mod CARDS_PER_PAGE)%nat in
  ((n + m) mod CARDS_PER_PAGE = 0 ∧ (n + m) / CARDS_PER_PAGE = n / CARDS_PER_PAGE + 1)%nat.
Proof.
  change CARDS_PER_PAGE with 9%nat. cbv zeta.
  pose proof (Nat.div_mod_eq n 9) as Hn.
  pose proof (Nat.mod_upper_bound n 9 ltac:(lia)) as Hr.
  assert (He : (n + (9 - n mod 9) = (n / 9 + 1) * 9)%nat) by lia.
  rewrite He. split; [apply Nat.Div0.mod_mul|apply Nat.div_mul; lia].
Qed.

(** Lines 105-116 on a nonempty list of images of one decodable shape. *)
Lemma pad_cards_ok image_list h w c :
  image_list ≠ [] → same_shape image_list →
  shape3 (hd [] image_list) = (h, w, c) → decodable h → decodable w →
  ∃ ph pw : nat,
    card_pad_height h = Ok (Z.of_nat ph) ∧ card_pad_width w = Ok (Z.of_nat pw) ∧
    Z.of_nat ph <= 2 ^ 24 ∧ Z.of_nat pw <= 2 ^ 25 ∧
    pad_cards image_list =
      Ok (NdArray ((length image_list + nb_missing image_list)%nat,
                   (ph + h)%nat, (pw + w)%nat, c)
            (map (pad_cell ph pw w c)
               (image_list ++ repeat (filler (h, w, c)) (nb_missing image_list)))).
Proof.
  intros Hne Hsame Hs Hh Hw.
  destruct (card_padding_ok (length image_list + nb_missing image_list) h w c Hh Hw)
    as (ph & pw & Hph & Hpw & Hcard & Hbh & Hbw).
  exists ph, pw. repeat (split; [assumption|]).
  unfold pad_cards.
  rewrite (stack_with_filler_ok image_list h w c Hne Hsame Hs), bind_Ok.
  cbn [shape]. now rewrite Hcard, bind_Ok, pad_cells_ok.
Qed.

(** The whole of [tile_in_pages] on a nonempty list of images of one
    decodable shape: it returns, and this is what it returns. *)
Lemma tile_in_pages_layout image_list h w c :
  image_list ≠ [] → same_shape image_list →
  shape3 (hd [] image_list) = (h, w, c) → decodable h → decodable w →
  ∃ ph pw mh mw : nat,
    card_pad_height h = Ok (Z.of_nat ph) ∧ card_pad_width w = Ok (Z.of_nat pw) ∧
    margin_height (ph + h) = Ok (Z.of_nat mh) ∧
    margin_width (pw + w) = Ok (Z.of_nat mw) ∧
    tile_in_pages image_list =
      Ok (NdArray ((length image_list / CARDS_PER_PAGE + 1)%nat,
                   (mh + ROWS_PER_PAGE * (ph + h) + mh)%nat,
                   (mw + COLS_PER_PAGE * (pw + w) + mw)%nat, c)
            (map (fun cells => add_margins mh mw (COLS_PER_PAGE * (pw + w)) c
                                 (grid (ph + h) cells))
                 (chunks CARDS_PER_PAGE
                    (map (pad_cell ph pw w c)
                       (image_list ++ repeat (filler (h, w, c)) (nb_missing image_list)))))).
Proof.
  intros Hne Hsame Hs Hh Hw.
  destruct (pad_cards_ok image_list h w c Hne Hsame Hs Hh Hw)
    as (ph & pw & Hph & Hpw & Hbh & Hbw & Hcards).
  unfold decodable in *.
  destruct (page_padding_ok (length image_list + nb_missing image_list)
              (ph + h) (pw + w) c) as (mh & mw & Hmh & Hmw & Hpage); [lia|lia|].
  exists ph, pw, mh, mw. repeat (split; [assumption|]).
  unfold tile_in_pages. rewrite Hcards, bind_Ok.
  destruct (padded_length (length image_list)) as [Hmod Hdiv].
  fold (nb_missing image_list) in Hmod, Hdiv.
  rewrite rearrange_ok by exact Hmod. rewrite bind_Ok.
  cbn [shape]. rewrite Hpage, bind_Ok, add_margins_ok, Hdiv.
  rewrite map_map. reflexivity.
Qed.

End LayoutFacts.

(** ** Cutting a page back into its cells *)

Module UntileFacts.
Import Np Layout Geometry.

Lemma chunks_aux_length {A} n k (l : list A) : length (chunks_aux n k l) = n.
Proof. revert l. induction n as [|n IH]; intros l; simpl; [reflexivity|]. now rewrite IH. Qed.

Lemma chunks_aux_concat {A} n k (l : list A) :
  concat (chunks_aux n k l) = firstn (n * k) l.
Proof.
  revert l. induction n as [|n IH]; intros l; simpl; [reflexivity|].
  rewrite IH. rewrite <- (firstn_skipn k l) at 3.
  destruct (Nat.le_gt_cases k (length l)) as [Hk|Hk].
  - rewrite firstn_app, length_firstn, Nat.min_l by assumption.
    rewrite (firstn_all2 (n := k + n * k)) by (rewrite length_firstn; lia).
    f_equal. f_equal. lia.
  - rewrite (skipn_all2 (n := k)) by lia. rewrite firstn_nil, !app_nil_r.
    rewrite !firstn_all2; try reflexivity; rewrite ?length_firstn; lia.
Qed.

Lemma chunks_aux_each {A} n k (l : list A) :
  (n * k <= length l)%nat → Forall (fun ch => length ch = k) (chunks_aux n k l).
Proof.
  revert l. induction n as [|n IH]; intros l Hl; simpl; constructor.
  - rewrite length_firstn. lia.
  - apply IH. rewrite length_skipn. lia.
Qed.

Lemma chunks_aux_of_concat {A} k (bands : list (list A)) :
  Forall (fun b => length b = k) bands →
  chunks_aux (length bands) k (concat bands) = bands.
Proof.
  induction 1 as [|b bands Hb _ IH]; simpl; [reflexivity|].
  rewrite firstn_app, Hb, Nat.sub_diag, firstn_O, app_nil_r.
  rewrite (firstn_all2 (n := k)) by lia.
  rewrite skipn_app, Hb, Nat.sub_diag, (skipn_all2 (n := k)) by lia.
  simpl. now rewrite skipn_O, IH.
Qed.

(** Whole pages: the blocks of a list of [p * k] elements. *)
Lemma chunks_whole {A} k p (l : list A) :
  (0 < k)%nat → length l = (p * k)%nat →
  length (chunks k l) = p ∧ Forall (fun ch => length ch = k) (chunks k l) ∧
  concat (chunks k l) = l.
Proof.
  intros Hk Hl. unfold chunks. rewrite Hl, Nat.div_mul by lia.
  split; [apply chunks_aux_length|]. split.
  - apply chunks_aux_each. lia.
  - rewrite chunks_aux_concat. apply firstn_all2. lia.
Qed.

Lemma chunks_aux_lookup {A} n k (l : list A) i :
  (i < n)%nat → chunks_aux n k l !! i = Some (firstn k (skipn (i * k) l)).
Proof.
  revert l i. induction n as [|n IH]; intros l i Hi; [lia|].
  destruct i as [|i]; simpl; [reflexivity|].
  rewrite IH by lia. now rewrite skipn_skipn, (Nat.add_comm (i * k)).
Qed.

Lemma hstack_cons h img imgs : hstack h (img :: imgs) = zip_with app img (hstack h imgs).
Proof. reflexivity. Qed.

Lemma hstack_length h imgs :
  Forall (fun img : image => length img = h) imgs → length (hstack h imgs) = h.
Proof.
  induction 1 as [|img imgs Hi _ IH]; [apply repeat_length|].
  rewrite hstack_cons, length_zip_with, IH, Hi. apply Nat.min_id.
Qed.

Lemma map_firstn_zip_app w (a b : list row) :
  length a = length b → Forall (fun r : row => length r = w) a →
  map (firstn w) (zip_with app a b) = a.
Proof.
  intros Hl Ha. revert b Hl. induction Ha as [|r a Hr _ IH]; intros [|r' b] Hl;
    try discriminate; simpl; [reflexivity|].
  rewrite firstn_app, Hr, Nat.sub_diag, firstn_O, app_nil_r.
  rewrite (firstn_all2 (n := w)) by lia. f_equal. apply IH. simpl in Hl. lia.
Qed.

Lemma map_skipn_zip_app w (a b : list row) :
  length a = length b → Forall (fun r : row => length r = w) a →
  map (skipn w) (zip_with app a b) = b.
Proof.
  intros Hl Ha. revert b Hl. induction Ha as [|r a Hr _ IH]; intros [|r' b] Hl;
    try discriminate; simpl; [reflexivity|].
  rewrite skipn_app, Hr, Nat.sub_diag, (skipn_all2 (n := w)), skipn_O by lia.
  simpl. f_equal. apply IH. simpl in Hl. lia.
Qed.

(** Images side by side come apart again. *)
Lemma split_columns_hstack h w imgs :
  Forall (raster h w) imgs → split_columns (length imgs) w (hstack h imgs) = imgs.
Proof.
  induction 1 as [|img imgs [Hh Hw] Himgs IH]; [reflexivity|].
  assert (Hl : length img = length (hstack h imgs)).
  { rewrite hstack_length; [assumption|].
    eapply Forall_impl; [exact Himgs|]. now intros ? [? _]. }
  rewrite hstack_cons. cbn [length split_columns].
  rewrite map_firstn_zip_app, map_skipn_zip_app by assumption.
  now rewrite IH.
Qed.

Lemma firstn_exact {A} n (a b : list A) : length a = n → firstn n (a ++ b) = a.
Proof.
  intros <-. rewrite firstn_app, Nat.sub_diag, firstn_O, app_nil_r.
  now apply firstn_all2.
Qed.

Lemma skipn_exact {A} n (a b : list A) : length a = n → skipn n (a ++ b) = b.
Proof.
  intros <-. rewrite skipn_app, Nat.sub_diag, skipn_O.
  now rewrite skipn_all2.
Qed.

(** A grid of nine cells comes apart into the nine cells. *)
Lemma split_cells_grid h w cells :
  length cells = CARDS_PER_PAGE → Forall (raster h w) cells →
  split_cells h w (grid h cells) = cells.
Proof.
  intros Hl Hc. unfold split_cells, grid.
  destruct (chunks_whole COLS_PER_PAGE ROWS_PER_PAGE cells ltac:(compute; lia) Hl)
    as (Hn & Hk & Hcat).
  set (chs := chunks COLS_PER_PAGE cells) in *.
  assert (Hall : Forall (Forall (raster h w)) chs).
  { apply List.Forall_forall. intros ch Hin. apply List.Forall_forall. intros img Himg.
    rewrite List.Forall_forall in Hc. apply Hc. rewrite <- Hcat.
    apply in_concat. eauto. }
  replace ROWS_PER_PAGE with (length (map (hstack h) chs)) at 1
    by (now rewrite length_map).
  rewrite chunks_aux_of_concat.
  - rewrite map_map. transitivity (concat chs); [|exact Hcat]. f_equal.
    rewrite <- (map_id chs) at 2. apply map_ext_in. intros ch Hin.
    rewrite List.Forall_forall in Hk, Hall.
    rewrite <- (Hk ch) by assumption.
    apply split_columns_hstack. now apply Hall.
  - apply List.Forall_forall. intros band Hin. apply in_map_iff in Hin.
    destruct Hin as (ch & <- & Hin). apply hstack_length.
    rewrite List.Forall_forall in Hall. eapply Forall_impl; [apply Hall, Hin|].
    now intros ? [? _].
Qed.

Lemma crop_add_margins mh mw h w c g :
  raster h w g → crop mh mw h w (add_margins mh mw w c g) = g.
Proof.
  intros [Hh Hw]. unfold crop, add_margins, white_rows.
  rewrite skipn_exact by apply repeat_length.
  rewrite firstn_exact by (now rewrite length_map).
  rewrite map_map. rewrite <- (map_id g) at 2.
  apply map_ext_in. intros r Hr. rewrite List.Forall_forall in Hw.
  unfold white_row. rewrite skipn_exact by apply repeat_length.
  apply firstn_exact. now apply Hw.
Qed.

(** A padded cell without its padding is the image. *)
Lemma unpad_pad_cell ph pw h w c img :
  raster h w img → unpad_cell ph pw h w (pad_cell ph pw w c img) = img.
Proof.
  intros [Hh Hw]. unfold unpad_cell, crop, pad_cell, white_rows.
  rewrite skipn_exact by apply repeat_length.
  rewrite firstn_all2 by (rewrite length_map; lia).
  rewrite map_map. rewrite <- (map_id img) at 2.
  apply map_ext_in. intros r Hr. rewrite List.Forall_forall in Hw.
  unfold white_row. rewrite skipn_exact by apply repeat_length.
  apply firstn_all2. rewrite (Hw r Hr). lia.
Qed.

Lemma pad_cell_raster ph pw h w c img :
  raster h w img → raster (ph + h) (pw + w) (pad_cell ph pw w c img).
Proof.
  intros [Hh Hw]. unfold pad_cell, white_rows, white_row. split.
  - now rewrite length_app, repeat_length, length_map, Hh.
  - apply Forall_app. split.
    + apply List.Forall_forall. intros r Hr. apply repeat_spec in Hr. subst r.
      apply repeat_length.
    + apply List.Forall_forall. intros r Hr. apply in_map_iff in Hr.
      destruct Hr as (r0 & <- & Hr0). rewrite List.Forall_forall in Hw.
      now rewrite length_app, repeat_length, (Hw r0 Hr0).
Qed.

Lemma has_shape_raster h w c img : has_shape (h, w, c) img = true → raster h w img.
Proof.
  unfold has_shape. intros H. apply andb_true_iff in H. destruct H as [Hl Hr].
  apply Nat.eqb_eq in Hl. split; [assumption|].
  apply List.Forall_forall. intros r Hin. rewrite forallb_forall in Hr.
  specialize (Hr r Hin). apply andb_true_iff in Hr. now apply Nat.eqb_eq, Hr.
Qed.

Lemma filler_raster h w c : raster h w (filler (h, w, c)).
Proof.
  unfold filler, full3. split; [apply repeat_length|].
  apply List.Forall_forall. intros r Hr. apply repeat_spec in Hr. subst r. apply repeat_length.
Qed.

Lemma zip_app_widths (a b : list row) wa wb :
  Forall (fun r : row => length r = wa) a → Forall (fun r : row => length r = wb) b →
  Forall (fun r : row => length r = (wa + wb)%nat) (zip_with app a b).
Proof.
  intros Ha. revert b. induction Ha as [|r a Hr _ IH]; intros b Hb; [constructor|].
  destruct Hb as [|r' b Hr' Hb]; simpl; constructor.
  - rewrite length_app. lia.
  - now apply IH.
Qed.

Lemma hstack_raster h w imgs :
  Forall (raster h w) imgs → raster h (length imgs * w) (hstack h imgs).
Proof.
  intros Himgs. split.
  - apply hstack_length. eapply Forall_impl; [exact Himgs|]. now intros ? [? _].
  - induction Himgs as [|img imgs [_ Hw] _ IH].
    + apply List.Forall_forall. intros r Hr. apply repeat_spec in Hr. now subst r.
    + rewrite hstack_cons. simpl length. simpl Nat.mul. now apply zip_app_widths.
Qed.

Lemma concat_length_uniform {A} k (bands : list (list A)) :
  Forall (fun b => length b = k) bands → length (concat bands) = (length bands * k)%nat.
Proof.
  induction 1 as [|b bands Hb _ IH]; [reflexivity|].
  simpl. rewrite length_app, IH, Hb. lia.
Qed.

Lemma grid_raster h w cells :
  length cells = CARDS_PER_PAGE → Forall (raster h w) cells →
  raster (ROWS_PER_PAGE * h) (COLS_PER_PAGE * w) (grid h cells).
Proof.
  intros Hl Hc. unfold grid.
  destruct (chunks_whole COLS_PER_PAGE ROWS_PER_PAGE cells ltac:(compute; lia) Hl)
    as (Hn & Hk & Hcat).
  set (chs := chunks COLS_PER_PAGE cells) in *.
  assert (Hbands : Forall (raster h (COLS_PER_PAGE * w)) (map (hstack h) chs)).
  { apply List.Forall_forall. intros band Hin. apply in_map_iff in Hin.
    destruct Hin as (ch & <- & Hin).
    rewrite List.Forall_forall in Hk. rewrite <- (Hk ch Hin).
    apply hstack_raster. apply List.Forall_forall. intros img Himg.
    rewrite List.Forall_forall in Hc. apply Hc. rewrite <- Hcat.
    apply in_concat. eauto. }
  split.
  - rewrite (concat_length_uniform h).
    + now rewrite length_map, Hn.
    + eapply Forall_impl; [exact Hbands|]. now intros ? [? _].
  - apply List.Forall_forall. intros r Hr. apply in_concat in Hr.
    destruct Hr as (band & Hband & Hr).
    rewrite List.Forall_forall in Hbands. destruct (Hbands band Hband) as [_ Hw].
    rewrite List.Forall_forall in Hw. now apply Hw.
Qed.

(** A page comes apart into the nine cells it was made of. *)
Lemma untile_page_tile mh mw h w c cells :
  length cells = CARDS_PER_PAGE → Forall (raster h w) cells →
  untile_page mh mw h w (add_margins mh mw (COLS_PER_PAGE * w) c (grid h cells)) = cells.
Proof.
  intros Hl Hc. unfold untile_page.
  rewrite crop_add_margins by (now apply grid_raster).
  now apply split_cells_grid.
Qed.

(** Pages made of whole blocks of cells come apart into the cells. *)
Lemma untile_tile mh mw h w c cells p :
  length cells = (p * CARDS_PER_PAGE)%nat → Forall (raster h w) cells →
  untile mh mw h w
    (map (fun page_cells => add_margins mh mw (COLS_PER_PAGE * w) c (grid h page_cells))
         (chunks CARDS_PER_PAGE cells)) = cells.
Proof.
  intros Hl Hc. unfold untile.
  destruct (chunks_whole CARDS_PER_PAGE p cells ltac:(compute; lia) Hl) as (Hn & Hk & Hcat).
  rewrite map_map. rewrite <- Hcat at 2. f_equal.
  rewrite <- (map_id (chunks CARDS_PER_PAGE cells)) at 2.
  apply map_ext_in. intros ch Hin. rewrite List.Forall_forall in Hk.
  apply untile_page_tile; [now apply Hk|].
  apply List.Forall_forall. intros img Himg.
  rewrite List.Forall_forall in Hc. apply Hc. rewrite <- Hcat.
  apply in_concat. eauto.
Qed.

Lemma same_shape_raster image_list h w c :
  forallb (has_shape (h, w, c)) image_list = true → Forall (raster h w) image_list.
Proof.
  intros H. apply List.Forall_forall. intros img Hin.
  rewrite forallb_forall in H. eapply has_shape_raster. now apply H.
Qed.

End UntileFacts.

(** ** The page layout engine: what the specification says of it *)

Module LayoutClaims.
Import Np PyFloat Layout Geometry FloatFacts LayoutFacts UntileFacts.

(** Evaluate the left-hand side of an equation. *)
Ltac eval_lhs H :=
  match type of H with
  | ?l = _ => let v := eval vm_compute in l in change l with v in H
  end.

Lemma ceil_pages n :
  (n / 9 + 1 = (n + 8) / 9 + (if n mod 9 =? 0 then 1 else 0))%nat.
Proof.
  pose proof (Nat.div_mod_eq n 9) as Hn.
  pose proof (Nat.mod_upper_bound n 9 ltac:(lia)) as Hr.
  destruct (Nat.eqb_spec (n mod 9) 0) as [H0|H0].
  - rewrite (Nat.div_unique (n + 8) 9 (n / 9) 8); lia.
  - rewrite (Nat.div_unique (n + 8) 9 (n / 9 + 1) (n mod 9 - 1)); lia.
Qed.

(** C1. For [N >= 1] images of one shape the layout engine returns
    [N / 9 + 1] pages, that is [ceil(N / 9)] pages and one more exactly
    when [N mod 9 = 0]; every page is the grid of exactly 9 cells, the
    cells of all pages in order are the padded images followed by the
    padded fillers, and the last page holds the last [N mod 9] images
    followed by [9 - N mod 9] fillers (nothing but fillers when
    [N mod 9 = 0]). *)
Theorem tile_in_pages_page_count image_list h w c :
  image_list ≠ [] → same_shape image_list →
  shape3 (hd [] image_list) = (h, w, c) → decodable h → decodable w →
  let N := length image_list in
  ∃ (pages : ndarray) (cells : list (list image)) (ph pw mh mw : nat),
    tile_in_pages image_list = Ok pages ∧
    length (data pages) = (N / 9 + 1)%nat ∧
    fst (fst (fst (shape pages))) = (N / 9 + 1)%nat ∧
    (N / 9 + 1 = (N + 8) / 9 + (if N mod 9 =? 0 then 1 else 0))%nat ∧
    data pages =
      map (fun page_cells =>
             add_margins mh mw (COLS_PER_PAGE * (pw + w)) c (grid (ph + h) page_cells))
          cells ∧
    Forall (fun page_cells => length page_cells = 9%nat) cells ∧
    concat cells =
      map (pad_cell ph pw w c)
          (image_list ++ repeat (filler (h, w, c)) (9 - N mod 9)) ∧
    cells !! (N / 9)%nat =
      Some (map (pad_cell ph pw w c)
              (skipn (9 * (N / 9)) image_list ++ repeat (filler (h, w, c)) (9 - N mod 9))) ∧
    length (skipn (9 * (N / 9)) image_list) = (N mod 9)%nat.
Proof.
  intros Hne Hsame Hs Hh Hw N.
  destruct (tile_in_pages_layout image_list h w c Hne Hsame Hs Hh Hw)
    as (ph & pw & mh & mw & _ & _ & _ & _ & Htile).
  set (stacked := image_list ++ repeat (filler (h, w, c)) (nb_missing image_list)) in *.
  set (padded := map (pad_cell ph pw w c) stacked) in *.
  pose proof (Nat.div_mod_eq N 9) as HN.
  pose proof (Nat.mod_upper_bound N 9 ltac:(lia)) as Hr.
  assert (Hlen : length padded = ((N / 9 + 1) * 9)%nat).
  { subst padded stacked. rewrite length_map, length_app, repeat_length.
    unfold nb_missing. change CARDS_PER_PAGE with 9%nat. fold N. lia. }
  destruct (chunks_whole 9 (N / 9 + 1) padded ltac:(lia) Hlen) as (Hcl & Hce & Hcc).
  exists (NdArray ((N / 9 + 1)%nat, (mh + ROWS_PER_PAGE * (ph + h) + mh)%nat,
                   (mw + COLS_PER_PAGE * (pw + w) + mw)%nat, c)
            (map (fun cells => add_margins mh mw (COLS_PER_PAGE * (pw + w)) c
                                 (grid (ph + h) cells)) (chunks 9 padded))),
    (chunks 9 padded), ph, pw, mh, mw.
  split; [exact Htile|]. cbn [data shape fst].
  split; [now rewrite length_map|]. split; [reflexivity|].
  split; [apply ceil_pages|]. split; [reflexivity|]. split; [exact Hce|].
  split; [exact Hcc|].
  assert (Hskip : length (skipn (9 * (N / 9)) image_list) = (N mod 9)%nat).
  { rewrite length_skipn. fold N. lia. }
  split; [|exact Hskip].
  unfold chunks. rewrite Hlen, Nat.div_mul by lia.
  rewrite chunks_aux_lookup by lia. f_equal.
  subst padded stacked. rewrite skipn_map, firstn_map. f_equal.
  rewrite skipn_app. fold N.
  replace (N / 9 * 9 - N)%nat with 0%nat by lia.
  rewrite skipn_O, (Nat.mul_comm (N / 9) 9).
  unfold nb_missing. change CARDS_PER_PAGE with 9%nat. fold N.
  apply firstn_all2.
  rewrite length_app, Hskip, repeat_length. lia.
Qed.

(** C8. The layout is a lossless tiling: cutting the pages back into cells
    at the known geometry gives the padded images, in their order,
    followed by the padded fillers; taking the padding off the first [N]
    of them gives the images back. *)
Theorem tile_untile_roundtrip image_list h w c :
  image_list ≠ [] → same_shape image_list →
  shape3 (hd [] image_list) = (h, w, c) → decodable h → decodable w →
  let N := length image_list in
  ∃ (pages : ndarray) (ph pw mh mw : nat),
    tile_in_pages image_list = Ok pages ∧
    card_pad_height h = Ok (Z.of_nat ph) ∧ card_pad_width w = Ok (Z.of_nat pw) ∧
    margin_height (ph + h) = Ok (Z.of_nat mh) ∧
    margin_width (pw + w) = Ok (Z.of_nat mw) ∧
    untile mh mw (ph + h) (pw + w) (data pages) =
      map (pad_cell ph pw w c) (image_list ++ repeat (filler (h, w, c)) (9 - N mod 9)) ∧
    map (unpad_cell ph pw h w) (firstn N (untile mh mw (ph + h) (pw + w) (data pages))) =
      image_list.
Proof.
  intros Hne Hsame Hs Hh Hw N.
  destruct (tile_in_pages_layout image_list h w c Hne Hsame Hs Hh Hw)
    as (ph & pw & mh & mw & Hph & Hpw & Hmh & Hmw & Htile).
  eexists _, ph, pw, mh, mw. split; [exact Htile|].
  repeat (split; [assumption|]). cbn [data].
  unfold same_shape in Hsame. rewrite Hs in Hsame.
  pose proof (same_shape_raster _ _ _ _ Hsame) as Hrast.
  pose proof (Nat.div_mod_eq N 9) as HN.
  pose proof (Nat.mod_upper_bound N 9 ltac:(lia)) as Hr.
  assert (Hun : untile mh mw (ph + h) (pw + w)
            (map (fun cells => add_margins mh mw (COLS_PER_PAGE * (pw + w)) c
                                 (grid (ph + h) cells))
               (chunks CARDS_PER_PAGE
                  (map (pad_cell ph pw w c)
                     (image_list ++ repeat (filler (h, w, c)) (nb_missing image_list)))))
          = map (pad_cell ph pw w c)
              (image_list ++ repeat (filler (h, w, c)) (nb_missing image_list))).
  { apply (untile_tile mh mw (ph + h) (pw + w) c _ (N / 9 + 1)).
    - rewrite length_map, length_app, repeat_length.
      unfold nb_missing. change CARDS_PER_PAGE with 9%nat. fold N. lia.
    - apply List.Forall_forall. intros cell Hin. apply in_map_iff in Hin.
      destruct Hin as (img & <- & Hin). apply pad_cell_raster.
      apply in_app_iff in Hin. destruct Hin as [Hin|Hin].
      + rewrite List.Forall_forall in Hrast. now apply Hrast.
      + apply repeat_spec in Hin. subst img. apply filler_raster. }
  rewrite Hun. split; [reflexivity|].
  rewrite firstn_map, firstn_exact by reflexivity.
  rewrite map_map. rewrite <- (map_id image_list) at 2.
  apply map_ext_in. intros img Hin. apply unpad_pad_cell.
  rewrite List.Forall_forall in Hrast. now apply Hrast.
Qed.

Lemma tile_untile_roundtrip_witness :
  ∃ (pages : ndarray) (ph pw mh mw : nat),
    tile_in_pages [Samples.img_a; Samples.img_b] = Ok pages ∧
    card_pad_height 2 = Ok (Z.of_nat ph) ∧ card_pad_width 2 = Ok (Z.of_nat pw) ∧
    margin_height (ph + 2) = Ok (Z.of_nat mh) ∧
    margin_width (pw + 2) = Ok (Z.of_nat mw) ∧
    untile mh mw (ph + 2) (pw + 2) (data pages) =
      map (pad_cell ph pw 2 1)
          ([Samples.img_a; Samples.img_b] ++ repeat (filler (2, 2, 1)%nat) (9 - 2 mod 9)) ∧
    map (unpad_cell ph pw 2 2) (firstn 2 (untile mh mw (ph + 2) (pw + 2) (data pages))) =
      [Samples.img_a; Samples.img_b].
Proof.
  apply (tile_untile_roundtrip [Samples.img_a; Samples.img_b] 2 2 1);
    [discriminate | reflexivity | reflexivity | reflexivity | reflexivity].
Defined.

Lemma tile_in_pages_page_count_witness :
  ∃ (pages : ndarray) (cells : list (list image)) (ph pw mh mw : nat),
    tile_in_pages [Samples.img_a; Samples.img_b] = Ok pages ∧
    length (data pages) = (2 / 9 + 1)%nat ∧
    fst (fst (fst (shape pages))) = (2 / 9 + 1)%nat ∧
    (2 / 9 + 1 = (2 + 8) / 9 + (if 2 mod 9 =? 0 then 1 else 0))%nat ∧
    data pages =
      map (fun page_cells =>
             add_margins mh mw (COLS_PER_PAGE * (pw + 2)) 1 (grid (ph + 2) page_cells))
          cells ∧
    Forall (fun page_cells => length page_cells = 9%nat) cells ∧
    concat cells =
      map (pad_cell ph pw 2 1)
          ([Samples.img_a; Samples.img_b] ++ repeat (filler (2, 2, 1)%nat) (9 - 2 mod 9)) ∧
    cells !! (2 / 9)%nat =
      Some (map (pad_cell ph pw 2 1)
              (skipn (9 * (2 / 9)) [Samples.img_a; Samples.img_b]
                 ++ repeat (filler (2, 2, 1)%nat) (9 - 2 mod 9))) ∧
    length (skipn (9 * (2 / 9)) [Samples.img_a; Samples.img_b]) = (2 mod 9)%nat.
Proof.
  apply (tile_in_pages_page_count [Samples.img_a; Samples.img_b] 2 2 1);
    [discriminate | reflexivity | reflexivity | reflexivity | reflexivity].
Defined.

(** C10. The layout operation is total exactly on nonempty inputs: on
    images of one shape it returns if and only if there is at least one
    image; on the empty list reading the first element raises
    [IndexError], which no nonempty input can raise. *)
Theorem tile_in_pages_total_on_nonempty image_list h w c :
  same_shape image_list →
  shape3 (hd [] image_list) = (h, w, c) → decodable h → decodable w →
  (is_ok (tile_in_pages image_list) = true ↔ image_list ≠ []) ∧
  (image_list = [] →
     first_image image_list = Raise IndexError ∧
     tile_in_pages image_list = Raise IndexError) ∧
  (image_list ≠ [] → tile_in_pages image_list ≠ Raise IndexError).
Proof.
  intros Hsame Hs Hh Hw.
  assert (Hok : image_list ≠ [] → is_ok (tile_in_pages image_list) = true).
  { intros Hne.
    destruct (tile_in_pages_layout image_list h w c Hne Hsame Hs Hh Hw)
      as (ph & pw & mh & mw & _ & _ & _ & _ & Htile).
    now rewrite Htile. }
  split; [split|split].
  - intros H ->. discriminate H.
  - exact Hok.
  - intros ->. split; reflexivity.
  - intros Hne Hraise. specialize (Hok Hne). rewrite Hraise in Hok. discriminate Hok.
Qed.

Lemma tile_in_pages_total_on_nonempty_witness :
  (is_ok (tile_in_pages [Samples.img_a]) = true ↔ [Samples.img_a] ≠ []) ∧
  ([Samples.img_a] = [] →
     first_image [Samples.img_a] = Raise IndexError ∧
     tile_in_pages [Samples.img_a] = Raise IndexError) ∧
  ([Samples.img_a] ≠ [] → tile_in_pages [Samples.img_a] ≠ Raise IndexError).
Proof.
  apply (tile_in_pages_total_on_nonempty [Samples.img_a] 2 2 1);
    [reflexivity | reflexivity | reflexivity | reflexivity].
Defined.

(** C2 as the specification states it fails: a black image 400 pixels high
    gets one white row above it and none below. *)
Lemma card_padding_not_symmetric :
  ¬ cards_padded_with pad_cell_symmetric [Samples.img_tall].
Proof.
  intros (h & w & c & ph & pw & canvas & Hs & Hph & Hpw & Hcards & Hdata).
  eval_lhs Hs. injection Hs as <- <- <-.
  eval_lhs Hph. injection Hph as Hph.
  eval_lhs Hpw. injection Hpw as Hpw.
  assert (ph = 1%nat) by lia. assert (pw = 0%nat) by lia. subst ph pw.
  eval_lhs Hcards. injection Hcards as <-.
  apply (f_equal (map (@length _))) in Hdata.
  vm_compute in Hdata. discriminate Hdata.
Qed.

(** C2, amended. The padding between cards is
    [round(0.005 / 3.48 * h)] white rows and [round(0.005 / 2.49 * w)]
    white columns for cells of [h x w] pixels, and it goes on the leading
    side of each axis only: above every cell and to its left. *)
Theorem card_padding_leading_side image_list h w c :
  image_list ≠ [] → same_shape image_list →
  shape3 (hd [] image_list) = (h, w, c) → decodable h → decodable w →
  cards_padded_with pad_cell image_list.
Proof.
  intros Hne Hsame Hs Hh Hw.
  destruct (pad_cards_ok image_list h w c Hne Hsame Hs Hh Hw)
    as (ph & pw & Hph & Hpw & _ & _ & Hcards).
  exists h, w, c, ph, pw. eexists. repeat (split; [eassumption|]). reflexivity.
Qed.

Lemma card_padding_leading_side_witness :
  cards_padded_with pad_cell [Samples.img_tall].
Proof.
  apply (card_padding_leading_side [Samples.img_tall] 400 1 1);
    [discriminate | reflexivity | reflexivity | reflexivity | reflexivity].
Defined.

(** C3 as the specification states it fails: for a cell 401 pixels high the
    margin is 32 rows, computed from the cell, and not the 97 rows the
    height of the grid would give. *)
Lemma margins_not_from_grid :
  ¬ pages_margined_from grid_size [Samples.img_tall].
Proof.
  intros (h & w & c & ph & pw & mh & mw & pages & Hs & Hph & Hpw & Hmh & Hmw & Htile & Hdata).
  eval_lhs Hs. injection Hs as <- <- <-.
  eval_lhs Hph. injection Hph as Hph.
  eval_lhs Hpw. injection Hpw as Hpw.
  assert (ph = 1%nat) by lia. assert (pw = 0%nat) by lia. subst ph pw.
  eval_lhs Hmh. injection Hmh as Hmh.
  eval_lhs Hmw. injection Hmw as Hmw.
  assert (mh = 97%nat) by lia. assert (mw = 1%nat) by lia. subst mh mw.
  eval_lhs Htile. injection Htile as <-.
  apply (f_equal (map (@length _))) in Hdata.
  vm_compute in Hdata. discriminate Hdata.
Qed.

(** C3, amended. The page margins are computed from the pixel size of one
    padded cell, [missing_height = (11 - 3.48 * 3) / 3.48 * cell_height]
    and [missing_width = (8.5 - 2.49 * 3) / 2.49 * cell_width]; half of
    each, rounded, is added as white rows above and below the grid and as
    white columns on its left and right. *)
Theorem margins_from_cell image_list h w c :
  image_list ≠ [] → same_shape image_list →
  shape3 (hd [] image_list) = (h, w, c) → decodable h → decodable w →
  pages_margined_from cell_size image_list.
Proof.
  intros Hne Hsame Hs Hh Hw.
  destruct (tile_in_pages_layout image_list h w c Hne Hsame Hs Hh Hw)
    as (ph & pw & mh & mw & Hph & Hpw & Hmh & Hmw & Htile).
  exists h, w, c, ph, pw, mh, mw. eexists.
  repeat (split; [eassumption|]). reflexivity.
Qed.

Lemma margins_from_cell_witness :
  pages_margined_from cell_size [Samples.img_tall].
Proof.
  apply (margins_from_cell [Samples.img_tall] 400 1 1);
    [discriminate | reflexivity | reflexivity | reflexivity | reflexivity].
Defined.

End LayoutClaims.


(** ** The resolvers, call by call *)

Module PipelineFacts.
Import Np Py Scryfall Pipeline Resolution.

Lemma with_calls_nil s : with_calls s [] = s.
Proof. destruct s. unfold with_calls. simpl. now rewrite app_nil_r. Qed.

Lemma with_calls_app s c1 c2 : with_calls (with_calls s c1) c2 = with_calls s (c1 ++ c2).
Proof. unfold with_calls. simpl. now rewrite app_assoc. Qed.

Lemma run_bind {A B} (m : M A) (k : A → M B) s :
  (m ≫= k) s = match m s with
               | (Ok a, s') => k a s'
               | (Raise e, s') => (Raise e, s')
               end.
Proof. reflexivity. Qed.

Lemma run_bind_ok {A B} (m : M A) (k : A → M B) s a s' :
  m s = (Ok a, s') → (m ≫= k) s = k a s'.
Proof. intros H. now rewrite run_bind, H. Qed.

Lemma run_bind_raise {A B} (m : M A) (k : A → M B) s e s' :
  m s = (Raise e, s') → (m ≫= k) s = (Raise e, s').
Proof. intros H. now rewrite run_bind, H. Qed.

Section World.
Variable w : world.

Lemma run_Id id s : scrython_Id w id s = (cards_Id w id, with_calls s [CallId id]).
Proof. reflexivity. Qed.

Lemma run_Named name s :
  scrython_Named w name s = (cards_Named w name, with_calls s [CallNamed name]).
Proof. reflexivity. Qed.

Lemma run_Search q s :
  scrython_Search w q s = (cards_Search w q, with_calls s [CallSearch q]).
Proof. reflexivity. Qed.

Lemma split_once_without_separator c s :
  contains c s = false → split_once c s = [s].
Proof.
  induction s as [|a s IH]; simpl; [reflexivity|].
  intros H. apply orb_false_iff in H as [Ha Hs].
  rewrite Ha, (IH Hs). reflexivity.
Qed.

Lemma run_search_first_id q s :
  try_except (results ← scrython_Search w q; first_id results) (fun _ => ret None) s =
    (Ok (search_id w q), with_calls s [CallSearch q]).
Proof.
  unfold try_except, search_id. rewrite run_bind, run_Search.
  destruct (cards_Search w q) as [[|c results]|e]; try reflexivity.
  unfold first_id. rewrite run_bind. unfold lift.
  destruct (card_id c); reflexivity.
Qed.

Lemma resolve_token_spec_run spec s :
  resolve_token_spec w spec s =
    (Ok (resolved_id w spec), with_calls s (resolution_calls w spec)).
Proof.
  unfold resolve_token_spec, resolved_id, resolution_calls.
  set (sp := strip spec).
  destruct (startswith sp "http").
  - unfold try_except at 1. rewrite run_bind. unfold lift at 1.
    destruct (urlparse_path w sp) as [path|e]; [|now rewrite with_calls_nil].
    destruct (split "/"%char (strip_char "/"%char path)) as [|p0 [|set_code [|number rest]]];
      try (unfold ret; now rewrite with_calls_nil).
    destruct (String.eqb p0 "card"); [|unfold ret; now rewrite with_calls_nil].
    apply run_search_first_id.
  - destruct (contains "/"%char sp).
    + unfold try_except at 1. rewrite run_bind. unfold lift at 1.
      destruct (unpack2 (split_once "/"%char sp)) as [[set_code number]|e];
        [|now rewrite with_calls_nil].
      apply run_search_first_id.
    + unfold try_except. rewrite run_bind, run_Named.
      destruct (cards_Named w sp) as [card|e]; [|reflexivity].
      rewrite run_bind. unfold lift.
      destruct (card_id (to_json card)); reflexivity.
Qed.

Lemma lookup_card_run name s :
  lookup_card w name s = (resolved_card w name, with_calls s (lookup_calls w name)).
Proof.
  unfold lookup_card, resolved_card, lookup_calls, resolved_by_spec, spec_calls, try_except.
  rewrite run_bind.
  destruct (looks_like_spec name).
  - rewrite run_bind, resolve_token_spec_run.
    destruct (truthy (resolved_id w name)).
    + rewrite run_bind, run_Id, with_calls_app.
      destruct (cards_Id w (default "" (resolved_id w name))) as [cd|e];
        unfold ret, raise; now rewrite app_nil_r.
    + unfold ret at 1. rewrite run_bind, run_Named, with_calls_app, app_nil_r.
      destruct (cards_Named w name); reflexivity.
  - unfold ret at 1. rewrite run_bind, run_Named.
    destruct (cards_Named w name); reflexivity.
Qed.

Lemma run_fetch_image c s :
  fetch_image w c s =
    match image_uris_normal c with
    | Some url => (get_image w url, with_calls s [CallGet url])
    | None => (Raise (KeyError "image_uris"), s)
    end.
Proof. unfold fetch_image. rewrite run_bind. unfold lift. now destruct (image_uris_normal c). Qed.

Lemma extend_map_fetch items imgs s :
  Forall2 (fetchable w) items imgs →
  extend_map (fetch_image w) items s =
    (Ok tt, RunState (image_list s ++ imgs) (token_ids s)
              (calls s ++ fetch_calls items) (draws s)).
Proof.
  intros H. revert s. induction H as [|c img items imgs (url & Hurl & Hget) _ IH]; intros s.
  - unfold fetch_calls. simpl. unfold ret. rewrite !app_nil_r. now destruct s.
  - simpl extend_map. rewrite run_bind, run_fetch_image, Hurl, Hget.
    rewrite run_bind. unfold extend_images at 1. rewrite IH. cbn [image_list token_ids calls draws with_calls].
    unfold fetch_calls. simpl omap. rewrite Hurl. simpl.
    now rewrite <- !app_assoc.
Qed.

(** Taking entry [j] out of the [live] first entries of a pool and moving
    the last live entry to its place leaves the other live entries. *)
Lemma swap_remove_perm {A} (l : list A) j live x y :
  (j < live)%nat → (live ≤ length l)%nat →
  l !! j = Some x → l !! (live - 1)%nat = Some y →
  x :: take (live - 1) (<[j := y]> l) ≡ₚ take live l.
Proof.
  intros Hj Hlive Hx Hy. destruct live as [|m]; [lia|].
  replace (S m - 1)%nat with m in * by lia.
  rewrite (take_S_r l m y) by assumption.
  destruct (decide (j = m)) as [->|Hne].
  - rewrite Hx in Hy. injection Hy as ->. rewrite list_insert_id by assumption.
    apply Permutation_cons_append.
  - rewrite take_insert_lt by lia.
    assert (Ht : take m l !! j = Some x) by (rewrite lookup_take_lt by lia; assumption).
    rewrite insert_take_drop by (rewrite length_take; lia).
    rewrite <- (take_drop_middle (take m l) j x Ht) at 3.
    rewrite <- !app_assoc. simpl.
    rewrite <- !Permutation_middle. now rewrite app_nil_r.
Qed.

(** The selection loop of [random.sample]: [k] picks out of the [live] first
    entries of the pool, each entry picked at most once. *)
Lemma sample_loop_spec {A} k : ∀ live (pool : list A) s,
  (k ≤ live)%nat → (live ≤ length pool)%nat →
  ∃ res rest,
    sample_loop w k live pool s =
      (Ok res, RunState (image_list s) (token_ids s) (calls s) (draws s + k)) ∧
    length res = k ∧ res ++ rest ≡ₚ take live pool.
Proof.
  induction k as [|k IH]; intros live pool s Hk Hlive.
  - exists [], (take live pool). simpl. unfold ret. rewrite Nat.add_0_r.
    destruct s; auto.
  - simpl sample_loop. rewrite run_bind. unfold randbelow at 1.
    set (j := (random_draw w (draws s) mod live)%nat).
    assert (Hj : (j < live)%nat) by (apply Nat.mod_upper_bound; lia).
    destruct (lookup_lt_is_Some_2 pool j ltac:(lia)) as [x Hx].
    destruct (lookup_lt_is_Some_2 pool (live - 1) ltac:(lia)) as [y Hy].
    rewrite Hx, Hy, run_bind.
    destruct (IH (live - 1)%nat (<[j := y]> pool)
                (RunState (image_list s) (token_ids s) (calls s) (S (draws s))))
      as (res & rest & Hrun & Hlen & Hperm);
      [lia | rewrite length_insert; lia |].
    rewrite Hrun. cbn [image_list token_ids calls draws].
    exists (x :: res), rest. split; [|split].
    + unfold ret. replace (draws s + S k)%nat with (S (draws s) + k)%nat by lia.
      reflexivity.
    + simpl. now rewrite Hlen.
    + simpl. rewrite Hperm. now apply swap_remove_perm.
Qed.

Lemma valid_draws_of_generator k : ∀ d live,
  (k ≤ live)%nat →
  valid_draws (draws_of w d k live) live ∧ length (draws_of w d k live) = k.
Proof.
  induction k as [|k IH]; intros d live Hk; simpl; [auto|].
  destruct (IH (S d) (live - 1)%nat ltac:(lia)) as [Hv Hl].
  split; [split; [apply Nat.mod_upper_bound; lia|exact Hv]|now rewrite Hl].
Qed.

(** The selection loop returns what [pick] gives on the generator's draws. *)
Lemma sample_loop_pick {A} k : ∀ live (pool : list A) s,
  (k ≤ live)%nat → (live ≤ length pool)%nat →
  ∃ res, fst (sample_loop w k live pool s) = Ok res ∧
         pick (draws_of w (draws s) k live) live pool = Some res.
Proof.
  induction k as [|k IH]; intros live pool s Hk Hlive.
  - exists []. split; reflexivity.
  - simpl sample_loop. simpl draws_of. simpl pick.
    rewrite run_bind. unfold randbelow at 1.
    set (j := (random_draw w (draws s) mod live)%nat).
    assert (Hj : (j < live)%nat) by (apply Nat.mod_upper_bound; lia).
    destruct (lookup_lt_is_Some_2 pool j ltac:(lia)) as [x Hx].
    destruct (lookup_lt_is_Some_2 pool (live - 1) ltac:(lia)) as [y Hy].
    rewrite Hx, Hy, run_bind.
    destruct (IH (live - 1)%nat (<[j := y]> pool)
                (RunState (image_list s) (token_ids s) (calls s) (S (draws s))))
      as (res & Hrun & Hpick); [lia | rewrite length_insert; lia |].
    cbn [draws] in Hpick. rewrite Hpick.
    destruct (sample_loop w k (live - 1) (<[j := y]> pool) _) as [r s'].
    simpl in Hrun. subst r. exists (x :: res). split; reflexivity.
Qed.

Lemma pick_total {A} js : ∀ live (pool : list A),
  valid_draws js live → (live ≤ length pool)%nat → is_Some (pick js live pool).
Proof.
  induction js as [|j js IH]; intros live pool Hv Hlive; simpl; [eauto|].
  destruct Hv as [Hj Hv].
  destruct (lookup_lt_is_Some_2 pool j ltac:(lia)) as [x ->].
  destruct (lookup_lt_is_Some_2 pool (live - 1) ltac:(lia)) as [y ->].
  destruct (IH (live - 1)%nat (<[j := y]> pool) Hv) as [res ->];
    [rewrite length_insert; lia|]. simpl. eauto.
Qed.

Lemma NoDup_after_pick {A} (pool : list A) j live x y :
  (j < live)%nat → (live ≤ length pool)%nat →
  pool !! j = Some x → pool !! (live - 1)%nat = Some y →
  NoDup (take live pool) →
  (x ∉ take (live - 1) (<[j := y]> pool)) ∧
  NoDup (take (live - 1) (<[j := y]> pool)).
Proof.
  intros Hj Hlive Hx Hy Hnd.
  rewrite <- (swap_remove_perm pool j live x y Hj Hlive Hx Hy) in Hnd.
  now apply NoDup_cons in Hnd.
Qed.

(** Different draws select different samples. *)
Lemma pick_injective {A} js : ∀ js' live (pool : list A),
  NoDup (take live pool) → (live ≤ length pool)%nat →
  valid_draws js live → valid_draws js' live →
  pick js live pool = pick js' live pool → js = js'.
Proof.
  induction js as [|j js IH]; intros [|j' js'] live pool Hnd Hlive Hv Hv' Heq.
  - reflexivity.
  - destruct (pick_total (j' :: js') live pool Hv' Hlive) as [res Hres].
    rewrite Hres in Heq. simpl in Hres, Heq.
    destruct (pool !! j'), (pool !! (live - 1)%nat); try discriminate.
    destruct (pick js' _ _); simpl in Hres; congruence.
  - destruct (pick_total (j :: js) live pool Hv Hlive) as [res Hres].
    rewrite Hres in Heq. simpl in Hres, Heq.
    destruct (pool !! j), (pool !! (live - 1)%nat); try discriminate.
    destruct (pick js _ _); simpl in Hres; congruence.
  - destruct Hv as [Hj Hv], Hv' as [Hj' Hv']. simpl in Heq.
    destruct (lookup_lt_is_Some_2 pool j ltac:(lia)) as [x Hx].
    destruct (lookup_lt_is_Some_2 pool j' ltac:(lia)) as [x' Hx'].
    destruct (lookup_lt_is_Some_2 pool (live - 1) ltac:(lia)) as [y Hy].
    rewrite Hx, Hx', Hy in Heq.
    destruct (pick_total js (live - 1)%nat (<[j := y]> pool) Hv) as [res Hres];
      [rewrite length_insert; lia|].
    destruct (pick_total js' (live - 1)%nat (<[j' := y]> pool) Hv') as [res' Hres'];
      [rewrite length_insert; lia|].
    rewrite Hres, Hres' in Heq. simpl in Heq. injection Heq as -> ->.
    assert (j = j') as <-.
    { eapply NoDup_lookup; [exact Hnd| |]; rewrite lookup_take_lt by lia; eassumption. }
    f_equal. apply (IH js' (live - 1)%nat (<[j := y]> pool)); try assumption.
    + now apply (NoDup_after_pick pool j live x' y).
    + rewrite length_insert. lia.
    + now rewrite Hres, Hres'.
Qed.

(** Every selection of distinct live entries is the sample of some draws. *)
Lemma pick_surjective {A} (target : list A) : ∀ live (pool : list A),
  NoDup target → (∀ x, x ∈ target → x ∈ take live pool) →
  NoDup (take live pool) → (live ≤ length pool)%nat →
  ∃ js, valid_draws js live ∧ length js = length target ∧
        pick js live pool = Some target.
Proof.
  induction target as [|x xs IH]; intros live pool Hnd Hsub Hpool Hlive.
  - exists []. simpl. auto.
  - apply NoDup_cons in Hnd as [Hx Hxs].
    assert (Hin : x ∈ take live pool) by (apply Hsub; left).
    apply list_elem_of_lookup in Hin as [j Hj].
    assert (Hjl : (j < live)%nat).
    { apply lookup_lt_Some in Hj. rewrite length_take in Hj. lia. }
    rewrite lookup_take_lt in Hj by lia.
    destruct (lookup_lt_is_Some_2 pool (live - 1) ltac:(lia)) as [y Hy].
    destruct (NoDup_after_pick pool j live x y Hjl Hlive Hj Hy Hpool) as [Hnx Hnd'].
    destruct (IH (live - 1)%nat (<[j := y]> pool) Hxs) as (js & Hv & Hl & Hpick).
    + intros x' Hx'.
      assert (Hin' : x' ∈ take live pool) by (apply Hsub; now right).
      rewrite <- (swap_remove_perm pool j live x y Hjl Hlive Hj Hy) in Hin'.
      apply elem_of_cons in Hin' as [->|]; [contradiction|assumption].
    + exact Hnd'.
    + rewrite length_insert. lia.
    + exists (j :: js). simpl. rewrite Hj, Hy, Hpick, Hl. auto.
Qed.

(** [random.sample(population, k)] for [0 <= k <= n] is the pool loop on a
    population of at most [setsize] entries, and the loop over the set of
    selected positions on a larger one. *)
Lemma random_sample_pool {A} (population : list A) (k : Z) :
  0 <= k <= Z.of_nat (length population) →
  Z.of_nat (length population) <= setsize k →
  random_sample w population k =
    sample_loop w (Z.to_nat k) (length population) population.
Proof.
  intros Hk Hn. unfold random_sample.
  rewrite (proj2 (Z.leb_le 0 k)), (proj2 (Z.leb_le k _)) by lia. cbn [andb].
  now rewrite (proj2 (Z.leb_le _ _) Hn).
Qed.

Lemma random_sample_set {A} (population : list A) (k : Z) :
  0 <= k <= Z.of_nat (length population) →
  setsize k < Z.of_nat (length population) →
  random_sample w population k =
    sample_set_loop w (Z.to_nat k) (length population) population ∅.
Proof.
  intros Hk Hn. unfold random_sample.
  rewrite (proj2 (Z.leb_le 0 k)), (proj2 (Z.leb_le k _)) by lia. cbn [andb].
  now rewrite (proj2 (Z.leb_gt _ _) Hn).
Qed.

(** The draws of a pick change nothing but the count of the draws. *)
Lemma draw_unselected_frame fuel : ∀ n selected s r s',
  draw_unselected w fuel n selected s = (r, s') →
  image_list s' = image_list s ∧ token_ids s' = token_ids s ∧ calls s' = calls s.
Proof.
  induction fuel as [|fuel IH]; intros n selected s r s' H; simpl in H.
  - injection H as _ <-. auto.
  - rewrite run_bind in H. unfold randbelow at 1 in H.
    destruct (decide (_ ∈ selected)).
    + apply IH in H. exact H.
    + injection H as _ <-. auto.
Qed.

Lemma sample_set_loop_frame {A} k : ∀ n (population : list A) selected s r s',
  sample_set_loop w k n population selected s = (r, s') →
  image_list s' = image_list s ∧ token_ids s' = token_ids s ∧ calls s' = calls s ∧
  ∀ res, r = Ok res → length res = k.
Proof.
  induction k as [|k IH]; intros n population selected s r s' H; simpl in H.
  - injection H as <- <-. repeat (split; [reflexivity|]). intros res Hr. now injection Hr as <-.
  - rewrite run_bind in H.
    destruct (draw_unselected w (draw_limit w) n selected s) as [[j|e] s0] eqn:Hdraw;
      apply draw_unselected_frame in Hdraw as (Hi & Ht & Hc).
    + destruct (population !! j) as [x|].
      * rewrite run_bind in H.
        destruct (sample_set_loop w k n population (selected ∪ {[ j ]}) s0)
          as [[rest|e] s1] eqn:Hrest;
          apply IH in Hrest as (Hi' & Ht' & Hc' & Hlen); injection H as <- <-;
          rewrite Hi', Ht', Hc'; repeat (split; [assumption|]).
        -- intros res Hr. injection Hr as <-. simpl. f_equal. now apply Hlen.
        -- discriminate.
      * injection H as <- <-. repeat (split; [assumption|]). discriminate.
    + injection H as <- <-. repeat (split; [assumption|]). discriminate.
Qed.

(** A sample that is returned has [k] entries, and taking it changed
    nothing but the count of the draws. *)
Lemma random_sample_returns {A} (population : list A) (k : Z) s res s' :
  random_sample w population k s = (Ok res, s') →
  length res = Z.to_nat k ∧
  image_list s' = image_list s ∧ token_ids s' = token_ids s ∧ calls s' = calls s.
Proof.
  unfold random_sample.
  destruct (Z.leb_spec 0 k); [|discriminate].
  destruct (Z.leb_spec k (Z.of_nat (length population))); [|discriminate].
  cbn [andb]. destruct (Z.leb_spec (Z.of_nat (length population)) (setsize k)).
  - destruct (sample_loop_spec (Z.to_nat k) (length population) population s)
      as (r & rest & Hrun & Hlen & _); [lia|lia|].
    rewrite Hrun. intros Heq. injection Heq as <- <-. auto.
  - intros Heq. apply sample_set_loop_frame in Heq as (Hi & Ht & Hc & Hlen). auto.
Qed.

(** [random.sample(population, k)] for [k] out of range raises. *)
Lemma random_sample_raises {A} (population : list A) (k : Z) s :
  k < 0 ∨ Z.of_nat (length population) < k →
  random_sample w population k s =
    (Raise (ValueError "Sample larger than population or is negative"), s).
Proof.
  intros Hk. unfold random_sample.
  destruct (Z.leb_spec 0 k); destruct (Z.leb_spec k (Z.of_nat (length population)));
    try reflexivity; lia.
Qed.

Lemma get_tokens_loop_ok parts : ∀ acc ids,
  get_tokens_loop parts acc = Ok ids → ids = acc ∪ token_part_ids parts.
Proof.
  unfold token_part_ids.
  induction parts as [|p parts IH]; intros acc ids H; simpl in H.
  - injection H as <-. simpl. set_solver.
  - unfold is_token_part. simpl omap.
    destruct (part_component p) as [component|]; [|discriminate H].
    simpl in H. destruct (String.eqb component "token").
    + destruct (part_id p) as [id|]; [|discriminate H]. simpl in H.
      apply IH in H. subst ids. simpl. set_solver.
    + apply IH in H. subst ids. set_solver.
Qed.

Lemma elem_of_token_part_ids parts id :
  id ∈ token_part_ids parts ↔
  ∃ p, p ∈ parts ∧ part_component p = Some "token" ∧ part_id p = Some id.
Proof.
  unfold token_part_ids. rewrite elem_of_list_to_set, list_elem_of_omap.
  split.
  - intros (p & Hp & H). exists p. split; [assumption|].
    unfold is_token_part in H. destruct (part_component p) as [component|]; [|discriminate].
    destruct (String.eqb component "token") eqn:E; [|discriminate].
    apply String.eqb_eq in E. subst component. auto.
  - intros (p & Hp & Hc & Hid). exists p. split; [assumption|].
    unfold is_token_part. now rewrite Hc, Hid.
Qed.

Lemma Forall_fetchable_images (items : list card) :
  Forall (fun c => ∃ img, fetchable w c img) items →
  ∃ imgs, Forall2 (fetchable w) items imgs.
Proof.
  induction 1 as [|c items [img Himg] _ [imgs IH]].
  - exists []. constructor.
  - exists (img :: imgs). now constructor.
Qed.

Lemma process_token_ok id url img s :
  token_resolves w id url img →
  process_token w id s =
    (Ok tt, RunState (image_list s ++ [img; img]) (token_ids s)
              (calls s ++ [CallId id; CallGet url]) (draws s)).
Proof.
  intros (cd & Hid & Hurl & Hget). unfold process_token.
  rewrite run_bind, run_Id, Hid, run_bind, run_fetch_image, Hurl, Hget.
  unfold extend_images, with_calls. cbn [image_list token_ids calls draws].
  now rewrite <- app_assoc.
Qed.

Lemma for_each_process_token url_of img_of ids : ∀ s,
  Forall (fun id => token_resolves w id (url_of id) (img_of id)) ids →
  for_each (process_token w) ids s =
    (Ok tt, RunState (image_list s ++ token_images img_of ids) (token_ids s)
              (calls s ++ token_calls url_of ids) (draws s)).
Proof.
  unfold token_images, token_calls.
  induction ids as [|id ids IH]; intros s H.
  - simpl. unfold ret. rewrite !app_nil_r. now destruct s.
  - apply Forall_cons in H as [Hid Hids]. simpl for_each.
    rewrite run_bind, (process_token_ok id _ _ s Hid), IH by assumption.
    cbn [image_list token_ids calls draws map concat].
    now rewrite <- !app_assoc.
Qed.

Lemma keeps_ret {A} (a : A) : keeps_token_ids (ret a).
Proof. now intros s. Qed.

Lemma keeps_raise {A} e : keeps_token_ids (@raise A e).
Proof. now intros s. Qed.

Lemma keeps_lift {A} (r : result A) : keeps_token_ids (lift r).
Proof. now intros s. Qed.

Lemma keeps_log c : keeps_token_ids (log c).
Proof. now intros s. Qed.

Lemma keeps_extend_images imgs : keeps_token_ids (extend_images imgs).
Proof. now intros s. Qed.

Lemma keeps_randbelow n : keeps_token_ids (randbelow w n).
Proof. now intros s. Qed.

Lemma keeps_bind {A B} (m : M A) (k : A → M B) :
  keeps_token_ids m → (∀ a, keeps_token_ids (k a)) → keeps_token_ids (m ≫= k).
Proof.
  intros Hm Hk s. rewrite run_bind. specialize (Hm s).
  destruct (m s) as [[a|e] s']; simpl in *; [|assumption].
  now rewrite Hk.
Qed.

Lemma keeps_resolve_token_spec spec : keeps_token_ids (resolve_token_spec w spec).
Proof. intros s. now rewrite resolve_token_spec_run. Qed.

Lemma keeps_fetch_image c : keeps_token_ids (fetch_image w c).
Proof. intros s. rewrite run_fetch_image. now destruct (image_uris_normal c). Qed.

Lemma keeps_Search q : keeps_token_ids (scrython_Search w q).
Proof. intros s. now rewrite run_Search. Qed.

Create HintDb frame discriminated.
#[local] Hint Resolve keeps_ret keeps_raise keeps_lift keeps_log keeps_extend_images
  keeps_randbelow keeps_resolve_token_spec keeps_fetch_image keeps_Search : frame.
#[local] Hint Extern 2 (keeps_token_ids (_ ≫= _)) =>
  apply keeps_bind; [|intro] : frame.

Lemma keeps_extend_map items : keeps_token_ids (extend_map (fetch_image w) items).
Proof. induction items as [|c items IH]; simpl; auto with frame. Qed.

Lemma keeps_sample_loop {A} k : ∀ live (pool : list A),
  keeps_token_ids (sample_loop w k live pool).
Proof.
  induction k as [|k IH]; intros live pool; simpl; [auto with frame|].
  apply keeps_bind; [auto with frame|]. intros j.
  destruct (pool !! j), (pool !! (live - 1)%nat); auto with frame.
Qed.

Lemma keeps_random_sample {A} (population : list A) k :
  keeps_token_ids (random_sample w population k).
Proof.
  unfold random_sample. destruct (_ && _); [|auto with frame].
  destruct (_ <=? _); [apply keeps_sample_loop|].
  intros s.
  destruct (sample_set_loop w (Z.to_nat k) (length population) population ∅ s)
    as [r s'] eqn:H.
  now apply sample_set_loop_frame in H.
Qed.

Lemma keeps_resolve_forced specs : ∀ forced, keeps_token_ids (resolve_forced w specs forced).
Proof.
  induction specs as [|spec specs IH]; intros forced; simpl; [auto with frame|].
  apply keeps_bind; [auto with frame|]. intros tid.
  destruct (truthy tid); auto with frame.
Qed.

#[local] Hint Resolve keeps_extend_map keeps_random_sample : frame.

Lemma process_card_token_ids infos add_tokens s s' :
  process_card w infos add_tokens s = (Ok tt, s') →
  token_ids s' = token_ids s ∪ card_token_ids w add_tokens infos.
Proof.
  unfold process_card, card_token_ids. rewrite run_bind, lookup_card_run.
  destruct (resolved_card w (strip (entry_name infos))) as [card_data|e]; [|discriminate].
  rewrite run_bind. unfold lift at 1.
  destruct (type_line card_data) as [tl|]; cbn [getitem]; [|discriminate].
  destruct (startswith tl "Basic Land").
  - intros H.
    match type of H with
    | ?m ?s0 = _ =>
        assert (Hk : keeps_token_ids m);
        [|specialize (Hk s0); rewrite H in Hk; simpl in Hk; rewrite Hk]
    end.
    + auto 10 with frame.
    + simpl. now rewrite union_empty_r_L.
  - rewrite !run_bind, run_fetch_image.
    destruct (image_uris_normal card_data) as [url|]; [|discriminate].
    destruct (get_image w url) as [image|e]; [|discriminate].
    rewrite run_bind. unfold extend_images at 1.
    destruct add_tokens.
    + rewrite run_bind. unfold lift at 1.
      destruct (get_tokens card_data) as [ids|e]; [|discriminate].
      unfold add_token_ids, log. cbn [image_list token_ids calls draws with_calls].
      intros H. injection H as <-. reflexivity.
    + unfold ret, log. cbn [image_list token_ids calls draws with_calls].
      intros H. injection H as <-. simpl. now rewrite union_empty_r_L.
Qed.

Lemma for_each_process_card_token_ids add_tokens deck : ∀ s s',
  for_each (fun card_infos => process_card w card_infos add_tokens) deck s = (Ok tt, s') →
  token_ids s' = token_ids s ∪ ⋃ (card_token_ids w add_tokens <$> deck).
Proof.
  induction deck as [|infos deck IH]; intros s s' H; simpl in H.
  - injection H as <-. simpl. now rewrite union_empty_r_L.
  - rewrite run_bind in H.
    destruct (process_card w infos add_tokens s) as [[[]|e] s0] eqn:Hcard; [|discriminate].
    apply process_card_token_ids in Hcard. apply IH in H.
    rewrite H, Hcard. simpl. now rewrite (assoc_L (∪)).
Qed.

(** After the card phase the token-id set is the forced ids together with
    the ids every deck line contributes: a set, so each id is in it once
    however many cards name it. *)
Lemma card_phase_token_ids a deck forced s1 :
  card_phase w a deck initial_state = (Ok forced, s1) →
  token_ids s1 = forced ∪ ⋃ (card_token_ids w (negb (no_tokens a)) <$> deck).
Proof.
  unfold card_phase. rewrite run_bind.
  pose proof (keeps_resolve_forced (token a) ∅ initial_state) as Hforced.
  destruct (resolve_forced w (token a) ∅ initial_state) as [[forced0|e] s0];
    [|discriminate].
  simpl in Hforced. rewrite run_bind.
  set (note := if nonempty forced0 && no_tokens a then _ else _).
  assert (Hnote : ∃ s0', note s0 = (Ok tt, s0') ∧ token_ids s0' = token_ids s0).
  { subst note. destruct (_ && _); eexists; split; reflexivity. }
  destruct Hnote as (s0' & -> & Hs0'). rewrite run_bind.
  unfold add_token_ids at 1. rewrite run_bind.
  match goal with
  | |- context [for_each ?f deck ?s] => destruct (for_each f deck s) as [[[]|e] s2] eqn:Hdeck
  end; [|discriminate].
  apply for_each_process_card_token_ids in Hdeck. cbn [token_ids] in Hdeck.
  unfold ret. intros H. injection H as <- <-.
  rewrite Hdeck, Hs0', Hforced. now rewrite union_empty_l_L.
Qed.

Lemma filter_eq_absent (ids : list string) id :
  id ∉ ids → filter (fun x => x = id) ids = [].
Proof.
  induction ids as [|x ids IH]; intros Hin; [reflexivity|].
  apply not_elem_of_cons in Hin as [Hne Hin].
  rewrite filter_cons. destruct (decide (x = id)); [congruence|]. now apply IH.
Qed.

Lemma filter_eq_once (ids : list string) id :
  NoDup ids → id ∈ ids → length (filter (fun x => x = id) ids) = 1%nat.
Proof.
  induction 1 as [|x ids Hx Hnd IH]; intros Hin; [now apply elem_of_nil in Hin|].
  rewrite filter_cons. destruct (decide (x = id)) as [->|Hne].
  - now rewrite filter_eq_absent.
  - apply IH. apply elem_of_cons in Hin as [->|]; [done|assumption].
Qed.

(** Each id of the token phase has one [CallId] in its trace. *)
Lemma token_calls_count url_of ids id :
  length (filter (fun c => c = CallId id) (token_calls url_of ids)) =
  length (filter (fun x => x = id) ids).
Proof.
  unfold token_calls. induction ids as [|x ids IH]; [reflexivity|].
  simpl. rewrite !filter_cons.
  destruct (decide (CallGet (url_of x) = CallId id)) as [Hc|_]; [discriminate Hc|].
  destruct (decide (CallId x = CallId id)) as [Hc|Hc];
    destruct (decide (x = id)) as [Hx|Hx]; simpl; try congruence.
Qed.

End World.

End PipelineFacts.


(** ** The sampling of [random.sample] *)

Module SamplingFacts.
Import Np Py Scryfall Pipeline Resolution PipelineFacts.

(** [setsize] is 21 up to a count of 5, and beyond it 21 and the least
    power of 4 that is not below three times the count. *)
Lemma setsize_spec k :
  (k <= 5 → setsize k = 21) ∧
  (5 < k → ∃ e, 0 < e ∧ setsize k = 21 + 4 ^ e ∧ 4 ^ (e - 1) < k * 3 <= 4 ^ e).
Proof.
  unfold setsize. split; intros Hk.
  - now rewrite (proj2 (Z.ltb_ge 5 k)) by lia.
  - rewrite (proj2 (Z.ltb_lt 5 k)) by lia. unfold ceil_log4.
    set (x := k * 3). set (l := Z.log2_up x).
    assert (Hx : 1 < x) by (subst x; lia).
    destruct (Z.log2_up_spec x Hx) as [Hlo Hhi]. fold l in Hlo, Hhi.
    assert (Hl : 0 < l) by (apply Z.log2_up_pos; lia).
    pose proof (Z.div_mod (l + 1) 2 ltac:(lia)) as Hdiv.
    pose proof (Z.mod_pos_bound (l + 1) 2 ltac:(lia)) as Hmod.
    set (e := (l + 1) / 2) in *.
    exists e. split; [lia|]. split; [reflexivity|].
    assert (H4 : ∀ z, 0 <= z → 4 ^ z = 2 ^ (2 * z)).
    { intros z Hz. change 4 with (2 ^ 2). now rewrite <- Z.pow_mul_r by lia. }
    rewrite !H4 by lia. split.
    + eapply Z.le_lt_trans; [|exact Hlo].
      apply Z.pow_le_mono_r; lia.
    + eapply Z.le_trans; [exact Hhi|]. apply Z.pow_le_mono_r; lia.
Qed.

Lemma distinct_picks_sound js : ∀ k selected ps,
  distinct_picks js k selected = Some ps →
  NoDup ps ∧ length ps = k ∧ ∀ p, p ∈ ps → (p ∉ selected) ∧ p ∈ js.
Proof.
  induction js as [|j js IH]; intros [|k] selected ps H; simpl in H; try discriminate.
  - injection H as <-. split; [constructor|]. split; [reflexivity|].
    intros p Hp. now apply elem_of_nil in Hp.
  - destruct (bool_decide (j ∈ selected)) eqn:Hj.
    + apply IH in H as (Hnd & Hlen & Hin). split; [exact Hnd|]. split; [exact Hlen|].
      intros p Hp. destruct (Hin p Hp). split; [assumption|now right].
    + apply bool_decide_eq_false in Hj.
      destruct (distinct_picks js k (j :: selected)) as [ps'|] eqn:Hrest; [|discriminate].
      injection H as <-. apply IH in Hrest as (Hnd & Hlen & Hin).
      split; [|split; [simpl; now rewrite Hlen|]].
      * constructor; [|exact Hnd]. intros Hp. destruct (Hin j Hp) as [Hn _].
        apply Hn. now left.
      * intros p Hp. apply elem_of_cons in Hp as [->|Hp]; [split; [assumption|now left]|].
        destruct (Hin p Hp) as [Hn Hjs]. split; [|now right].
        intros Hsel. apply Hn. now right.
Qed.

Lemma distinct_picks_map (σ : nat → nat) js :
  (∀ x y, σ x = σ y → x = y) → ∀ k selected,
  distinct_picks (map σ js) k (map σ selected) = map σ <$> distinct_picks js k selected.
Proof.
  intros Hinj. induction js as [|j js IH]; intros [|k] selected; simpl; try reflexivity.
  assert (Hmem : bool_decide (σ j ∈ map σ selected) = bool_decide (j ∈ selected)).
  { apply bool_decide_ext. split.
    - intros H. apply list_elem_of_In, in_map_iff in H as (x & Hx & Hin).
      apply Hinj in Hx. subst x. now apply list_elem_of_In.
    - intros H. apply list_elem_of_In, in_map_iff. exists j.
      split; [reflexivity|now apply list_elem_of_In]. }
  rewrite Hmem. destruct (bool_decide (j ∈ selected)); [apply IH|].
  change (σ j :: map σ selected) with (map σ (j :: selected)). rewrite IH.
  now destruct (distinct_picks js k (j :: selected)).
Qed.

Lemma distinct_picks_self ps : ∀ selected,
  NoDup ps → (∀ p, p ∈ ps → p ∉ selected) →
  distinct_picks ps (length ps) selected = Some ps.
Proof.
  induction ps as [|p ps IH]; intros selected Hnd Hfresh; [reflexivity|].
  apply NoDup_cons in Hnd as [Hp Hnd]. simpl.
  rewrite bool_decide_eq_false_2 by (apply Hfresh; now left).
  rewrite IH; [reflexivity|exact Hnd|].
  intros q Hq Hsel. apply elem_of_cons in Hsel as [->|Hsel]; [contradiction|].
  apply (Hfresh q); [now right|exact Hsel].
Qed.

(** Two lists of distinct values of one length are taken to one another by
    a relabelling of the values. *)
Lemma relabelling n : ∀ t t' : list nat,
  length t = n → length t' = n → NoDup t → NoDup t' →
  ∃ σ τ : nat → nat,
    (∀ x, τ (σ x) = x) ∧ (∀ x, σ (τ x) = x) ∧ map σ t = t' ∧
    (∀ x, x ∉ t → x ∉ t' → σ x = x ∧ τ x = x) ∧
    (∀ P : nat → Prop, Forall P t → Forall P t' → ∀ x, P x → P (σ x) ∧ P (τ x)).
Proof.
  induction n as [|n IH]; intros [|a t] [|b t'] Hlen Hlen' Hnd Hnd';
    try discriminate Hlen; try discriminate Hlen'.
  - exists id, id. repeat split; auto.
  - apply NoDup_cons in Hnd as [Ha Hnd]. apply NoDup_cons in Hnd' as [Hb Hnd'].
    injection Hlen as Hlen. injection Hlen' as Hlen'.
    set (sw := fun x : nat => if decide (x = a) then b else if decide (x = b) then a else x).
    assert (Hsw : ∀ x, sw (sw x) = x).
    { intros x. unfold sw. repeat (destruct (decide _)); congruence. }
    assert (Hswinj : ∀ x y, sw x = sw y → x = y).
    { intros x y H. rewrite <- (Hsw x), <- (Hsw y). now rewrite H. }
    assert (Hnu : NoDup (map sw t)).
    { change (map sw t) with (sw <$> t). apply NoDup_fmap_2; [|exact Hnd].
      intros x y. apply Hswinj. }
    destruct (IH (map sw t) t') as (σ1 & τ1 & Hτσ & Hστ & Hmap & Hfix & Hpres);
      [now rewrite length_map|assumption|assumption|assumption|].
    assert (Hbu : b ∉ map sw t).
    { intros H. apply list_elem_of_In, in_map_iff in H as (y & Hy & Hin).
      assert (y = a) by (apply Hswinj; rewrite Hy; unfold sw;
                         destruct (decide (a = a)); congruence).
      subst y. apply Ha. now apply list_elem_of_In. }
    destruct (Hfix b Hbu Hb) as [Hσb Hτb].
    exists (fun x => σ1 (sw x)), (fun x => sw (τ1 x)).
    split; [intros x; now rewrite Hτσ|]. split; [intros x; now rewrite Hsw|].
    split; [|split].
    + simpl. f_equal.
      * unfold sw at 1. destruct (decide (a = a)); [exact Hσb|congruence].
      * rewrite <- Hmap, map_map. reflexivity.
    + intros x Hx Hx'. apply not_elem_of_cons in Hx as [Hxa Hx].
      apply not_elem_of_cons in Hx' as [Hxb Hx'].
      assert (Hswx : sw x = x).
      { unfold sw. repeat (destruct (decide _)); congruence. }
      assert (Hxu : x ∉ map sw t).
      { intros H. apply list_elem_of_In, in_map_iff in H as (y & Hy & Hin).
        assert (y = x) by (apply Hswinj; congruence). subst y.
        apply Hx. now apply list_elem_of_In. }
      destruct (Hfix x Hxu Hx') as [Hσx Hτx]. rewrite Hswx, Hσx, Hτx. auto.
    + intros P HP HP' x Hx.
      apply Forall_cons in HP as [HPa HP]. apply Forall_cons in HP' as [HPb HP'].
      assert (HPsw : ∀ y, P y → P (sw y)).
      { intros y Hy. unfold sw. repeat (destruct (decide _)); assumption. }
      assert (HPu : Forall P (map sw t)).
      { apply List.Forall_forall. intros y Hy. apply in_map_iff in Hy as (z & <- & Hz).
        apply HPsw. rewrite List.Forall_forall in HP. now apply HP. }
      split.
      * apply (Hpres P HPu HP'). now apply HPsw.
      * apply HPsw. now apply (Hpres P HPu HP').
Qed.


Lemma pick_related {A B} (R : A → B → Prop) js : ∀ live pool1 pool2 r1,
  Forall2 R pool1 pool2 → pick js live pool1 = Some r1 →
  ∃ r2, pick js live pool2 = Some r2 ∧ Forall2 R r1 r2.
Proof.
  induction js as [|j js IH]; intros live pool1 pool2 r1 HR H; simpl in *.
  - injection H as <-. exists []. split; [reflexivity|constructor].
  - destruct (pool1 !! j) as [x|] eqn:Hx; [|discriminate].
    destruct (pool1 !! (live - 1)%nat) as [y|] eqn:Hy; [|discriminate].
    destruct (pick js (live - 1)%nat (<[j := y]> pool1)) as [r|] eqn:Hr; [|discriminate].
    injection H as <-.
    destruct (Forall2_lookup_l _ _ _ _ _ HR Hx) as (x' & Hx' & Hxx).
    destruct (Forall2_lookup_l _ _ _ _ _ HR Hy) as (y' & Hy' & Hyy).
    rewrite Hx', Hy'.
    destruct (IH (live - 1)%nat (<[j := y]> pool1) (<[j := y']> pool2) r) as (r2 & -> & Hrr);
      [now apply Forall2_insert|exact Hr|].
    exists (x' :: r2). split; [reflexivity|now constructor].
Qed.

Lemma pick_sound {A} js : ∀ live (pool : list A) res,
  valid_draws js live → (live ≤ length pool)%nat → NoDup (take live pool) →
  pick js live pool = Some res →
  NoDup res ∧ length res = length js ∧ ∀ x, x ∈ res → x ∈ take live pool.
Proof.
  induction js as [|j js IH]; intros live pool res Hv Hlive Hnd H; simpl in H.
  - injection H as <-. split; [constructor|]. split; [reflexivity|].
    intros x Hx. now apply elem_of_nil in Hx.
  - destruct Hv as [Hj Hv].
    destruct (pool !! j) as [x|] eqn:Hx; [|discriminate].
    destruct (pool !! (live - 1)%nat) as [y|] eqn:Hy; [|discriminate].
    destruct (pick js (live - 1)%nat (<[j := y]> pool)) as [r|] eqn:Hr; [|discriminate].
    injection H as <-.
    destruct (NoDup_after_pick pool j live x y Hj Hlive Hx Hy Hnd) as [Hnx Hnd'].
    destruct (IH (live - 1)%nat (<[j := y]> pool) r Hv) as (Hndr & Hlen & Hin);
      [rewrite length_insert; lia|exact Hnd'|exact Hr|].
    split; [|split; [simpl; now rewrite Hlen|]].
    + constructor; [|exact Hndr]. intros Hxr. apply Hnx. now apply Hin.
    + intros z Hz.
      rewrite <- (swap_remove_perm pool j live x y Hj Hlive Hx Hy).
      apply elem_of_cons in Hz as [->|Hz]; [now left|]. right. now apply Hin.
Qed.

Lemma seq_below n : take n (seq 0 n) = seq 0 n.
Proof. apply firstn_all2. now rewrite length_seq. Qed.

(** Every ordered selection is selected by some draws, and any two of them
    by as many draw sequences of every length. *)
Lemma selection_equally_likely n k ps ps' :
  ordered_selection n k ps → ordered_selection n k ps' →
  (∃ js, selects n k js ps) ∧ equally_likely n k ps ps'.
Proof.
  intros (Hnd & Hlen & Hlt) (Hnd' & Hlen' & Hlt'). unfold equally_likely, selects.
  destruct (decide (Z.of_nat n <= setsize (Z.of_nat k))) as [Hpool|Hset].
  - assert (Hsel : ∀ t, NoDup t → length t = k → Forall (fun p => (p < n)%nat) t →
                        ∃ js, length js = k ∧ valid_draws js n ∧
                              pick js n (seq 0 n) = Some t).
    { intros t Ht Hl Hb.
      destruct (pick_surjective t n (seq 0 n) Ht) as (js & Hv & Hjl & Hpick).
      - intros x Hx. rewrite seq_below. apply elem_of_seq.
        rewrite Forall_forall in Hb. specialize (Hb x Hx). lia.
      - rewrite seq_below. apply NoDup_seq.
      - now rewrite length_seq.
      - exists js. rewrite Hjl. auto. }
    destruct (Hsel ps Hnd Hlen Hlt) as (js0 & Hl0 & Hv0 & Hp0).
    destruct (Hsel ps' Hnd' Hlen' Hlt') as (js1 & Hl1 & Hv1 & Hp1).
    split; [exists js0; auto|].
    assert (Huniq : ∀ js js' t, valid_draws js n → valid_draws js' n →
                      pick js n (seq 0 n) = Some t → pick js' n (seq 0 n) = Some t →
                      js = js').
    { intros js js' t Hv Hv' Hp Hp'.
      apply (pick_injective js js' n (seq 0 n)); try assumption.
      - rewrite seq_below. apply NoDup_seq.
      - now rewrite length_seq.
      - now rewrite Hp, Hp'. }
    exists (fun _ => js1), (fun _ => js0). split.
    + intros js (Hl & Hv & Hp). split; [auto|]. split; [lia|].
      now apply (Huniq js0 js ps).
    + intros js (Hl & Hv & Hp). split; [auto|]. split; [lia|].
      now apply (Huniq js1 js ps').
  - split.
    { exists ps. split; [exact Hlt|]. rewrite <- Hlen.
      apply distinct_picks_self; [exact Hnd|]. intros p _. apply not_elem_of_nil. }
    destruct (relabelling k ps ps' Hlen Hlen' Hnd Hnd')
      as (σ & τ & Hτσ & Hστ & Hmap & _ & Hpres).
    assert (Hmap' : map τ ps' = ps).
    { rewrite <- Hmap, map_map. rewrite <- (map_id ps) at 2.
      apply map_ext. intros x. apply Hτσ. }
    assert (Hσinj : ∀ x y, σ x = σ y → x = y).
    { intros x y H. rewrite <- (Hτσ x), <- (Hτσ y). now rewrite H. }
    assert (Hτinj : ∀ x y, τ x = τ y → x = y).
    { intros x y H. rewrite <- (Hστ x), <- (Hστ y). now rewrite H. }
    exists (map σ), (map τ). split.
    + intros js (Hb & Hp). split; [split|split].
      * apply List.Forall_forall. intros y Hy. apply in_map_iff in Hy as (x & <- & Hx).
        rewrite List.Forall_forall in Hb.
        apply (Hpres (fun p => (p < n)%nat) Hlt Hlt'). now apply Hb.
      * change (@nil nat) with (map σ []).
        now rewrite (distinct_picks_map σ js Hσinj), Hp, <- Hmap.
      * apply length_map.
      * rewrite map_map. rewrite <- (map_id js) at 2. apply map_ext. intros x. apply Hτσ.
    + intros js (Hb & Hp). split; [split|split].
      * apply List.Forall_forall. intros y Hy. apply in_map_iff in Hy as (x & <- & Hx).
        rewrite List.Forall_forall in Hb.
        apply (Hpres (fun p => (p < n)%nat) Hlt Hlt'). now apply Hb.
      * change (@nil nat) with (map τ []).
        now rewrite (distinct_picks_map τ js Hτinj), Hp, <- Hmap'.
      * apply length_map.
      * rewrite map_map. rewrite <- (map_id js) at 2. apply map_ext. intros x. apply Hστ.
Qed.

Section World.
Variable w : world.

Lemma draws_below_length d m n : length (draws_below w d m n) = m.
Proof. revert d. induction m as [|m IH]; intros d; simpl; [reflexivity|]. now rewrite IH. Qed.

(** The loop over the set of selected positions, on the draws it
    consumes. *)
Lemma sample_set_loop_run {A} (population : list A) : ∀ js k' selected fuel s ps,
  distinct_picks js (S k') selected = Some ps →
  js = draws_below w (draws s) (length js) (length population) →
  Forall (fun j => (j < length population)%nat) js →
  (length js ≤ fuel)%nat → (length js ≤ draw_limit w)%nat →
  ∃ res,
    (j ← draw_unselected w fuel (length population) (list_to_set selected);
     match population !! j with
     | Some x =>
         rest ← sample_set_loop w k' (length population) population
                  (list_to_set selected ∪ {[ j ]});
         ret (x :: rest)
     | None => raise IndexError
     end) s =
      (Ok res, RunState (image_list s) (token_ids s) (calls s) (draws s + length js)) ∧
    Forall2 (fun p x => population !! p = Some x) ps res.
Proof.
  induction js as [|j js IH]; intros k' selected fuel s ps Hp Hjs Hb Hfuel Hlimit;
    [discriminate Hp|].
  destruct fuel as [|fuel]; [simpl in Hfuel; lia|].
  simpl in Hjs. injection Hjs as Hj Hjs.
  apply Forall_cons in Hb as [Hjn Hb].
  simpl in Hp. cbn [draw_unselected]. rewrite run_bind, run_bind.
  unfold randbelow at 1. rewrite <- Hj.
  set (s1 := RunState (image_list s) (token_ids s) (calls s) (S (draws s))).
  assert (Hjs1 : js = draws_below w (draws s1) (length js) (length population)) by exact Hjs.
  assert (Hfin : RunState (image_list s1) (token_ids s1) (calls s1) (draws s1 + length js) =
                 RunState (image_list s) (token_ids s) (calls s) (draws s + length (j :: js))).
  { subst s1. cbn [image_list token_ids calls draws length]. f_equal. lia. }
  destruct (bool_decide (j ∈ selected)) eqn:Hsel.
  - apply bool_decide_eq_true in Hsel.
    rewrite decide_True by (now apply elem_of_list_to_set).
    destruct (IH k' selected fuel s1 ps Hp Hjs1 Hb) as (res & Hrun & Hres);
      [simpl in Hfuel; lia|simpl in Hlimit; lia|].
    exists res. split; [|exact Hres]. rewrite <- Hfin. rewrite <- Hrun.
    now rewrite run_bind.
  - apply bool_decide_eq_false in Hsel.
    rewrite decide_False by (now rewrite elem_of_list_to_set).
    destruct (distinct_picks js k' (j :: selected)) as [ps'|] eqn:Hrest; [|discriminate].
    injection Hp as <-.
    destruct (lookup_lt_is_Some_2 population j Hjn) as [x Hx].
    unfold ret at 1. rewrite Hx, run_bind.
    assert (Hset : list_to_set selected ∪ {[ j ]} = (list_to_set (j :: selected) : gset nat)).
    { simpl. apply union_comm_L. }
    rewrite Hset. destruct k' as [|k''].
    + destruct js as [|j' js']; [|discriminate Hrest]. injection Hrest as <-.
      exists [x]. split; [|repeat constructor; exact Hx].
      rewrite <- Hfin. simpl. unfold ret. subst s1. simpl. repeat f_equal; lia.
    + cbn [sample_set_loop].
      destruct (IH k'' (j :: selected) (draw_limit w) s1 ps' Hrest Hjs1 Hb)
        as (res & Hrun & Hres); [simpl in Hlimit; lia|simpl in Hlimit; lia|].
      rewrite Hrun. exists (x :: res). split; [|now constructor].
      rewrite <- Hfin. reflexivity.
Qed.


Lemma draws_of_length d m live : length (draws_of w d m live) = m.
Proof.
  revert d live. induction m as [|m IH]; intros d live; simpl; [reflexivity|].
  now rewrite IH.
Qed.

Lemma draws_below_bound d m n : (0 < n)%nat → Forall (fun j => (j < n)%nat) (draws_below w d m n).
Proof.
  intros Hn. revert d. induction m as [|m IH]; intros d; simpl; constructor; [|apply IH].
  apply Nat.mod_upper_bound. lia.
Qed.

Lemma population_positions {A} (population : list A) :
  Forall2 (fun p x => population !! p = Some x) (seq 0 (length population)) population.
Proof.
  apply Forall2_same_length_lookup_2; [now rewrite length_seq|].
  intros i p x Hp Hx. apply lookup_seq in Hp as [-> _]. exact Hx.
Qed.

(** [random.sample] returns the entries at the positions its draws
    select. *)
Lemma random_sample_selects {A} (population : list A) (k : Z) s m ps :
  0 <= k <= Z.of_nat (length population) →
  selects (length population) (Z.to_nat k)
    (generator_draws w (draws s) (length population) (Z.to_nat k) m) ps →
  (setsize k < Z.of_nat (length population) → (m ≤ draw_limit w)%nat) →
  ∃ res,
    random_sample w population k s =
      (Ok res, RunState (image_list s) (token_ids s) (calls s) (draws s + m)) ∧
    Forall2 (fun p x => population !! p = Some x) ps res ∧
    ordered_selection (length population) (Z.to_nat k) ps.
Proof.
  intros Hk. unfold selects, generator_draws. rewrite Z2Nat.id by lia.
  set (n := length population).
  destruct (decide (Z.of_nat n <= setsize k)) as [Hpool|Hset].
  - intros (Hlen & Hv & Hpick) _. rewrite draws_of_length in Hlen. subst m.
    rewrite (random_sample_pool w population k Hk Hpool). fold n.
    destruct (sample_loop_spec w (Z.to_nat k) n population s) as (res & rest & Hrun & Hl & _);
      [lia|lia|].
    destruct (sample_loop_pick w (Z.to_nat k) n population s) as (res' & Hfst & Hpick');
      [lia|lia|].
    rewrite Hrun in Hfst. injection Hfst as <-.
    exists res. split; [exact Hrun|].
    destruct (pick_related _ _ n (seq 0 n) population ps (population_positions population)
                Hpick) as (r2 & Hr2 & Hrel).
    rewrite Hpick' in Hr2. injection Hr2 as <-. split; [exact Hrel|].
    destruct (pick_sound _ n (seq 0 n) ps Hv) as (Hnd & Hlps & Hin);
      [now rewrite length_seq|rewrite seq_below; apply NoDup_seq|exact Hpick|].
    split; [exact Hnd|]. split; [now rewrite Hlps, draws_of_length|].
    apply Forall_forall. intros p Hp. apply Hin in Hp. rewrite seq_below in Hp.
    apply elem_of_seq in Hp. lia.
  - intros (Hb & Hpick) Hlimit. specialize (Hlimit ltac:(lia)).
    rewrite (random_sample_set w population k Hk) by lia. fold n.
    destruct (distinct_picks_sound _ _ _ _ Hpick) as (Hnd & Hlps & Hin).
    assert (Hsel : ordered_selection n (Z.to_nat k) ps).
    { split; [exact Hnd|]. split; [exact Hlps|].
      apply Forall_forall. intros p Hp. rewrite Forall_forall in Hb.
      apply Hb. now apply Hin. }
    destruct (Z.to_nat k) as [|k'] eqn:Hk'.
    + destruct (draws_below w (draws s) m n) as [|j js] eqn:Hjs; [|discriminate Hpick].
      injection Hpick as <-.
      assert (m = 0%nat) as ->.
      { rewrite <- (draws_below_length (draws s) m n), Hjs. reflexivity. }
      exists []. split; [|split; [constructor|exact Hsel]].
      simpl. unfold ret. rewrite Nat.add_0_r. now destruct s.
    + cbn [sample_set_loop].
      destruct (sample_set_loop_run population (draws_below w (draws s) m n) k' []
                  (draw_limit w) s ps Hpick) as (res & Hrun & Hrel).
      * now rewrite draws_below_length.
      * exact Hb.
      * now rewrite draws_below_length.
      * now rewrite draws_below_length.
      * rewrite draws_below_length in Hrun. exists res. auto.
Qed.

(** On a population of at most [setsize] entries the draws always
    select. *)
Lemma pool_always_selects d n k :
  (k ≤ n)%nat → Z.of_nat n <= setsize (Z.of_nat k) →
  ∃ ps, selects n k (generator_draws w d n k k) ps.
Proof.
  intros Hk Hpool. unfold selects, generator_draws.
  destruct (decide (Z.of_nat n <= setsize (Z.of_nat k))) as [_|Hn]; [|contradiction].
  destruct (valid_draws_of_generator w k d n Hk) as [Hv Hlen].
  destruct (pick_total _ n (seq 0 n) Hv) as [ps Hps]; [now rewrite length_seq|].
  exists ps. split; [exact Hlen|]. split; [exact Hv|exact Hps].
Qed.

End World.

(** The entries at positions of a list are entries of it, and distinct
    positions of a list without repeats hold distinct entries. *)
Lemma at_positions_elem_of {A} (l : list A) ps res :
  Forall2 (fun p x => l !! p = Some x) ps res →
  ∀ x, x ∈ res → ∃ p, p ∈ ps ∧ l !! p = Some x.
Proof.
  induction 1 as [|p x ps res Hp _ IH]; intros y Hy.
  - now apply elem_of_nil in Hy.
  - apply elem_of_cons in Hy as [->|Hy].
    + exists p. split; [apply elem_of_cons; now left|exact Hp].
    + destruct (IH y Hy) as (q & Hq & Hl). exists q.
      split; [apply elem_of_cons; now right|exact Hl].
Qed.

Lemma at_positions_NoDup {A} (l : list A) ps res :
  Forall2 (fun p x => l !! p = Some x) ps res → NoDup ps → NoDup l → NoDup res.
Proof.
  intros H Hps Hl. induction H as [|p x ps res Hp Hrest IH].
  - constructor.
  - apply NoDup_cons in Hps as [Hnp Hps]. apply NoDup_cons. split; [|now apply IH].
    intros Hx. destruct (at_positions_elem_of l ps res Hrest x Hx) as (q & Hq & Hlq).
    assert (p = q) by (eapply NoDup_lookup; eassumption). now subst q.
Qed.

End SamplingFacts.


(** ** The resolvers: what the specification says of them *)

Module ResolverClaims.
Import Np Py Scryfall Pipeline Resolution PipelineFacts SamplingFacts Samples Scenarios.

(** C6 as the specification states it fails: for the split card
    [Fire // Ice] the set/number form is selected, its lookup finds nothing,
    and the name form, which would resolve, is never tried. *)
Lemma no_fallback_to_later_forms : ¬ first_success_wins sample_world.
Proof.
  intros H. specialize (H "Fire // Ice" initial_state).
  vm_compute in H. discriminate H.
Qed.

(** C6, amended. Identifier resolution selects one form by the fixed
    priority tests (the spec starts with [http], else it contains a slash,
    else it is a name) and makes the lookup of that form only; it returns
    the id that lookup yields, and [None] for every failure (an exception
    of the lookup or of the URL parser, no result, a path that is not
    [card/set/number], a record without an id); it never raises, makes at
    most one catalog call, and leaves the images and the token ids
    alone. *)
Theorem resolve_token_spec_dispatch (w : world) (spec : string) (s : run_state) :
  resolve_token_spec w spec s =
    (Ok (resolved_id w spec), with_calls s (resolution_calls w spec)) ∧
  (length (resolution_calls w spec) ≤ 1)%nat ∧
  (startswith (strip spec) "http" = true →
     resolved_id w spec = url_attempt w (strip spec)) ∧
  (startswith (strip spec) "http" = false → contains "/"%char (strip spec) = true →
     resolved_id w spec = shorthand_attempt w (strip spec)) ∧
  (startswith (strip spec) "http" = false → contains "/"%char (strip spec) = false →
     resolved_id w spec = name_attempt w (strip spec)).
Proof.
  split; [apply resolve_token_spec_run|]. split.
  - unfold resolution_calls.
    repeat match goal with
           | |- context [if ?b then _ else _] => destruct b
           | |- context [match ?x with _ => _ end] => destruct x
           end; simpl; lia.
  - unfold resolved_id, url_attempt, shorthand_attempt, name_attempt.
    split; [|split]; intros; repeat match goal with H : _ = _ |- _ => rewrite H end;
      reflexivity.
Qed.

(** C9 at the failing input: the deck line [Nope] resolves to nothing, and
    what [process_card] raises is the lookup's own exception, whose
    arguments do not name the input. *)
Lemma process_card_bare_reraise :
  cards_Named sample_world "Nope" = Raise not_found ∧
  process_card sample_world (DeckEntry "Nope" 2) true initial_state =
    (Raise not_found, with_calls initial_state [CallNamed "Nope"]) ∧
  exn_args not_found = ["No cards found matching the query"].
Proof. repeat split. Qed.

(** The card resolver adds nothing to a failure of the lookup: it raises the
    exception it caught. *)
Lemma lookup_failure_propagates (w : world) infos add_tokens s e :
  resolved_card w (strip (entry_name infos)) = Raise e →
  process_card w infos add_tokens s =
    (Raise e, with_calls s (lookup_calls w (strip (entry_name infos)))).
Proof.
  intros H. unfold process_card. rewrite run_bind, lookup_card_run, H. reflexivity.
Qed.

(** C5. A deck line whose card is not a basic land, with count [k]: the
    card resolver fetches one image (the one [CallGet] of the trace) and
    appends [k] copies of it; it adds to the token-id set the ids of the
    card's parts whose component is [token], and none when token collection
    is off. *)
Theorem process_card_non_land (w : world) infos (add_tokens : bool) s card_data tl url image ids :
  resolved_card w (strip (entry_name infos)) = Ok card_data →
  type_line card_data = Some tl → startswith tl "Basic Land" = false →
  image_uris_normal card_data = Some url → get_image w url = Ok image →
  (if add_tokens then get_tokens card_data else Ok ∅) = Ok ids →
  process_card w infos add_tokens s =
    (Ok tt,
     RunState (image_list s ++ repeat image (Z.to_nat (entry_count infos)))
       (token_ids s ∪ ids)
       (calls s ++ lookup_calls w (strip (entry_name infos)) ++ [CallGet url; CallSleep])
       (draws s)) ∧
  (add_tokens = true →
     ∀ id, id ∈ ids ↔
           ∃ p, p ∈ default [] (all_parts card_data) ∧
                part_component p = Some "token" ∧ part_id p = Some id) ∧
  (add_tokens = false → ids = ∅).
Proof.
  intros Hcard Htl Hland Hurl Hget Hids. split; [|split].
  - unfold process_card. rewrite run_bind, lookup_card_run, Hcard.
    rewrite run_bind. unfold lift at 1. rewrite Htl. cbn [getitem].
    rewrite Hland, !run_bind, run_fetch_image, Hurl, Hget.
    rewrite run_bind. unfold extend_images at 1.
    destruct add_tokens.
    + rewrite run_bind. unfold lift at 1. rewrite Hids.
      unfold add_token_ids, log, with_calls. cbn [image_list token_ids calls draws].
      now rewrite <- !app_assoc.
    + injection Hids as <-. unfold ret, log, with_calls.
      cbn [image_list token_ids calls draws].
      now rewrite <- !app_assoc, union_empty_r_L.
  - intros ->. unfold get_tokens in Hids. apply get_tokens_loop_ok in Hids.
    intros id. rewrite <- elem_of_token_part_ids. subst ids. set_solver.
  - intros ->. now injection Hids as <-.
Qed.

Lemma process_card_non_land_witness :
  process_card sample_world (DeckEntry "Raise the Alarm" 2) true initial_state =
    (Ok tt,
     RunState (image_list initial_state ++ repeat [[[checksum "img/alarm"]]] (Z.to_nat 2))
       (token_ids initial_state ∪ (∅ ∪ {[ "soldier-id" ]}))
       (calls initial_state ++ lookup_calls sample_world (strip "Raise the Alarm")
          ++ [CallGet "img/alarm"; CallSleep])
       (draws initial_state)) ∧
  (true = true →
     ∀ id, id ∈ (∅ ∪ {[ "soldier-id" ]} : gset string) ↔
           ∃ p, p ∈ default [] (all_parts alarm) ∧
                part_component p = Some "token" ∧ part_id p = Some id) ∧
  (true = false → (∅ ∪ {[ "soldier-id" ]} : gset string) = ∅).
Proof.
  apply (process_card_non_land sample_world (DeckEntry "Raise the Alarm" 2) true
           initial_state alarm "Instant" "img/alarm");
    reflexivity.
Defined.

(** C4. A deck line whose card is a basic land, with count [k], when the
    printing query returns [n] candidates. For [k > n] (or [k < 0]) the
    sampling raises [ValueError] and no image is appended. For
    [0 <= k <= n] the draws of the generator decide the sample: when the
    [m] draws the generator yields next select the positions [positions]
    (by the pool for [n <= setsize k], by redrawing on repeats for a
    larger [n], where the run is followed for [draw_limit] draws), the
    card resolver consumes these [m] draws and appends exactly [k] images,
    one per sampled printing, the sampled printings being the candidates
    at [positions], which are [k] distinct positions (no printing is
    repeated, and no two sampled printings are equal when the candidates
    are distinct). From the pool the [k] draws always select. The
    sampling is uniform: every ordered selection of [k] distinct positions
    is selected by some draws, and the draws selecting one and the draws
    selecting another correspond one to one, draw count for draw count. *)
Theorem process_card_basic_land (w : world) infos add_tokens s card_data tl candidates :
  resolved_card w (strip (entry_name infos)) = Ok card_data →
  type_line card_data = Some tl → startswith tl "Basic Land" = true →
  cards_Search w ("++" +:+ entry_name infos) = Ok candidates →
  let k := entry_count infos in
  let n := length candidates in
  let before_sampling :=
    lookup_calls w (strip (entry_name infos)) ++ [CallSearch ("++" +:+ entry_name infos)] in
  (k < 0 ∨ Z.of_nat n < k →
     process_card w infos add_tokens s =
       (Raise (ValueError "Sample larger than population or is negative"),
        RunState (image_list s) (token_ids s) (calls s ++ before_sampling) (draws s))) ∧
  (0 <= k <= Z.of_nat n → Forall (fun c => ∃ img, fetchable w c img) candidates →
     ∀ m positions,
       selects n (Z.to_nat k) (generator_draws w (draws s) n (Z.to_nat k) m) positions →
       (setsize k < Z.of_nat n → (m ≤ draw_limit w)%nat) →
       ∃ sampled imgs,
         process_card w infos add_tokens s =
           (Ok tt,
            RunState (image_list s ++ imgs) (token_ids s)
              (calls s ++ before_sampling ++ fetch_calls sampled ++ [CallSleep])
              (draws s + m)) ∧
         Forall2 (fun p c => candidates !! p = Some c) positions sampled ∧
         ordered_selection n (Z.to_nat k) positions ∧
         length sampled = Z.to_nat k ∧ length imgs = Z.to_nat k ∧
         (NoDup candidates → NoDup sampled) ∧
         Forall2 (fetchable w) sampled imgs) ∧
  (0 <= k <= Z.of_nat n → Z.of_nat n <= setsize k →
     ∃ positions,
       selects n (Z.to_nat k)
         (generator_draws w (draws s) n (Z.to_nat k) (Z.to_nat k)) positions) ∧
  (∀ ps ps', ordered_selection n (Z.to_nat k) ps → ordered_selection n (Z.to_nat k) ps' →
     (∃ js, selects n (Z.to_nat k) js ps) ∧ equally_likely n (Z.to_nat k) ps ps').
Proof.
  intros Hcard Htl Hland Hsearch k n before_sampling.
  assert (Hrun :
            process_card w infos add_tokens s =
              ((sampled ← random_sample w candidates k; extend_map (fetch_image w) sampled)
                 ≫= (fun _ => log CallSleep))
                (RunState (image_list s) (token_ids s) (calls s ++ before_sampling) (draws s))).
  { unfold process_card. rewrite run_bind, lookup_card_run, Hcard.
    rewrite run_bind. unfold lift at 1. rewrite Htl. cbn [getitem].
    rewrite Hland. rewrite !run_bind, run_Search, Hsearch.
    unfold with_calls. cbn [image_list token_ids calls draws].
    subst before_sampling. now rewrite <- !app_assoc. }
  split; [|split; [|split]].
  - intros Hk. rewrite Hrun, !run_bind, random_sample_raises by exact Hk. reflexivity.
  - intros Hk Hfetch m positions Hsel Hlimit.
    destruct (random_sample_selects w candidates k
                (RunState (image_list s) (token_ids s) (calls s ++ before_sampling) (draws s))
                m positions Hk Hsel Hlimit)
      as (sampled & Hsample & Hat & Hord).
    cbn [image_list token_ids calls draws] in Hsample.
    assert (Hlen : length sampled = Z.to_nat k).
    { rewrite <- (Forall2_length _ _ _ Hat). apply Hord. }
    assert (Hsub : Forall (fun c => ∃ img, fetchable w c img) sampled).
    { rewrite List.Forall_forall in Hfetch. apply List.Forall_forall. intros c Hc.
      apply list_elem_of_In in Hc.
      destruct (at_positions_elem_of candidates positions sampled Hat c Hc) as (p & _ & Hp).
      apply Hfetch. apply list_elem_of_In. eapply list_elem_of_lookup_2. exact Hp. }
    destruct (Forall_fetchable_images w sampled Hsub) as [imgs Himgs].
    exists sampled, imgs.
    split; [|split; [exact Hat|split; [exact Hord|split; [exact Hlen|split; [|split; [|exact Himgs]]]]]].
    + rewrite Hrun, !run_bind, Hsample.
      rewrite (extend_map_fetch w sampled imgs _ Himgs).
      unfold log. cbn [image_list token_ids calls draws].
      now rewrite <- !app_assoc.
    + rewrite <- Hlen. symmetry. eapply Forall2_length. exact Himgs.
    + intros Hnd. eapply at_positions_NoDup; [exact Hat|apply Hord|exact Hnd].
  - intros Hk Hpool.
    apply pool_always_selects; [lia|now rewrite Z2Nat.id by lia].
  - intros ps ps' Hps Hps'. now apply selection_equally_likely.
Qed.

Lemma process_card_basic_land_witness :
  ∃ sampled imgs,
    process_card repeating_world (DeckEntry "Island" 2) true initial_state =
      (Ok tt,
       RunState (image_list initial_state ++ imgs) (token_ids initial_state)
         (calls initial_state
            ++ (lookup_calls repeating_world (strip "Island") ++ [CallSearch "++Island"])
            ++ fetch_calls sampled ++ [CallSleep])
         (draws initial_state + 3)) ∧
    Forall2 (fun p c => printings !! p = Some c) [0; 5]%nat sampled ∧
    ordered_selection (length printings) 2 [0; 5]%nat ∧
    length sampled = 2%nat ∧ length imgs = 2%nat ∧
    (NoDup printings → NoDup sampled) ∧
    Forall2 (fetchable repeating_world) sampled imgs.
Proof.
  destruct (process_card_basic_land repeating_world (DeckEntry "Island" 2) true
              initial_state (island "1") "Basic Land — Island" printings
              eq_refl eq_refl eq_refl eq_refl) as (_ & Hsampled & _).
  apply (Hsampled ltac:(simpl; lia)).
  - repeat (constructor; [eexists; eexists; split; reflexivity|]). constructor.
  - unfold selects, generator_draws.
    change (setsize (Z.of_nat (Z.to_nat (entry_count (DeckEntry "Island" 2))))) with 21.
    destruct (decide (Z.of_nat (length printings) <= 21)) as [Hle|_];
      [simpl in Hle; lia|].
    split; [repeat constructor; simpl; lia|reflexivity].
  - intros _. simpl. lia.
Defined.

(** The sample above, run: of 22 printings the draws 0, 0 and 5 select the
    first and the sixth, the repeated 0 being drawn again. *)
Example two_of_many_printings :
  random_sample repeating_world printings 2 initial_state =
    (Ok [island "a"; island "f"], RunState [] ∅ [] 3).
Proof. vm_compute. reflexivity. Qed.

(** From a pool of three printings the draws 0 and 1 select the first and
    the second: after the first pick the third printing stands at position
    0 and the second at position 1. *)
Example two_of_three_printings :
  random_sample sample_world [island "1"; island "2"; island "3"] 2 initial_state =
    (Ok [island "1"; island "2"], RunState [] ∅ [] 2).
Proof. vm_compute. reflexivity. Qed.

(** C7. In a run with token collection on, the token-id set after the card
    phase is the union of the forced ids and of the ids the deck lines
    contribute, so an id is in it once however many cards name it; the
    token phase looks each id of the set up once and fetches its image
    once, appends two copies of that image, and does so after all the card
    images; the images laid out are the card images followed by the token
    images. *)
Theorem tokens_deduplicated (w : world) a deck forced s1 url_of img_of :
  no_tokens a = false →
  card_phase w a deck initial_state = (Ok forced, s1) →
  (∀ id, id ∈ token_ids s1 → token_resolves w id (url_of id) (img_of id)) →
  let ids := elements (token_ids s1) in
  let s2 := RunState (image_list s1 ++ token_images img_of ids) (token_ids s1)
              (calls s1 ++ token_calls url_of ids) (draws s1) in
  token_ids s1 = forced ∪ ⋃ (card_token_ids w true <$> deck) ∧
  NoDup ids ∧
  (∀ id, id ∈ token_ids s1 →
     length (filter (fun x => x = id) ids) = 1%nat ∧
     length (filter (fun c => c = CallId id) (token_calls url_of ids)) = 1%nat) ∧
  token_phase w a forced s1 = (Ok tt, s2) ∧
  main w a deck initial_state =
    (Layout.tile_in_pages (image_list s1 ++ token_images img_of ids), s2).
Proof.
  intros Hno Hcards Hres ids s2.
  assert (Hnd : NoDup ids) by apply NoDup_elements.
  assert (Hphase : token_phase w a forced s1 = (Ok tt, s2)).
  { unfold token_phase. rewrite run_bind. unfold get_token_ids at 1.
    rewrite Hno. cbn [negb andb].
    destruct (nonempty (token_ids s1) || nonempty forced) eqn:Hcond.
    - apply for_each_process_token. apply List.Forall_forall. intros id Hin.
      apply Hres. apply elem_of_elements. now apply list_elem_of_In.
    - apply orb_false_iff in Hcond as [Hempty _].
      unfold nonempty in Hempty. apply bool_decide_eq_false in Hempty.
      assert (He : token_ids s1 = ∅) by (destruct (decide (token_ids s1 = ∅)); [assumption|contradiction]).
      subst s2 ids. rewrite He, elements_empty. unfold ret, token_images, token_calls.
      simpl. rewrite !app_nil_r. destruct s1; simpl in *. now subst.
  }
  split; [|split; [exact Hnd|split; [|split; [exact Hphase|]]]].
  - rewrite (card_phase_token_ids w a deck forced s1 Hcards). now rewrite Hno.
  - intros id Hid. rewrite token_calls_count.
    split; apply filter_eq_once; try assumption; now apply elem_of_elements.
  - unfold main. rewrite run_bind, Hcards, run_bind, Hphase. reflexivity.
Qed.

Lemma tokens_deduplicated_witness :
  let a := Args false [] in
  let deck := [DeckEntry "Raise the Alarm" 1; DeckEntry "Captain's Call" 2] in
  let s1 := snd (card_phase sample_world a deck initial_state) in
  let url_of := fun _ : string => "img/soldier" in
  let img_of := fun _ : string => [[[checksum "img/soldier"]]] in
  let ids := elements (token_ids s1) in
  let s2 := RunState (image_list s1 ++ token_images img_of ids) (token_ids s1)
              (calls s1 ++ token_calls url_of ids) (draws s1) in
  token_ids s1 = ∅ ∪ ⋃ (card_token_ids sample_world true <$> deck) ∧
  NoDup ids ∧
  (∀ id, id ∈ token_ids s1 →
     length (filter (fun x => x = id) ids) = 1%nat ∧
     length (filter (fun c => c = CallId id) (token_calls url_of ids)) = 1%nat) ∧
  token_phase sample_world a ∅ s1 = (Ok tt, s2) ∧
  main sample_world a deck initial_state =
    (Layout.tile_in_pages (image_list s1 ++ token_images img_of ids), s2).
Proof.
  apply (tokens_deduplicated sample_world (Args false [])
           [DeckEntry "Raise the Alarm" 1; DeckEntry "Captain's Call" 2] ∅
           (snd (card_phase sample_world (Args false [])
                   [DeckEntry "Raise the Alarm" 1; DeckEntry "Captain's Call" 2]
                   initial_state))
           (fun _ => "img/soldier") (fun _ => [[[checksum "img/soldier"]]]));
    [reflexivity | vm_compute; reflexivity |].
  intros id Hid. vm_compute in Hid.
  exists (ScryObject soldier).
  assert (id = "soldier-id") as ->.
  { revert Hid. change (id ∈ ({[ "soldier-id" ]} : gset string) → id = "soldier-id").
    apply elem_of_singleton. }
  repeat split.
Defined.

(** X1. For a population of at most [setsize k] entries, which
    [random.sample] selects from a pool, the sample is [pick] of the draws
    the generator yields; on a population of distinct entries [pick] is
    one-to-one on the draws the generator can yield, and every selection
    of [k] distinct entries, in every order, is the sample of some draws.
    Draws that are uniform therefore give every ordered selection the same
    chance. *)
Theorem sample_determined_by_draws {A} (w : world) (population : list A) (k : nat) s :
  NoDup population → (k ≤ length population)%nat →
  Z.of_nat (length population) <= setsize (Z.of_nat k) →
  let n := length population in
  (∃ res, fst (random_sample w population (Z.of_nat k) s) = Ok res ∧
          pick (draws_of w (draws s) k n) n population = Some res ∧
          valid_draws (draws_of w (draws s) k n) n) ∧
  (∀ js js', valid_draws js n → valid_draws js' n →
             pick js n population = pick js' n population → js = js') ∧
  (∀ target, NoDup target → length target = k →
             (∀ x, x ∈ target → x ∈ population) →
             ∃ js, valid_draws js n ∧ length js = k ∧
                   pick js n population = Some target).
Proof.
  intros Hnd Hk Hpool n. subst n. split; [|split].
  - destruct (sample_loop_pick w k (length population) population s Hk ltac:(lia))
      as (res & Hrun & Hpick).
    exists res. split; [|split; [exact Hpick|]].
    + rewrite random_sample_pool by (try exact Hpool; lia). now rewrite Nat2Z.id.
    + now apply valid_draws_of_generator.
  - intros js js' Hv Hv' Heq.
    apply (pick_injective js js' (length population) population); try assumption; [|lia].
    now rewrite firstn_all.
  - intros target Htarget Hlen Hsub.
    destruct (pick_surjective target (length population) population Htarget)
      as (js & Hv & Hl & Hpick);
      [now rewrite firstn_all | now rewrite firstn_all | lia |].
    exists js. rewrite Hl, Hlen. auto.
Qed.

Lemma sample_determined_by_draws_witness :
  let population := [island "1"; island "2"; island "3"] in
  let n := length population in
  (∃ res, fst (random_sample sample_world population (Z.of_nat 2) initial_state) = Ok res ∧
          pick (draws_of sample_world (draws initial_state) 2 n) n population = Some res ∧
          valid_draws (draws_of sample_world (draws initial_state) 2 n) n) ∧
  (∀ js js', valid_draws js n → valid_draws js' n →
             pick js n population = pick js' n population → js = js') ∧
  (∀ target, NoDup target → length target = 2%nat →
             (∀ x, x ∈ target → x ∈ population) →
             ∃ js, valid_draws js n ∧ length js = 2%nat ∧
                   pick js n population = Some target).
Proof.
  apply (sample_determined_by_draws sample_world [island "1"; island "2"; island "3"] 2
           initial_state); [|simpl; lia|vm_compute; discriminate].
  apply NoDup_ListNoDup. repeat constructor; simpl; intuition discriminate.
Defined.

(** X2. A set and a collector number resolve to the same id whether they are
    written as a catalog URL or as [set/number]: both forms make the same
    query and return its first result's id. *)
Theorem resolution_form_independent (w : world) url path set_code number rest shorthand s s' :
  startswith (strip url) "http" = true →
  urlparse_path w (strip url) = Ok path →
  split "/"%char (strip_char "/"%char path) = "card" :: set_code :: number :: rest →
  startswith (strip shorthand) "http" = false →
  split_once "/"%char (strip shorthand) = [set_code; number] →
  fst (resolve_token_spec w url s) = Ok (search_id w (set_number_query set_code number)) ∧
  fst (resolve_token_spec w shorthand s') = fst (resolve_token_spec w url s) ∧
  resolution_calls w url = [CallSearch (set_number_query set_code number)] ∧
  resolution_calls w shorthand = resolution_calls w url.
Proof.
  intros Hurl Hpath Hparts Hshort Hsplit.
  assert (Hc : contains "/"%char (strip shorthand) = true).
  { destruct (contains "/"%char (strip shorthand)) eqn:Hc; [reflexivity|].
    rewrite (split_once_without_separator _ _ Hc) in Hsplit. discriminate Hsplit. }
  rewrite !resolve_token_spec_run. cbn [fst].
  unfold resolved_id, resolution_calls.
  rewrite Hurl, Hpath, Hparts, Hshort, Hc, Hsplit. cbn.
  repeat split.
Qed.

Lemma resolution_form_independent_witness :
  let url := "https://scryfall.com/card/m11/34/raise-the-alarm" in
  fst (resolve_token_spec sample_world url initial_state) =
    Ok (search_id sample_world (set_number_query "m11" "34")) ∧
  fst (resolve_token_spec sample_world "m11/34" initial_state) =
    fst (resolve_token_spec sample_world url initial_state) ∧
  resolution_calls sample_world url = [CallSearch (set_number_query "m11" "34")] ∧
  resolution_calls sample_world "m11/34" = resolution_calls sample_world url.
Proof.
  apply (resolution_form_independent sample_world
           "https://scryfall.com/card/m11/34/raise-the-alarm"
           "/card/m11/34/raise-the-alarm" "m11" "34" ["raise-the-alarm"] "m11/34");
    reflexivity.
Defined.

(** The first scenario of the specification: three Islands and two copies of
    a spell, no tokens, give five images and one page of nine cells. *)
Example three_islands_two_spells :
  let deck := [DeckEntry "Raise the Alarm" 2; DeckEntry "Island" 3] in
  let run := main sample_world (Args true []) deck initial_state in
  length (image_list (snd run)) = 5%nat ∧
  token_ids (snd run) = ∅ ∧
  (∃ pages, fst run = Ok pages ∧ length (data pages) = 1%nat ∧
            Geometry.untile 0 0 1 1 (data pages) =
              image_list (snd run) ++ repeat (Geometry.filler (1, 1, 1)%nat) 4).
Proof.
  vm_compute. split; [reflexivity|]. split; [reflexivity|].
  eexists. split; [reflexivity|]. split; reflexivity.
Qed.

End ResolverClaims.

(** ** Facts about Python strings *)

Module StringFacts.
Import Py.

Lemma string_of_list_app l1 l2 :
  String.string_of_list_ascii (l1 ++ l2) =
    (String.string_of_list_ascii l1 +:+ String.string_of_list_ascii l2).
Proof. induction l1 as [|a l1 IH]; simpl; [reflexivity|]. now rewrite IH. Qed.

Lemma reverse_cons a s : reverse (String a s) = (reverse s +:+ String a "").
Proof. unfold reverse. simpl. now rewrite string_of_list_app. Qed.

Lemma list_of_string_app s1 s2 :
  String.list_ascii_of_string (s1 +:+ s2) =
    String.list_ascii_of_string s1 ++ String.list_ascii_of_string s2.
Proof. induction s1 as [|a s1 IH]; simpl; [reflexivity|]. now rewrite IH. Qed.

Lemma reverse_snoc a s : reverse (s +:+ String a "") = String a (reverse s).
Proof. unfold reverse. rewrite list_of_string_app, rev_app_distr. reflexivity. Qed.

Lemma reverse_involutive s : reverse (reverse s) = s.
Proof.
  unfold reverse. rewrite String.list_ascii_of_string_of_list_ascii, rev_involutive.
  apply String.string_of_list_ascii_of_string.
Qed.

Lemma lstrip_idem p s : lstrip_with p (lstrip_with p s) = lstrip_with p s.
Proof.
  induction s as [|a s IH]; simpl; [reflexivity|].
  destruct (p a) eqn:E; [exact IH|]. simpl. now rewrite E.
Qed.

Lemma rstrip_idem p s : rstrip_with p (rstrip_with p s) = rstrip_with p s.
Proof. unfold rstrip_with. now rewrite reverse_involutive, lstrip_idem. Qed.

Lemma lstrip_head p s :
  lstrip_with p s = "" ∨ ∃ a u, lstrip_with p s = String a u ∧ p a = false.
Proof.
  induction s as [|a s IH]; simpl; [now left|].
  destruct (p a) eqn:E; [exact IH|]. right. eauto.
Qed.

Lemma lstrip_snoc p s a :
  p a = false → lstrip_with p (s +:+ String a "") = (lstrip_with p s +:+ String a "").
Proof.
  intros Ha. induction s as [|b s IH]; simpl; [now rewrite Ha|].
  destruct (p b); [exact IH|reflexivity].
Qed.

(** Stripping the end leaves a stripped start alone. *)
Lemma lstrip_rstrip p u :
  lstrip_with p u = u → lstrip_with p (rstrip_with p u) = rstrip_with p u.
Proof.
  intros Hu. destruct (lstrip_head p u) as [He|(a & u' & He & Ha)]; rewrite Hu in He.
  - subst u. reflexivity.
  - subst u. unfold rstrip_with.
    rewrite reverse_cons, lstrip_snoc, reverse_snoc by exact Ha.
    simpl. now rewrite Ha.
Qed.

Lemma strip_idem s : strip (strip s) = strip s.
Proof.
  unfold strip.
  rewrite (lstrip_rstrip is_space (lstrip_with is_space s)) by apply lstrip_idem.
  apply rstrip_idem.
Qed.

Lemma split_once_with_separator c s :
  contains c s = true →
  ∃ a b, split_once c s = [a; b] ∧ s = (a +:+ String c b) ∧ contains c a = false.
Proof.
  induction s as [|x s IH]; simpl; [discriminate|].
  destruct (Ascii.eqb c x) eqn:E.
  - intros _. apply Ascii.eqb_eq in E. subst x. exists "", s. auto.
  - simpl. intros H. destruct (IH H) as (a & b & Hs & -> & Ha).
    rewrite Hs. exists (String x a), b. simpl. rewrite E, Ha. auto.
Qed.

Lemma contains_not_all_digits c s :
  is_digit c = false → contains c s = true → all_digits s = false.
Proof.
  intros Hc. induction s as [|x s IH]; simpl; [discriminate|].
  destruct (Ascii.eqb c x) eqn:E.
  - apply Ascii.eqb_eq in E. subst x. now rewrite Hc.
  - simpl. intros H. rewrite (IH H). apply andb_false_r.
Qed.

Lemma slash_not_isdigit s : contains "/"%char s = true → isdigit s = false.
Proof.
  intros H. unfold isdigit. destruct s; [reflexivity|].
  now apply (contains_not_all_digits "/"%char).
Qed.

End StringFacts.

(** ** The layout engine: further properties *)

Module LayoutProperties.
Import Np PyFloat Layout Geometry FloatFacts LayoutFacts UntileFacts Samples.

Lemma concat_lookup_uniform {A} n (ls : list (list A)) k x :
  Forall (fun l => length l = n) ls → (0 < n)%nat → concat ls !! k = Some x →
  ∃ l, ls !! (k / n)%nat = Some l ∧ l !! (k mod n)%nat = Some x.
Proof.
  intros Hall Hn. revert k. induction Hall as [|l ls Hl _ IH]; intros k H; [discriminate H|].
  simpl in H. destruct (decide (k < n)%nat) as [Hk|Hk].
  - rewrite lookup_app_l in H by lia.
    exists l. rewrite Nat.div_small, Nat.mod_small by lia. auto.
  - rewrite lookup_app_r in H by lia. rewrite Hl in H.
    destruct (IH _ H) as (l' & Hl' & Hx). exists l'.
    assert (Hd : (k / n = S ((k - n) / n))%nat).
    { replace k with (1 * n + (k - n))%nat at 1 by lia. now rewrite Nat.div_add_l by lia. }
    assert (Hm : (k mod n = (k - n) mod n)%nat).
    { replace k with ((k - n) + 1 * n)%nat at 1 by lia. apply Nat.Div0.mod_add. }
    rewrite Hd, Hm. auto.
Qed.

Lemma map_lookup_Some {A B} (f : A → B) l i y :
  map f l !! i = Some y → ∃ x, l !! i = Some x ∧ y = f x.
Proof.
  revert i. induction l as [|a l IH]; intros [|i] H; try discriminate H.
  - injection H as <-. eauto.
  - apply IH. exact H.
Qed.

Lemma split_columns_length n w band : length (split_columns n w band) = n.
Proof. revert band. induction n as [|n IH]; intros band; simpl; [reflexivity|]. now rewrite IH. Qed.

Lemma split_columns_lookup n w : ∀ band C cell,
  split_columns n w band !! C = Some cell →
  cell = map (fun r : list (list Z) => take w (drop (C * w) r)) band.
Proof.
  induction n as [|n IH]; intros band C cell H; [discriminate H|].
  destruct C as [|C]; simpl in H.
  - injection H as <-. reflexivity.
  - apply IH in H. subst cell. rewrite map_map. apply map_ext. intros r.
    rewrite drop_drop. reflexivity.
Qed.

Lemma crop_lookup top left h w img a r b px :
  crop top left h w img !! a = Some r → r !! b = Some px →
  ∃ prow, img !! (top + a)%nat = Some prow ∧ prow !! (left + b)%nat = Some px.
Proof.
  unfold crop. intros Hr Hpx. apply map_lookup_Some in Hr as (prow & Hrow & ->).
  apply lookup_take_Some in Hrow as [Hrow _]. rewrite lookup_drop in Hrow.
  apply lookup_take_Some in Hpx as [Hpx _]. rewrite lookup_drop in Hpx. eauto.
Qed.

(** Where a page holds the pixels of its [k]-th cell. *)
Lemma untile_page_lookup mh mw h w page k cell y r x px :
  untile_page mh mw h w page !! k = Some cell →
  cell !! y = Some r → r !! x = Some px →
  ∃ prow, page !! (mh + (k / 3 * h + y))%nat = Some prow ∧
          prow !! (mw + (k mod 3 * w + x))%nat = Some px.
Proof.
  unfold untile_page, split_cells. intros Hcell Hr Hpx.
  apply (concat_lookup_uniform 3) in Hcell as (cols & Hcols & Hcell); [| |lia].
  2:{ apply List.Forall_forall. intros l Hl. apply in_map_iff in Hl as (band & <- & _).
      apply split_columns_length. }
  apply map_lookup_Some in Hcols as (band & Hband & ->).
  apply split_columns_lookup in Hcell. subst cell.
  apply map_lookup_Some in Hr as (r0 & Hr0 & ->).
  apply lookup_take_Some in Hpx as [Hpx _]. rewrite lookup_drop in Hpx.
  assert (HR : (k / 3 < ROWS_PER_PAGE)%nat).
  { apply lookup_lt_Some in Hband. now rewrite chunks_aux_length in Hband. }
  rewrite chunks_aux_lookup in Hband by exact HR. injection Hband as <-.
  apply lookup_take_Some in Hr0 as [Hr0 _]. rewrite lookup_drop in Hr0.
  exact (crop_lookup _ _ _ _ _ _ _ _ _ Hr0 Hpx).
Qed.

Lemma untile_lookup mh mw h w pages i cell y r x px :
  untile mh mw h w pages !! i = Some cell →
  cell !! y = Some r → r !! x = Some px →
  ∃ page prow,
    pages !! (i / 9)%nat = Some page ∧
    page !! (mh + (i mod 9 / 3 * h + y))%nat = Some prow ∧
    prow !! (mw + (i mod 3 * w + x))%nat = Some px.
Proof.
  unfold untile. intros Hcell Hr Hpx.
  apply (concat_lookup_uniform 9) in Hcell as (cells & Hcells & Hcell); [| |lia].
  2:{ apply List.Forall_forall. intros l Hl. apply in_map_iff in Hl as (page & <- & _).
      unfold untile_page, split_cells.
      rewrite (concat_length_uniform 3).
      - now rewrite length_map, chunks_aux_length.
      - apply List.Forall_forall. intros l Hl. apply in_map_iff in Hl as (band & <- & _).
        apply split_columns_length. }
  apply map_lookup_Some in Hcells as (page & Hpage & ->).
  destruct (untile_page_lookup _ _ _ _ _ _ _ _ _ _ _ Hcell Hr Hpx) as (prow & Hrow & Hp).
  exists page, prow. split; [exact Hpage|]. split; [exact Hrow|].
  replace (i mod 3)%nat with (i mod 9 mod 3)%nat; [exact Hp|].
  change 9%nat with (3 * 3)%nat. rewrite Nat.Div0.mod_mul_r.
  rewrite Nat.mul_comm, Nat.Div0.mod_add. apply Nat.Div0.mod_mod.
Qed.

Lemma pad_cell_lookup ph pw w c img y r x px :
  img !! y = Some r → r !! x = Some px →
  ∃ prow, pad_cell ph pw w c img !! (ph + y)%nat = Some prow ∧
          prow !! (pw + x)%nat = Some px.
Proof.
  intros Hr Hpx. unfold pad_cell, white_rows, white_row.
  exists (repeat (white_pixel c) pw ++ r). split.
  - rewrite lookup_app_r; rewrite repeat_length; [|lia].
    replace (ph + y - ph)%nat with y by lia.
    change (map ?f img) with (f <$> img). now rewrite list_lookup_fmap, Hr.
  - rewrite lookup_app_r; rewrite repeat_length; [|lia].
    now replace (pw + x - pw)%nat with x by lia.
Qed.

(** What [tile_in_pages] returns comes apart into the padded cells. *)
Lemma tile_in_pages_untile image_list h w c :
  image_list ≠ [] → same_shape image_list →
  shape3 (hd [] image_list) = (h, w, c) → decodable h → decodable w →
  ∃ (pages : ndarray) (ph pw mh mw : nat),
    tile_in_pages image_list = Ok pages ∧
    card_pad_height h = Ok (Z.of_nat ph) ∧ card_pad_width w = Ok (Z.of_nat pw) ∧
    margin_height (ph + h) = Ok (Z.of_nat mh) ∧
    margin_width (pw + w) = Ok (Z.of_nat mw) ∧
    untile mh mw (ph + h) (pw + w) (data pages) =
      map (pad_cell ph pw w c)
        (image_list ++ repeat (filler (h, w, c)) (nb_missing image_list)).
Proof.
  intros Hne Hsame Hs Hh Hw.
  destruct (tile_in_pages_layout image_list h w c Hne Hsame Hs Hh Hw)
    as (ph & pw & mh & mw & Hph & Hpw & Hmh & Hmw & Htile).
  eexists _, ph, pw, mh, mw. split; [exact Htile|].
  repeat (split; [assumption|]). cbn [data].
  unfold same_shape in Hsame. rewrite Hs in Hsame.
  pose proof (same_shape_raster _ _ _ _ Hsame) as Hrast.
  destruct (padded_length (length image_list)) as [_ Hdiv].
  apply (untile_tile mh mw (ph + h) (pw + w) c _ (length image_list / 9 + 1)).
  - rewrite length_map, length_app, repeat_length.
    unfold nb_missing. change CARDS_PER_PAGE with 9%nat.
    pose proof (Nat.div_mod_eq (length image_list) 9).
    pose proof (Nat.mod_upper_bound (length image_list) 9 ltac:(lia)). lia.
  - apply List.Forall_forall. intros cell Hin. apply in_map_iff in Hin.
    destruct Hin as (img & <- & Hin). apply pad_cell_raster.
    apply in_app_iff in Hin. destruct Hin as [Hin|Hin].
    + rewrite List.Forall_forall in Hrast. now apply Hrast.
    + apply repeat_spec in Hin. subst img. apply filler_raster.
Qed.

(** X5. Where each card is printed: pixel [(y, x)] of the [i]-th image is
    the pixel of page [i / 9] at row
    [mh + (i mod 9 / 3) * (ph + h) + ph + y] and column
    [mw + (i mod 3) * (pw + w) + pw + x], for the margins [mh], [mw] and
    the card padding [ph], [pw] of the images' shape. *)
Theorem card_pixel_position image_list h w c :
  image_list ≠ [] → same_shape image_list →
  shape3 (hd [] image_list) = (h, w, c) → decodable h → decodable w →
  ∃ (pages : ndarray) (ph pw mh mw : nat),
    tile_in_pages image_list = Ok pages ∧
    card_pad_height h = Ok (Z.of_nat ph) ∧ card_pad_width w = Ok (Z.of_nat pw) ∧
    margin_height (ph + h) = Ok (Z.of_nat mh) ∧
    margin_width (pw + w) = Ok (Z.of_nat mw) ∧
    ∀ (i : nat) img (y : nat) r (x : nat) px,
      image_list !! i = Some img → img !! y = Some r → r !! x = Some px →
      ∃ page prow,
        data pages !! (i / 9)%nat = Some page ∧
        page !! (mh + (i mod 9 / 3) * (ph + h) + ph + y)%nat = Some prow ∧
        prow !! (mw + (i mod 3) * (pw + w) + pw + x)%nat = Some px.
Proof.
  intros Hne Hsame Hs Hh Hw.
  destruct (tile_in_pages_untile image_list h w c Hne Hsame Hs Hh Hw)
    as (pages & ph & pw & mh & mw & Htile & Hph & Hpw & Hmh & Hmw & Hun).
  exists pages, ph, pw, mh, mw. repeat (split; [assumption|]).
  intros i img y r x px Himg Hr Hpx.
  destruct (pad_cell_lookup ph pw w c img y r x px Hr Hpx) as (prow & Hprow & Hp).
  assert (Hcell : untile mh mw (ph + h) (pw + w) (data pages) !! i =
                    Some (pad_cell ph pw w c img)).
  { rewrite Hun. change (map ?f ?l) with (f <$> l).
    rewrite list_lookup_fmap, lookup_app_l by (now apply lookup_lt_Some in Himg).
    now rewrite Himg. }
  destruct (untile_lookup _ _ _ _ _ _ _ _ _ _ _ Hcell Hprow Hp) as (page & row' & H1 & H2 & H3).
  exists page, row'. split; [exact H1|]. split.
  - rewrite <- H2. f_equal. lia.
  - rewrite <- H3. f_equal. lia.
Qed.



Lemma card_pixel_position_witness :
  ∃ (pages : ndarray) (ph pw mh mw : nat),
    tile_in_pages [img_a; img_b] = Ok pages ∧
    card_pad_height 2 = Ok (Z.of_nat ph) ∧ card_pad_width 2 = Ok (Z.of_nat pw) ∧
    margin_height (ph + 2) = Ok (Z.of_nat mh) ∧
    margin_width (pw + 2) = Ok (Z.of_nat mw) ∧
    ∀ (i : nat) img (y : nat) r (x : nat) px,
      [img_a; img_b] !! i = Some img → img !! y = Some r → r !! x = Some px →
      ∃ page prow,
        data pages !! (i / 9)%nat = Some page ∧
        page !! (mh + (i mod 9 / 3) * (ph + 2) + ph + y)%nat = Some prow ∧
        prow !! (mw + (i mod 3) * (pw + 2) + pw + x)%nat = Some px.
Proof.
  apply (card_pixel_position [img_a; img_b] 2 2 1);
    [discriminate | reflexivity | reflexivity | reflexivity | reflexivity].
Defined.

(** X3. Images of more than one shape cannot be stacked: when some image
    has not the shape of the first one, the layout engine raises
    [ValueError] and returns no page. *)
Theorem tile_in_pages_mixed_shapes image_list :
  image_list ≠ [] → ¬ same_shape image_list →
  ∃ e, tile_in_pages image_list = Raise e ∧ exn_class e = "ValueError".
Proof.
  intros Hne Hmixed. unfold tile_in_pages, pad_cards, stack_with_filler.
  destruct image_list as [|img rest]; [done|]. simpl first_image. rewrite bind_Ok.
  unfold asarray. unfold same_shape in Hmixed.
  destruct (forallb _ _); [done|]. eexists. split; reflexivity.
Qed.

Lemma tile_in_pages_mixed_shapes_witness :
  ∃ e, tile_in_pages [img_a; img_tall] = Raise e ∧ exn_class e = "ValueError".
Proof.
  apply (tile_in_pages_mixed_shapes [img_a; img_tall]);
    [discriminate | vm_compute; discriminate].
Defined.

#[local] Abbreviation solid_row w c :=
  (fun r : list (list Z) => length r = w ∧ Forall (fun p : list Z => length p = c) r).

Lemma has_shape_spec h w c img :
  has_shape (h, w, c) img = true ↔ length img = h ∧ Forall (solid_row w c) img.
Proof.
  unfold has_shape. rewrite andb_true_iff, Nat.eqb_eq, forallb_forall, List.Forall_forall.
  split; intros [Hh Hrows]; (split; [exact Hh|]); intros r Hr; specialize (Hrows r Hr).
  - apply andb_true_iff in Hrows as [Hw Hc]. apply Nat.eqb_eq in Hw.
    split; [exact Hw|]. apply List.Forall_forall. intros p Hp.
    rewrite forallb_forall in Hc. apply Nat.eqb_eq. now apply Hc.
  - destruct Hrows as [Hw Hc]. apply andb_true_iff. split; [now apply Nat.eqb_eq|].
    apply forallb_forall. intros p Hp. rewrite List.Forall_forall in Hc.
    apply Nat.eqb_eq. now apply Hc.
Qed.

Lemma white_row_solid w c : solid_row w c (white_row w c).
Proof.
  unfold white_row, white_pixel. split; [apply repeat_length|].
  apply List.Forall_forall. intros p Hp. apply repeat_spec in Hp. subst p. apply repeat_length.
Qed.

Lemma white_rows_solid n w c : Forall (solid_row w c) (white_rows n w c).
Proof.
  apply List.Forall_forall. intros r Hr. apply repeat_spec in Hr. subst r.
  apply white_row_solid.
Qed.

Lemma solid_row_app w1 w2 c (r1 r2 : list (list Z)) :
  solid_row w1 c r1 → solid_row w2 c r2 → solid_row (w1 + w2)%nat c (r1 ++ r2).
Proof.
  intros [H1 Hc1] [H2 Hc2]. split; [rewrite length_app; lia|].
  apply Forall_app. auto.
Qed.

Lemma pad_cell_has_shape ph pw h w c img :
  has_shape (h, w, c) img = true →
  has_shape ((ph + h)%nat, (pw + w)%nat, c) (pad_cell ph pw w c img) = true.
Proof.
  rewrite !has_shape_spec. intros [Hh Hrows]. unfold pad_cell. split.
  - unfold white_rows. rewrite length_app, repeat_length, length_map. lia.
  - apply Forall_app. split; [apply white_rows_solid|].
    apply List.Forall_forall. intros r Hr. apply in_map_iff in Hr as (r0 & <- & Hr0).
    rewrite List.Forall_forall in Hrows.
    apply solid_row_app; [apply white_row_solid|now apply Hrows].
Qed.

Lemma filler_has_shape h w c : has_shape (h, w, c) (filler (h, w, c)) = true.
Proof.
  apply has_shape_spec. unfold filler, full3. split; [apply repeat_length|].
  apply List.Forall_forall. intros r Hr. apply repeat_spec in Hr. subst r.
  apply white_row_solid.
Qed.

Lemma zip_app_solid (a b : list (list (list Z))) wa wb c :
  Forall (solid_row wa c) a → Forall (solid_row wb c) b →
  Forall (solid_row (wa + wb)%nat c) (zip_with app a b).
Proof.
  intros Ha. revert b. induction Ha as [|r a Hr _ IH]; intros b Hb; [constructor|].
  destruct Hb as [|r' b Hr' Hb]; [constructor|].
  simpl. constructor; [now apply solid_row_app|now apply IH].
Qed.

Lemma hstack_solid h w c imgs :
  Forall (fun img => has_shape (h, w, c) img = true) imgs →
  length (hstack h imgs) = h ∧
  Forall (solid_row (length imgs * w)%nat c) (hstack h imgs).
Proof.
  induction 1 as [|img imgs Himg _ [IHl IHr]].
  - simpl. split; [apply repeat_length|].
    apply List.Forall_forall. intros r Hr. apply repeat_spec in Hr. now subst r.
  - apply has_shape_spec in Himg as [Hh Hrows]. rewrite hstack_cons. split.
    + rewrite length_zip_with. lia.
    + simpl length. simpl Nat.mul. now apply zip_app_solid.
Qed.

Lemma grid_has_shape h w c cells :
  length cells = CARDS_PER_PAGE →
  Forall (fun img => has_shape (h, w, c) img = true) cells →
  has_shape ((ROWS_PER_PAGE * h)%nat, (COLS_PER_PAGE * w)%nat, c) (grid h cells) = true.
Proof.
  intros Hlen Hcells.
  destruct cells as [|c1 [|c2 [|c3 [|c4 [|c5 [|c6 [|c7 [|c8 [|c9 [|]]]]]]]]]];
    try discriminate Hlen.
  unfold grid, chunks. cbn [length Nat.div Nat.divmod fst COLS_PER_PAGE
    chunks_aux firstn skipn map concat].
  repeat match goal with
         | H : Forall _ (_ :: _) |- _ => apply Forall_cons in H as [? H]
         end.
  destruct (hstack_solid h w c [c1; c2; c3]) as [L1 R1]; [repeat constructor; assumption|].
  destruct (hstack_solid h w c [c4; c5; c6]) as [L2 R2]; [repeat constructor; assumption|].
  destruct (hstack_solid h w c [c7; c8; c9]) as [L3 R3]; [repeat constructor; assumption|].
  apply has_shape_spec. split.
  - rewrite !length_app, L1, L2, L3. simpl. unfold ROWS_PER_PAGE. lia.
  - rewrite app_nil_r. repeat (apply Forall_app; split); assumption.
Qed.

Lemma add_margins_has_shape mh mw h w c g :
  has_shape (h, w, c) g = true →
  has_shape ((mh + h + mh)%nat, (mw + w + mw)%nat, c) (add_margins mh mw w c g) = true.
Proof.
  rewrite !has_shape_spec. intros [Hh Hrows]. unfold add_margins. split.
  - unfold white_rows. rewrite !length_app, !repeat_length, length_map. lia.
  - repeat (apply Forall_app; split); try apply white_rows_solid.
    apply List.Forall_forall. intros r Hr. apply in_map_iff in Hr as (r0 & <- & Hr0).
    rewrite List.Forall_forall in Hrows. rewrite app_assoc.
    apply solid_row_app; [apply solid_row_app|]; try apply white_row_solid.
    now apply Hrows.
Qed.

Lemma chunks_elem_of {A} n k (l : list A) ch x :
  In ch (chunks_aux n k l) → In x ch → In x l.
Proof.
  revert l. induction n as [|n IH]; intros l Hch Hx; [destruct Hch|].
  destruct Hch as [<-|Hch].
  - rewrite <- (firstn_skipn k l). apply in_or_app. now left.
  - rewrite <- (firstn_skipn k l). apply in_or_app. right. now apply (IH _ Hch).
Qed.

(** X4. Every page is a full raster of the size the array's shape
    declares: [mh + 3 * (ph + h) + mh] rows of [mw + 3 * (pw + w) + mw]
    pixels of [c] channels, and there are as many pages as the shape
    says. *)
Theorem pages_are_full_rasters image_list h w c :
  image_list ≠ [] → same_shape image_list →
  shape3 (hd [] image_list) = (h, w, c) → decodable h → decodable w →
  ∃ (pages : ndarray) (ph pw mh mw : nat),
    tile_in_pages image_list = Ok pages ∧
    card_pad_height h = Ok (Z.of_nat ph) ∧ card_pad_width w = Ok (Z.of_nat pw) ∧
    margin_height (ph + h) = Ok (Z.of_nat mh) ∧
    margin_width (pw + w) = Ok (Z.of_nat mw) ∧
    let H := (mh + 3 * (ph + h) + mh)%nat in
    let W := (mw + 3 * (pw + w) + mw)%nat in
    shape pages = ((length image_list / 9 + 1)%nat, H, W, c) ∧
    length (data pages) = (length image_list / 9 + 1)%nat ∧
    Forall (fun page => has_shape (H, W, c) page = true) (data pages).
Proof.
  intros Hne Hsame Hs Hh Hw.
  destruct (tile_in_pages_layout image_list h w c Hne Hsame Hs Hh Hw)
    as (ph & pw & mh & mw & Hph & Hpw & Hmh & Hmw & Htile).
  eexists _, ph, pw, mh, mw. split; [exact Htile|].
  repeat (split; [assumption|]). cbn [shape data]. split; [reflexivity|].
  set (padded := map (pad_cell ph pw w c)
                   (image_list ++ repeat (filler (h, w, c)) (nb_missing image_list))).
  assert (Hlen : length padded = ((length image_list / 9 + 1) * 9)%nat).
  { subst padded. rewrite length_map, length_app, repeat_length.
    unfold nb_missing. change CARDS_PER_PAGE with 9%nat.
    pose proof (Nat.div_mod_eq (length image_list) 9).
    pose proof (Nat.mod_upper_bound (length image_list) 9 ltac:(lia)). lia. }
  destruct (chunks_whole 9 _ padded ltac:(lia) Hlen) as (Hcl & Hce & _).
  split; [now rewrite length_map|].
  apply List.Forall_forall. intros page Hpage.
  apply in_map_iff in Hpage as (cells & <- & Hcells).
  apply (add_margins_has_shape mh mw (3 * (ph + h)) (3 * (pw + w)) c).
  apply grid_has_shape.
  - rewrite List.Forall_forall in Hce. now apply Hce.
  - apply List.Forall_forall. intros cell Hcell.
    pose proof (chunks_elem_of _ _ _ _ _ Hcells Hcell) as Hin.
    subst padded. apply in_map_iff in Hin as (img & <- & Hin).
    apply pad_cell_has_shape. apply in_app_iff in Hin as [Hin|Hin].
    + unfold same_shape in Hsame. rewrite Hs in Hsame.
      rewrite forallb_forall in Hsame. now apply Hsame.
    + apply repeat_spec in Hin. subst img. apply filler_has_shape.
Qed.


Lemma pages_are_full_rasters_witness :
  ∃ (pages : ndarray) (ph pw mh mw : nat),
    tile_in_pages [img_a; img_b] = Ok pages ∧
    card_pad_height 2 = Ok (Z.of_nat ph) ∧ card_pad_width 2 = Ok (Z.of_nat pw) ∧
    margin_height (ph + 2) = Ok (Z.of_nat mh) ∧
    margin_width (pw + 2) = Ok (Z.of_nat mw) ∧
    let H := (mh + 3 * (ph + 2) + mh)%nat in
    let W := (mw + 3 * (pw + 2) + mw)%nat in
    shape pages = ((length [img_a; img_b] / 9 + 1)%nat, H, W, 1%nat) ∧
    length (data pages) = (length [img_a; img_b] / 9 + 1)%nat ∧
    Forall (fun page => has_shape (H, W, 1%nat) page = true) (data pages).
Proof.
  apply (pages_are_full_rasters [img_a; img_b] 2 2 1);
    [discriminate | reflexivity | reflexivity | reflexivity | reflexivity].
Defined.

Lemma zip_app_repeat {A} (a b : list A) n :
  zip_with app (repeat a n) (repeat b n) = repeat (a ++ b) n.
Proof. induction n as [|n IH]; simpl; [reflexivity|]. now rewrite IH. Qed.

Lemma pad_cell_filler ph pw h w c :
  pad_cell ph pw w c (filler (h, w, c)) = filler ((ph + h)%nat, (pw + w)%nat, c).
Proof.
  unfold pad_cell, filler, full3, white_rows, white_row, white_pixel.
  rewrite map_repeat, <- !repeat_app. reflexivity.
Qed.

Lemma grid_of_fillers h w c :
  grid h (repeat (filler (h, w, c)) 9) =
    filler ((ROWS_PER_PAGE * h)%nat, (COLS_PER_PAGE * w)%nat, c).
Proof.
  unfold grid, chunks. cbn [repeat length Nat.div Nat.divmod fst COLS_PER_PAGE
    chunks_aux firstn skipn map concat hstack fold_right].
  unfold filler, full3. rewrite !zip_app_repeat, !app_nil_r, <- !repeat_app.
  unfold ROWS_PER_PAGE.
  replace (h + (h + h))%nat with (3 * h)%nat by lia.
  replace (w + (w + w))%nat with (3 * w)%nat by lia. reflexivity.
Qed.

Lemma add_margins_filler mh mw h w c :
  add_margins mh mw w c (filler (h, w, c)) =
    filler ((mh + h + mh)%nat, (mw + w + mw)%nat, c).
Proof.
  unfold add_margins, filler, full3, white_rows, white_row, white_pixel.
  rewrite map_repeat, <- !repeat_app.
  replace (mw + (w + mw))%nat with (mw + w + mw)%nat by lia.
  rewrite <- !repeat_app. f_equal. lia.
Qed.

(** X6. Images that fill whole pages get one more page, and that page is
    blank: when the number of images is a multiple of 9 the last page is
    white all over. *)
Theorem blank_page_after_full_pages image_list h w c :
  image_list ≠ [] → same_shape image_list →
  shape3 (hd [] image_list) = (h, w, c) → decodable h → decodable w →
  (length image_list mod 9 = 0)%nat →
  ∃ (pages : ndarray) (n H W : nat),
    tile_in_pages image_list = Ok pages ∧
    shape pages = (n, H, W, c) ∧
    n = (length image_list / 9 + 1)%nat ∧
    length (data pages) = n ∧
    data pages !! (length image_list / 9)%nat = Some (filler (H, W, c)).
Proof.
  intros Hne Hsame Hs Hh Hw Hfull.
  destruct (tile_in_pages_layout image_list h w c Hne Hsame Hs Hh Hw)
    as (ph & pw & mh & mw & _ & _ & _ & _ & Htile).
  eexists _, _, _, _. split; [exact Htile|]. cbn [shape data].
  split; [reflexivity|]. split; [reflexivity|].
  set (N := length image_list) in *.
  pose proof (Nat.div_mod_eq N 9) as HN.
  assert (Hmiss : nb_missing image_list = 9%nat).
  { unfold nb_missing. change CARDS_PER_PAGE with 9%nat. fold N. lia. }
  rewrite Hmiss.
  set (padded := map (pad_cell ph pw w c) (image_list ++ repeat (filler (h, w, c)) 9)).
  assert (Hlen : length padded = ((N / 9 + 1) * 9)%nat).
  { subst padded. rewrite length_map, length_app, repeat_length. fold N. lia. }
  destruct (chunks_whole 9 _ padded ltac:(lia) Hlen) as (Hcl & _ & _).
  split; [now rewrite length_map|].
  change (map ?f ?l) with (f <$> l) at 1. rewrite list_lookup_fmap.
  unfold chunks. change CARDS_PER_PAGE with 9%nat.
  rewrite Hlen, Nat.div_mul, chunks_aux_lookup by lia.
  cbn [fmap option_fmap option_map]. f_equal.
  subst padded. rewrite skipn_map, firstn_map, skipn_app.
  replace (N / 9 * 9 - length image_list)%nat with 0%nat by (fold N; lia).
  rewrite (skipn_all2 image_list) by (fold N; lia).
  rewrite skipn_O. cbn [app]. rewrite firstn_all2 by (rewrite repeat_length; lia).
  rewrite map_repeat, pad_cell_filler, grid_of_fillers, add_margins_filler.
  reflexivity.
Qed.

Lemma blank_page_after_full_pages_witness :
  ∃ (pages : ndarray) (n H W : nat),
    tile_in_pages (repeat img_a 9) = Ok pages ∧
    shape pages = (n, H, W, 1%nat) ∧
    n = (length (repeat img_a 9) / 9 + 1)%nat ∧
    length (data pages) = n ∧
    data pages !! (length (repeat img_a 9) / 9)%nat = Some (filler (H, W, 1%nat)).
Proof.
  apply (blank_page_after_full_pages (repeat img_a 9) 2 2 1);
    [discriminate | reflexivity | reflexivity | reflexivity | reflexivity | reflexivity].
Defined.

Lemma chunks_aux_app {A} k p : ∀ q (a b : list A),
  length a = (p * k)%nat →
  chunks_aux (p + q) k (a ++ b) = chunks_aux p k a ++ chunks_aux q k b.
Proof.
  induction p as [|p IH]; intros q a b Ha.
  - destruct a; [reflexivity|discriminate Ha].
  - simpl. rewrite firstn_app, skipn_app.
    replace (k - length a)%nat with 0%nat by lia.
    rewrite firstn_O, skipn_O, app_nil_r. f_equal.
    apply IH. rewrite length_skipn. lia.
Qed.

Lemma chunks_app {A} k p (a b : list A) :
  (0 < k)%nat → length a = (p * k)%nat →
  chunks k (a ++ b) = chunks k a ++ chunks k b.
Proof.
  intros Hk Ha. unfold chunks. rewrite length_app, Ha.
  rewrite Nat.div_add_l, Nat.div_mul by lia.
  now apply chunks_aux_app.
Qed.

Lemma Ok_of_nat_inj (a b : nat) : @Ok Z (Z.of_nat a) = Ok (Z.of_nat b) → a = b.
Proof. intros H. injection H as H. lia. Qed.

(** X7. Whole pages do not depend on what follows them: when [l1] fills
    [k] pages, the pages of [l1 ++ l2] are the first [k] pages of [l1]
    followed by the pages of [l2]. *)
Theorem pages_compose l1 l2 h w c k :
  l1 ≠ [] → l2 ≠ [] → same_shape l1 → same_shape l2 →
  shape3 (hd [] l1) = (h, w, c) → shape3 (hd [] l2) = (h, w, c) →
  decodable h → decodable w → length l1 = (9 * k)%nat →
  ∃ p p1 p2 : ndarray,
    tile_in_pages (l1 ++ l2) = Ok p ∧
    tile_in_pages l1 = Ok p1 ∧ tile_in_pages l2 = Ok p2 ∧
    data p = take k (data p1) ++ data p2.
Proof.
  intros Hne1 Hne2 Hsame1 Hsame2 Hs1 Hs2 Hh Hw Hk.
  assert (Hs : shape3 (hd [] (l1 ++ l2)) = (h, w, c)).
  { destruct l1; [done|exact Hs1]. }
  assert (Hsame : same_shape (l1 ++ l2)).
  { unfold same_shape in *. rewrite Hs. rewrite Hs1 in Hsame1. rewrite Hs2 in Hsame2.
    rewrite forallb_app, Hsame1, Hsame2. reflexivity. }
  assert (Hne : l1 ++ l2 ≠ []) by (destruct l1; done).
  destruct (tile_in_pages_layout _ h w c Hne Hsame Hs Hh Hw)
    as (ph & pw & mh & mw & Hph & Hpw & Hmh & Hmw & Htile).
  destruct (tile_in_pages_layout _ h w c Hne1 Hsame1 Hs1 Hh Hw)
    as (ph1 & pw1 & mh1 & mw1 & Hph1 & Hpw1 & Hmh1 & Hmw1 & Htile1).
  destruct (tile_in_pages_layout _ h w c Hne2 Hsame2 Hs2 Hh Hw)
    as (ph2 & pw2 & mh2 & mw2 & Hph2 & Hpw2 & Hmh2 & Hmw2 & Htile2).
  rewrite Hph in Hph1, Hph2. apply Ok_of_nat_inj in Hph1, Hph2. subst ph1 ph2.
  rewrite Hpw in Hpw1, Hpw2. apply Ok_of_nat_inj in Hpw1, Hpw2. subst pw1 pw2.
  rewrite Hmh in Hmh1, Hmh2. apply Ok_of_nat_inj in Hmh1, Hmh2. subst mh1 mh2.
  rewrite Hmw in Hmw1, Hmw2. apply Ok_of_nat_inj in Hmw1, Hmw2. subst mw1 mw2.
  eexists _, _, _. split; [exact Htile|]. split; [exact Htile1|]. split; [exact Htile2|].
  cbn [data].
  assert (Hm : nb_missing (l1 ++ l2) = nb_missing l2).
  { unfold nb_missing. change CARDS_PER_PAGE with 9%nat. rewrite length_app, Hk.
    rewrite (Nat.mul_comm 9 k), Nat.add_comm, Nat.Div0.mod_add. reflexivity. }
  rewrite Hm, <- app_assoc, !map_app.
  set (P := pad_cell ph pw w c).
  assert (HP1 : length (map P l1) = (k * 9)%nat) by (rewrite length_map; lia).
  change CARDS_PER_PAGE with 9%nat.
  rewrite <- map_app, (chunks_app 9 k (map P l1)) by (assumption || lia).
  rewrite (chunks_app 9 k (map P l1) (map P (repeat _ _))) by (assumption || lia).
  rewrite !map_app.
  destruct (chunks_whole 9 k (map P l1) ltac:(lia) HP1) as (Hcl & _ & _).
  rewrite firstn_app, firstn_all2 by (rewrite length_map; lia).
  rewrite length_map, Hcl, Nat.sub_diag, firstn_O, app_nil_r.
  reflexivity.
Qed.


Lemma pages_compose_witness :
  ∃ p p1 p2 : ndarray,
    tile_in_pages (repeat img_a 9 ++ [img_b]) = Ok p ∧
    tile_in_pages (repeat img_a 9) = Ok p1 ∧ tile_in_pages [img_b] = Ok p2 ∧
    data p = take 1 (data p1) ++ data p2.
Proof.
  apply (pages_compose (repeat img_a 9) [img_b] 2 2 1 1);
    solve [discriminate | reflexivity].
Defined.

Lemma bind_Ok_inv {A B} (m : result A) (k : A → result B) b :
  (m ≫= k) = Ok b → ∃ a, m = Ok a ∧ k a = Ok b.
Proof. destruct m as [a|e]; [eauto|discriminate]. Qed.

Lemma pad_keeps_length a r0 rest v b :
  as_pair r0 = Ok (0, 0) → pad a (r0 :: rest) v = Ok b →
  length (data b) = length (data a) ∧
  fst (fst (fst (shape b))) = fst (fst (fst (shape a))).
Proof.
  intros Hr0 H. unfold pad in H.
  destruct rest as [|r1 [|r2 [|r3 [|]]]]; try discriminate H.
  apply bind_Ok_inv in H as (p0 & Hp0 & H).
  apply bind_Ok_inv in H as (p1 & _ & H).
  apply bind_Ok_inv in H as (p2 & _ & H).
  apply bind_Ok_inv in H as (p3 & _ & H).
  rewrite Hr0 in Hp0. injection Hp0 as <-.
  destruct (shape a) as [[[n h] w] c]. injection H as <-.
  cbn [data shape fst snd]. unfold pad_axis. change (Z.to_nat 0) with 0%nat.
  cbn [repeat app]. rewrite app_nil_r, length_map. split; [reflexivity|lia].
Qed.

(** Whenever [tile_in_pages] returns, it had an image to take the shape
    from, and it returns [N / 9 + 1] pages. *)
Lemma tile_in_pages_returns image_list pages :
  tile_in_pages image_list = Ok pages →
  image_list ≠ [] ∧ length (data pages) = (length image_list / 9 + 1)%nat.
Proof.
  unfold tile_in_pages. intros H.
  apply bind_Ok_inv in H as (canvas & Hcards & H).
  apply bind_Ok_inv in H as (grid_canvas & Hgrid & H).
  apply bind_Ok_inv in H as (padding & Hpadding & H).
  unfold pad_cards in Hcards.
  apply bind_Ok_inv in Hcards as (stacked & Hstack & Hcards).
  apply bind_Ok_inv in Hcards as (card_pad & Hcp & Hcards).
  unfold stack_with_filler in Hstack.
  apply bind_Ok_inv in Hstack as (first & Hfirst & Hstack).
  apply bind_Ok_inv in Hstack as (arr & Harr & Hstack).
  split; [destruct image_list; [discriminate Hfirst|done]|].
  assert (Harr' : data arr = image_list
                  ∧ ∃ h w c, shape arr = (length image_list, h, w, c)
                             ∧ shape3 first = (h, w, c)).
  { unfold asarray in Harr. destruct image_list as [|img rest]; [discriminate Hfirst|].
    injection Hfirst as <-. cbn [hd] in Harr.
    destruct (forallb _ _); [|discriminate Harr].
    destruct (shape3 img) as [[h w] c]. injection Harr as <-. eauto 6. }
  destruct Harr' as (Hdata & h & w & c & Hshape & Hfirst3).
  assert (Hst : length (data stacked) = (length image_list + nb_missing image_list)%nat
                ∧ fst (fst (fst (shape stacked))) =
                    (length image_list + nb_missing image_list)%nat).
  { unfold vstack in Hstack. rewrite Hshape, Hfirst3 in Hstack.
    unfold full in Hstack. cbn [shape data] in Hstack.
    rewrite !Nat.eqb_refl in Hstack. cbn [andb] in Hstack. injection Hstack as <-.
    cbn [data shape fst]. now rewrite length_app, repeat_length, Hdata. }
  destruct Hst as [Hstlen Hstn].
  assert (Hcp' : ∃ r1 r2 r3, card_pad = [[0; 0]; r1; r2; r3]).
  { unfold card_padding in Hcp. destruct (shape stacked) as [[[n0 h0] w0] c0].
    apply bind_Ok_inv in Hcp as (fh & _ & Hcp).
    apply bind_Ok_inv in Hcp as (ph & _ & Hcp).
    apply bind_Ok_inv in Hcp as (fw & _ & Hcp).
    apply bind_Ok_inv in Hcp as (pw & _ & Hcp).
    injection Hcp as <-. eauto. }
  destruct Hcp' as (r1 & r2 & r3 & ->).
  destruct (pad_keeps_length stacked [0; 0] _ _ _ eq_refl Hcards) as [Hclen _].
  assert (Hglen : length (data grid_canvas) = (length (data canvas) / 9)%nat).
  { unfold rearrange in Hgrid. destruct (shape canvas) as [[[n0 h0] w0] c0].
    destruct (_ =? 0)%nat; [|discriminate Hgrid]. injection Hgrid as <-.
    cbn [data]. rewrite length_map. unfold chunks.
    now rewrite chunks_aux_length. }
  assert (Hpp : ∃ r1 r2 r3, padding = [[0]; r1; r2; r3]).
  { unfold page_padding in Hpadding. destruct (shape canvas) as [[[n0 h0] w0] c0].
    apply bind_Ok_inv in Hpadding as (fh & _ & Hpadding).
    apply bind_Ok_inv in Hpadding as (fw & _ & Hpadding).
    apply bind_Ok_inv in Hpadding as (mh & _ & Hpadding).
    apply bind_Ok_inv in Hpadding as (mw & _ & Hpadding).
    injection Hpadding as <-. eauto. }
  destruct Hpp as (q1 & q2 & q3 & ->).
  rewrite (proj1 (pad_keeps_length grid_canvas [0] _ _ _ eq_refl H)), Hglen, Hclen, Hstlen.
  destruct (padded_length (length image_list)) as [_ Hdiv]. exact Hdiv.
Qed.

End LayoutProperties.

(** ** The resolvers: further properties *)

Module ResolverProperties.
Import Np Py Scryfall Pipeline Resolution PipelineFacts StringFacts Samples Scenarios.

Lemma lstrip_app_blank p pre s :
  lstrip_with p pre = "" → lstrip_with p (pre +:+ s) = lstrip_with p s.
Proof.
  induction pre as [|a pre IH]; simpl; [reflexivity|].
  destruct (p a); [exact IH|discriminate].
Qed.

Lemma lstrip_app_nonblank p s t :
  lstrip_with p s ≠ "" → lstrip_with p (s +:+ t) = (lstrip_with p s +:+ t).
Proof.
  induction s as [|a s IH]; simpl; [done|].
  destruct (p a); [exact IH|reflexivity].
Qed.

Lemma reverse_app s t : reverse (s +:+ t) = (reverse t +:+ reverse s).
Proof.
  unfold reverse. now rewrite list_of_string_app, rev_app_distr, string_of_list_app.
Qed.

Lemma lstrip_reverse_blank p s : lstrip_with p s = "" → lstrip_with p (reverse s) = "".
Proof.
  induction s as [|a s IH]; simpl; [reflexivity|].
  destruct (p a) eqn:E; [|discriminate]. intros H.
  rewrite reverse_cons, lstrip_app_blank by auto. simpl. now rewrite E.
Qed.

Lemma rstrip_app_blank p s post :
  lstrip_with p post = "" → rstrip_with p (s +:+ post) = rstrip_with p s.
Proof.
  intros H. unfold rstrip_with.
  now rewrite reverse_app, lstrip_app_blank by now apply lstrip_reverse_blank.
Qed.

Lemma strip_surrounded pre s post :
  lstrip_with is_space pre = "" → lstrip_with is_space post = "" →
  strip (pre +:+ s +:+ post) = strip s.
Proof.
  intros Hpre Hpost. unfold strip. rewrite lstrip_app_blank by exact Hpre.
  destruct (String.string_dec (lstrip_with is_space s) "") as [He|Hne].
  - rewrite (lstrip_app_blank _ s post He), Hpost, He. reflexivity.
  - rewrite lstrip_app_nonblank by exact Hne. now apply rstrip_app_blank.
Qed.

(** X8. Whitespace around a spec is ignored: identifier resolution gives
    the same result and makes the same calls for a spec with whitespace
    before and after it as for the spec alone. *)
Theorem resolution_ignores_outer_whitespace (w : world) pre spec post s :
  lstrip_with is_space pre = "" → lstrip_with is_space post = "" →
  resolve_token_spec w (pre +:+ spec +:+ post) s = resolve_token_spec w spec s.
Proof.
  intros Hpre Hpost. unfold resolve_token_spec.
  now rewrite (strip_surrounded pre spec post Hpre Hpost).
Qed.


Lemma resolution_ignores_outer_whitespace_witness :
  resolve_token_spec sample_world ("  " +:+ "m11/34" +:+ " ") initial_state =
    resolve_token_spec sample_world "m11/34" initial_state.
Proof.
  apply (resolution_ignores_outer_whitespace sample_world "  " "m11/34" " " initial_state);
    reflexivity.
Defined.

(** X9. The set/number form never fails to split: a spec that does not
    start with [http] and contains a slash is cut at its first slash, and
    the one catalog call is the search for the set before it and the
    number after it, further slashes included; the unpacking of line 157
    cannot raise. *)
Theorem shorthand_query (w : world) spec s :
  startswith (strip spec) "http" = false → contains "/"%char (strip spec) = true →
  ∃ set_code number,
    strip spec = (set_code +:+ "/" +:+ number) ∧
    contains "/"%char set_code = false ∧
    resolve_token_spec w spec s =
      (Ok (search_id w (set_number_query set_code number)),
       with_calls s [CallSearch (set_number_query set_code number)]).
Proof.
  intros Hhttp Hslash.
  destruct (split_once_with_separator _ _ Hslash) as (a & b & Hsplit & Heq & Ha).
  exists a, b. split; [exact Heq|]. split; [exact Ha|].
  rewrite resolve_token_spec_run. unfold resolved_id, resolution_calls.
  now rewrite Hhttp, Hslash, Hsplit.
Qed.


Lemma shorthand_query_witness :
  ∃ set_code number,
    strip "m11/34" = (set_code +:+ "/" +:+ number) ∧
    contains "/"%char set_code = false ∧
    resolve_token_spec sample_world "m11/34" initial_state =
      (Ok (search_id sample_world (set_number_query set_code number)),
       with_calls initial_state [CallSearch (set_number_query set_code number)]).
Proof. apply (shorthand_query sample_world "m11/34" initial_state); reflexivity. Defined.

(** X10. The [isdigit] test of line 53 never decides: a name with a slash
    is not made of digits, so a deck name is treated as a spec exactly when
    it starts with [http] or contains a slash. *)
Theorem isdigit_test_never_decides name :
  looks_like_spec name = startswith name "http" || contains "/"%char name.
Proof.
  unfold looks_like_spec. destruct (contains "/"%char name) eqn:E; [|reflexivity].
  now rewrite (slash_not_isdigit name E).
Qed.

(** X11. Lines 51-62 on a deck name that looks like a spec: when identifier
    resolution finds no id, the card is looked up by its name after all
    (a split card such as Fire // Ice costs one search that finds nothing);
    when it finds one, the card is taken by that id, the name is never
    looked up, and a failure of the id lookup is the failure of the
    line. *)
Theorem deck_name_falls_back_to_name_lookup (w : world) name s :
  looks_like_spec name = true →
  (truthy (resolved_id w name) = false →
     lookup_card w name s =
       (match cards_Named w name with
        | Ok cd => Ok (to_json cd)
        | Raise e => Raise e
        end,
        with_calls s (resolution_calls w name ++ [CallNamed name]))) ∧
  (truthy (resolved_id w name) = true →
     lookup_card w name s =
       (match cards_Id w (default "" (resolved_id w name)) with
        | Ok cd => Ok (to_json cd)
        | Raise e => Raise e
        end,
        with_calls s
          (resolution_calls w name ++ [CallId (default "" (resolved_id w name))]))).
Proof.
  intros Hspec. rewrite lookup_card_run.
  unfold resolved_card, lookup_calls, resolved_by_spec, spec_calls. rewrite Hspec.
  split; intros Ht; rewrite Ht.
  - rewrite app_nil_r. reflexivity.
  - destruct (cards_Id w (default "" (resolved_id w name))); now rewrite app_nil_r.
Qed.

Lemma deck_name_falls_back_to_name_lookup_witness :
  (truthy (resolved_id sample_world "Fire // Ice") = false →
     lookup_card sample_world "Fire // Ice" initial_state =
       (match cards_Named sample_world "Fire // Ice" with
        | Ok cd => Ok (to_json cd)
        | Raise e => Raise e
        end,
        with_calls initial_state
          (resolution_calls sample_world "Fire // Ice" ++ [CallNamed "Fire // Ice"]))) ∧
  (truthy (resolved_id sample_world "Fire // Ice") = true →
     lookup_card sample_world "Fire // Ice" initial_state =
       (match cards_Id sample_world (default "" (resolved_id sample_world "Fire // Ice")) with
        | Ok cd => Ok (to_json cd)
        | Raise e => Raise e
        end,
        with_calls initial_state
          (resolution_calls sample_world "Fire // Ice"
             ++ [CallId (default "" (resolved_id sample_world "Fire // Ice"))]))).
Proof.
  apply (deck_name_falls_back_to_name_lookup sample_world "Fire // Ice" initial_state).
  reflexivity.
Defined.

Lemma lookup_calls_are_lookups (w : world) name :
  Forall (fun c => match c with
                   | CallId _ | CallNamed _ | CallSearch _ => True
                   | _ => False
                   end) (lookup_calls w name).
Proof.
  unfold lookup_calls, spec_calls, resolution_calls.
  repeat match goal with
         | |- context [if ?b then _ else _] => destruct b
         | |- context [match ?x with _ => _ end] => destruct x
         end; repeat constructor.
Qed.

(** X12. A failed lookup changes nothing: when the catalog lookup of a deck
    line raises, [process_card] raises that exception, the image list, the
    token ids and the generator are as they were, no image was requested
    and the pause of line 74 is not taken. *)
Theorem failed_lookup_changes_nothing (w : world) infos add_tokens s e :
  resolved_card w (strip (entry_name infos)) = Raise e →
  ∃ s' new_calls,
    process_card w infos add_tokens s = (Raise e, s') ∧
    image_list s' = image_list s ∧ token_ids s' = token_ids s ∧
    draws s' = draws s ∧
    calls s' = calls s ++ new_calls ∧
    (CallSleep ∉ new_calls) ∧ (∀ url, CallGet url ∉ new_calls).
Proof.
  intros H. exists (with_calls s (lookup_calls w (strip (entry_name infos)))),
    (lookup_calls w (strip (entry_name infos))).
  split; [unfold process_card; now rewrite run_bind, lookup_card_run, H|].
  repeat (split; [reflexivity|]).
  pose proof (lookup_calls_are_lookups w (strip (entry_name infos))) as Hall.
  rewrite Forall_forall in Hall.
  split; [|intros url]; intros Hin; exact (Hall _ Hin).
Qed.


Lemma failed_lookup_changes_nothing_witness :
  ∃ s' new_calls,
    process_card sample_world (DeckEntry "Nope" 2) true initial_state = (Raise not_found, s') ∧
    image_list s' = image_list initial_state ∧ token_ids s' = token_ids initial_state ∧
    draws s' = draws initial_state ∧
    calls s' = calls initial_state ++ new_calls ∧
    (CallSleep ∉ new_calls) ∧ (∀ url, CallGet url ∉ new_calls).
Proof.
  apply (failed_lookup_changes_nothing sample_world (DeckEntry "Nope" 2) true
           initial_state not_found).
  reflexivity.
Defined.

(** X13. A record without the fields the program reads: a card without a
    [type_line], or one that is not a basic land and has no [image_uris]
    (a double-faced card), makes [process_card] raise [KeyError] right
    after the lookup; nothing is fetched and nothing is appended. *)
Theorem incomplete_record_raises_key_error (w : world) infos add_tokens s card_data :
  resolved_card w (strip (entry_name infos)) = Ok card_data →
  let failed e := process_card w infos add_tokens s =
                    (Raise e, with_calls s (lookup_calls w (strip (entry_name infos)))) in
  (type_line card_data = None → ∃ e, failed e ∧ exn_class e = "KeyError") ∧
  (∀ tl, type_line card_data = Some tl → startswith tl "Basic Land" = false →
         image_uris_normal card_data = None →
         ∃ e, failed e ∧ exn_class e = "KeyError").
Proof.
  intros Hcard failed. subst failed. cbv beta.
  unfold process_card. rewrite run_bind, lookup_card_run, Hcard. split.
  - intros Htl. rewrite run_bind. unfold lift at 1. rewrite Htl.
    eexists. split; reflexivity.
  - intros tl Htl Hland Himg. rewrite run_bind. unfold lift at 1. rewrite Htl.
    cbn [getitem]. rewrite Hland, !run_bind, run_fetch_image, Himg.
    eexists. split; reflexivity.
Qed.

Lemma incomplete_record_raises_key_error_witness :
  let failed e :=
    process_card faces_world (DeckEntry "Werewolf" 1) true initial_state =
      (Raise e, with_calls initial_state (lookup_calls faces_world (strip "Werewolf"))) in
  (type_line werewolf = None → ∃ e, failed e ∧ exn_class e = "KeyError") ∧
  (∀ tl, type_line werewolf = Some tl → startswith tl "Basic Land" = false →
         image_uris_normal werewolf = None →
         ∃ e, failed e ∧ exn_class e = "KeyError").
Proof.
  apply (incomplete_record_raises_key_error faces_world (DeckEntry "Werewolf" 1) true
           initial_state werewolf).
  reflexivity.
Defined.

Lemma get_tokens_loop_total parts : ∀ acc,
  Forall (fun p => part_component p ≠ None ∧
                   (part_component p = Some "token" → part_id p ≠ None)) parts →
  get_tokens_loop parts acc = Ok (acc ∪ token_part_ids parts).
Proof.
  induction parts as [|p parts IH]; intros acc H.
  - simpl. f_equal. unfold token_part_ids. simpl. set_solver.
  - apply Forall_cons in H as [[Hc Hid] H]. simpl.
    unfold token_part_ids, is_token_part. simpl omap.
    destruct (part_component p) as [component|]; [|done]. simpl.
    destruct (String.eqb component "token") eqn:E.
    + apply String.eqb_eq in E. subst component.
      destruct (part_id p) as [id|]; [|now destruct Hid]. simpl.
      rewrite IH by exact H. f_equal. unfold token_part_ids. set_solver.
    + rewrite IH by exact H. reflexivity.
Qed.

Lemma get_tokens_loop_raises parts : ∀ acc,
  ¬ Forall (fun p => part_component p ≠ None ∧
                     (part_component p = Some "token" → part_id p ≠ None)) parts →
  ∃ e, get_tokens_loop parts acc = Raise e ∧ exn_class e = "KeyError".
Proof.
  induction parts as [|p parts IH]; intros acc H; [destruct H; constructor|].
  simpl. destruct (part_component p) as [component|] eqn:Hc; [|eexists; split; reflexivity].
  simpl. destruct (String.eqb component "token") eqn:E.
  - destruct (part_id p) as [id|] eqn:Hid; [|eexists; split; reflexivity].
    simpl. apply IH. intros Hrest. apply H. constructor; [|exact Hrest].
    rewrite Hc, Hid. split; done.
  - apply IH. intros Hrest. apply H. constructor; [|exact Hrest].
    rewrite Hc. split; [done|]. intros Heq. injection Heq as ->. discriminate E.
Qed.

(** X14. Token collection returns the ids of the parts whose component is
    [token] when every part has a component and every token part an id; it
    raises [KeyError] otherwise; a card without [all_parts] has no
    tokens. *)
Theorem get_tokens_characterised card_data :
  let parts := default [] (all_parts card_data) in
  let well_formed (p : part) :=
    part_component p ≠ None ∧ (part_component p = Some "token" → part_id p ≠ None) in
  (Forall well_formed parts → get_tokens card_data = Ok (token_part_ids parts)) ∧
  (¬ Forall well_formed parts →
     ∃ e, get_tokens card_data = Raise e ∧ exn_class e = "KeyError") ∧
  (all_parts card_data = None → get_tokens card_data = Ok ∅) ∧
  (∀ id, id ∈ token_part_ids parts ↔
         ∃ p, p ∈ parts ∧ part_component p = Some "token" ∧ part_id p = Some id).
Proof.
  intros parts well_formed. unfold get_tokens. fold parts.
  split; [|split; [|split]].
  - intros H. rewrite (get_tokens_loop_total parts ∅ H). f_equal. set_solver.
  - apply get_tokens_loop_raises.
  - intros Hnone. subst parts. rewrite Hnone. reflexivity.
  - intros id. apply elem_of_token_part_ids.
Qed.

End ResolverProperties.

(** ** The driver: further properties *)

Module DriverProperties.
Import Np Py Scryfall Pipeline Resolution PipelineFacts StringFacts Samples Scenarios.
Import Layout LayoutFacts ResolverProperties LayoutProperties.

Lemma truthy_Some tid :
  truthy tid = true ↔ ∃ id, tid = Some id ∧ id ≠ "".
Proof.
  unfold truthy. destruct tid as [id|].
  - rewrite negb_true_iff, String.eqb_neq. split; [eauto|]. now intros (? & [= <-] & ?).
  - split; [discriminate|]. now intros (? & ? & ?).
Qed.

Section World.
Variable w : world.

(** Lines 213-219: every spec is resolved; its id joins the forced ids, or
    a warning is printed. *)
Lemma resolve_forced_run specs : ∀ forced s,
  ∃ forced' new_calls,
    resolve_forced w specs forced s = (Ok forced', with_calls s new_calls) ∧
    (∀ id, id ∈ forced' ↔
           id ∈ forced ∨ ∃ spec, spec ∈ specs ∧ resolved_id w spec = Some id ∧ id ≠ "") ∧
    (∀ msg, CallPrint msg ∈ new_calls ↔
            ∃ spec, spec ∈ specs ∧ truthy (resolved_id w spec) = false ∧
                    msg = "Warning: could not resolve token spec: " +:+ spec) ∧
    Forall (fun c => match c with
                     | CallNamed _ | CallSearch _ | CallPrint _ => True
                     | _ => False
                     end) new_calls.
Proof.
  induction specs as [|spec specs IH]; intros forced s.
  - exists forced, []. simpl. rewrite with_calls_nil. split; [reflexivity|].
    split; [|split; [|constructor]].
    + intros id. split; [auto|]. intros [H|(spec & H & _)]; [exact H|]. now apply elem_of_nil in H.
    + intros msg. split; [intros H; now apply elem_of_nil in H|].
      intros (spec & H & _). now apply elem_of_nil in H.
  - simpl. rewrite run_bind, resolve_token_spec_run.
    assert (Hres : Forall (fun c => match c with
                     | CallNamed _ | CallSearch _ | CallPrint _ => True
                     | _ => False
                     end) (resolution_calls w spec)).
    { unfold resolution_calls.
      repeat match goal with
             | |- context [if ?b then _ else _] => destruct b
             | |- context [match ?x with _ => _ end] => destruct x
             end; repeat constructor. }
    assert (Hnp : ∀ msg, CallPrint msg ∉ resolution_calls w spec).
    { intros msg Hin. unfold resolution_calls in Hin.
      repeat match type of Hin with
             | context [if ?b then _ else _] => destruct b
             | context [match ?x with _ => _ end] => destruct x
             end; set_solver. }
    destruct (truthy (resolved_id w spec)) eqn:Ht.
    + destruct (IH (forced ∪ {[ default "" (resolved_id w spec) ]})
                  (with_calls s (resolution_calls w spec)))
        as (forced' & new & Hrun & Hids & Hmsgs & Hall).
      exists forced', (resolution_calls w spec ++ new).
      rewrite Hrun, with_calls_app. split; [reflexivity|].
      apply truthy_Some in Ht as (id0 & Hid0 & Hne0).
      split; [|split].
      * intros id. rewrite Hids, elem_of_union, elem_of_singleton. rewrite Hid0. simpl.
        split.
        -- intros [[H| ->]|(sp & Hsp & H)]; [now left| |].
           ++ right. exists spec. split; [apply elem_of_cons; now left|]. auto.
           ++ right. exists sp. split; [apply elem_of_cons; now right|]. exact H.
        -- intros [H|(sp & Hsp & Hr & Hne)]; [now left; left|].
           apply elem_of_cons in Hsp as [->|Hsp].
           ++ left. right. rewrite Hid0 in Hr. now injection Hr.
           ++ right. eauto.
      * intros msg. rewrite elem_of_app, Hmsgs. split.
        -- intros [H|(sp & Hsp & H)]; [now apply Hnp in H|].
           exists sp. split; [apply elem_of_cons; now right|exact H].
        -- intros (sp & Hsp & Hf & Hm). right.
           apply elem_of_cons in Hsp as [->|Hsp]; [|eauto].
           rewrite Hid0 in Hf. simpl in Hf.
           apply negb_false_iff, String.eqb_eq in Hf. done.
      * apply Forall_app. auto.
    + rewrite run_bind. unfold log at 1.
      match goal with
      | |- context [resolve_forced w specs forced ?s0] =>
          destruct (IH forced s0) as (forced' & new & Hrun & Hids & Hmsgs & Hall)
      end.
      exists forced', (resolution_calls w spec ++ [CallPrint ("Warning: could not resolve token spec: " +:+ spec)] ++ new).
      rewrite Hrun. split.
      { unfold with_calls. cbn [image_list token_ids calls draws].
        now rewrite <- !app_assoc. }
      split; [|split].
      * intros id. rewrite Hids. split.
        -- intros [H|(sp & Hsp & H)]; [now left|].
           right. exists sp. split; [apply elem_of_cons; now right|exact H].
        -- intros [H|(sp & Hsp & Hr & Hne)]; [now left|].
           apply elem_of_cons in Hsp as [->|Hsp]; [|right; eauto].
           rewrite Hr in Ht. simpl in Ht.
           apply negb_false_iff, String.eqb_eq in Ht. done.
      * intros msg. rewrite !elem_of_app, Hmsgs. split.
        -- intros [H|[H|(sp & Hsp & H)]]; [now apply Hnp in H| |].
           ++ apply list_elem_of_singleton in H. injection H as ->.
              exists spec. split; [apply elem_of_cons; now left|]. auto.
           ++ exists sp. split; [apply elem_of_cons; now right|exact H].
        -- intros (sp & Hsp & Hf & ->).
           apply elem_of_cons in Hsp as [->|Hsp].
           ++ right. left. apply list_elem_of_singleton. reflexivity.
           ++ right. right. eauto.
      * apply Forall_app. split; [exact Hres|]. constructor; [exact I|exact Hall].
Qed.


(** X15. Every [--token] spec gives an id or a warning, never an error: the
    forced ids are the ids the specs resolve to, and a warning is printed
    for exactly the specs that resolve to nothing, naming the spec as it
    was typed; the images and the token ids are left alone. *)
Theorem unresolved_token_specs_are_reported specs s :
  ∃ forced new_calls,
    resolve_forced w specs ∅ s = (Ok forced, with_calls s new_calls) ∧
    (∀ id, id ∈ forced ↔
           ∃ spec, spec ∈ specs ∧ resolved_id w spec = Some id ∧ id ≠ "") ∧
    (∀ msg, CallPrint msg ∈ new_calls ↔
            ∃ spec, spec ∈ specs ∧ truthy (resolved_id w spec) = false ∧
                    msg = "Warning: could not resolve token spec: " +:+ spec).
Proof.
  destruct (resolve_forced_run specs ∅ s) as (forced & new & Hrun & Hids & Hmsgs & _).
  exists forced, new. split; [exact Hrun|]. split; [|exact Hmsgs].
  intros id. rewrite Hids. split; [|auto]. intros [H|H]; [set_solver|exact H].
Qed.

Lemma run_bind_inv {A B} (m : M A) (k : A → M B) s b s' :
  (m ≫= k) s = (Ok b, s') → ∃ a s0, m s = (Ok a, s0) ∧ k a s0 = (Ok b, s').
Proof.
  rewrite run_bind. destruct (m s) as [[a|e] s0]; [eauto|discriminate].
Qed.

Lemma filter_absent (l : list call) c : c ∉ l → filter (fun x => x = c) l = [].
Proof.
  induction l as [|x l IH]; intros Hin; [reflexivity|].
  apply not_elem_of_cons in Hin as [Hne Hin].
  rewrite filter_cons. destruct (decide (x = c)); [congruence|]. now apply IH.
Qed.

Lemma extend_map_fetch_returns items : ∀ s s',
  extend_map (fetch_image w) items s = (Ok tt, s') →
  ∃ imgs gets,
    s' = RunState (image_list s ++ imgs) (token_ids s) (calls s ++ gets) (draws s) ∧
    length imgs = length items ∧ CallSleep ∉ gets.
Proof.
  induction items as [|c items IH]; intros s s' H.
  - injection H as <-. exists [], []. rewrite !app_nil_r. split; [now destruct s|].
    split; [reflexivity|]. apply not_elem_of_nil.
  - simpl in H. apply run_bind_inv in H as (img & s0 & Hfetch & H).
    rewrite run_fetch_image in Hfetch.
    destruct (image_uris_normal c) as [url|]; [|discriminate].
    injection Hfetch as Hget <-.
    rewrite run_bind in H. unfold extend_images at 1 in H.
    apply IH in H as (imgs & gets & -> & Hlen & Hgets).
    exists (img :: imgs), (CallGet url :: gets).
    cbn [image_list token_ids calls draws with_calls].
    rewrite <- !app_assoc. split; [reflexivity|]. split; [simpl; now rewrite Hlen|].
    apply not_elem_of_cons. split; [discriminate|exact Hgets].
Qed.

(** What a deck line adds when [process_card] returns: a block of [count]
    images, and a trace that ends with the one sleep. *)
Lemma process_card_returns infos add_tokens s s' :
  process_card w infos add_tokens s = (Ok tt, s') →
  ∃ block mid,
    image_list s' = image_list s ++ block ∧
    length block = Z.to_nat (entry_count infos) ∧
    calls s' = calls s ++ mid ++ [CallSleep] ∧ CallSleep ∉ mid.
Proof.
  unfold process_card. intros H.
  apply run_bind_inv in H as (card_data & s0 & Hlook & H).
  rewrite lookup_card_run in Hlook. injection Hlook as _ <-.
  pose proof (lookup_calls_are_lookups w (strip (entry_name infos))) as Hlk.
  set (lk := lookup_calls w (strip (entry_name infos))) in *.
  assert (Hlk' : CallSleep ∉ lk).
  { intros Hin. rewrite Forall_forall in Hlk. exact (Hlk _ Hin). }
  apply run_bind_inv in H as (tl & s1 & Htl & H).
  unfold lift in Htl. injection Htl as _ <-.
  apply run_bind_inv in H as ([] & s2 & Hbody & H).
  unfold log in H. injection H as <-. cbn [image_list calls].
  destruct (startswith tl "Basic Land").
  - apply run_bind_inv in Hbody as (candidates & s3 & Hsearch & Hbody).
    rewrite run_Search in Hsearch. injection Hsearch as _ <-.
    apply run_bind_inv in Hbody as (sampled & s4 & Hsample & Hbody).
    apply random_sample_returns in Hsample as (Hlen & Himg & _ & Hcalls).
    apply extend_map_fetch_returns in Hbody as (imgs & gets & -> & Hilen & Hgets).
    cbn [image_list token_ids calls draws with_calls] in *.
    rewrite Himg, Hcalls.
    exists imgs, (lk ++ [CallSearch ("++" +:+ entry_name infos)] ++ gets).
    split; [reflexivity|]. split; [lia|]. split; [now rewrite <- !app_assoc|].
    rewrite !not_elem_of_app. split; [exact Hlk'|]. split; [|exact Hgets].
    apply not_elem_of_cons. split; [discriminate|apply not_elem_of_nil].
  - apply run_bind_inv in Hbody as (image & s3 & Hfetch & Hbody).
    rewrite run_fetch_image in Hfetch.
    destruct (image_uris_normal card_data) as [url|]; [|discriminate].
    injection Hfetch as Hget <-.
    rewrite run_bind in Hbody. unfold extend_images at 1 in Hbody.
    exists (repeat image (Z.to_nat (entry_count infos))), (lk ++ [CallGet url]).
    assert (Hs2 : image_list s2 = image_list s ++ repeat image (Z.to_nat (entry_count infos))
                  ∧ calls s2 = (calls s ++ lk) ++ [CallGet url]).
    { destruct add_tokens.
      - apply run_bind_inv in Hbody as (ids & s5 & Hids & Hbody).
        unfold lift in Hids. injection Hids as _ <-.
        unfold add_token_ids in Hbody. injection Hbody as <-. split; reflexivity.
      - injection Hbody as <-. split; reflexivity. }
    destruct Hs2 as [-> ->]. split; [reflexivity|]. split; [apply repeat_length|].
    split; [now rewrite <- !app_assoc|].
    rewrite not_elem_of_app. split; [exact Hlk'|].
    apply not_elem_of_cons. split; [discriminate|apply not_elem_of_nil].
Qed.

#[local] Abbreviation sleeps l := (length (filter (fun c : call => c = CallSleep) l)).

Lemma for_each_process_card_returns add_tokens deck : ∀ s s',
  for_each (fun card_infos => process_card w card_infos add_tokens) deck s = (Ok tt, s') →
  ∃ blocks,
    image_list s' = image_list s ++ concat blocks ∧
    Forall2 (fun infos block => length block = Z.to_nat (entry_count infos)) deck blocks ∧
    sleeps (calls s') = (sleeps (calls s) + length deck)%nat.
Proof.
  induction deck as [|infos deck IH]; intros s s' H.
  - injection H as <-. exists []. simpl. rewrite app_nil_r. split; [reflexivity|].
    split; [constructor|lia].
  - simpl in H. apply run_bind_inv in H as ([] & s0 & Hcard & H).
    apply process_card_returns in Hcard as (block & mid & Himg & Hlen & Hcalls & Hmid).
    apply IH in H as (blocks & Himg' & Hall & Hsl).
    exists (block :: blocks). rewrite Himg', Himg. simpl. rewrite <- app_assoc.
    split; [reflexivity|]. split; [now constructor|].
    rewrite Hsl, Hcalls, !filter_app, !length_app, (filter_absent mid) by exact Hmid.
    simpl. lia.
Qed.

Lemma for_each_process_token_returns ids : ∀ s s',
  for_each (process_token w) ids s = (Ok tt, s') →
  ∃ imgs,
    image_list s' = image_list s ++ imgs ∧ length imgs = (2 * length ids)%nat ∧
    token_ids s' = token_ids s ∧ sleeps (calls s') = sleeps (calls s).
Proof.
  induction ids as [|id ids IH]; intros s s' H.
  - injection H as <-. exists []. now rewrite app_nil_r.
  - simpl in H. apply run_bind_inv in H as ([] & s0 & Htok & H).
    unfold process_token in Htok.
    apply run_bind_inv in Htok as (cd & s1 & Hid & Htok).
    rewrite run_Id in Hid. injection Hid as _ <-.
    apply run_bind_inv in Htok as (img & s2 & Hfetch & Htok).
    rewrite run_fetch_image in Hfetch.
    destruct (image_uris_normal (to_json cd)) as [url|]; [|discriminate].
    injection Hfetch as _ <-. unfold extend_images in Htok. injection Htok as <-.
    apply IH in H as (imgs & Himg & Hlen & Hids & Hsl).
    cbn [image_list token_ids calls draws with_calls] in *.
    exists ([img; img] ++ imgs). rewrite Himg, <- app_assoc. split; [reflexivity|].
    split; [rewrite length_app; simpl; lia|]. split; [exact Hids|].
    rewrite Hsl, !filter_app, !length_app. simpl. lia.
Qed.

Lemma card_token_ids_off infos : card_token_ids w false infos = ∅.
Proof.
  unfold card_token_ids.
  destruct (resolved_card w (strip (entry_name infos))) as [c|]; [|reflexivity].
  destruct (type_line c) as [tl|]; [|reflexivity]. now destruct (startswith tl "Basic Land").
Qed.

Lemma card_phase_no_tokens a deck forced s1 :
  no_tokens a = true →
  card_phase w a deck initial_state = (Ok forced, s1) → token_ids s1 = forced.
Proof.
  intros Hno H. rewrite (card_phase_token_ids w a deck forced s1 H), Hno. cbn [negb].
  assert (He : ⋃ (card_token_ids w false <$> deck) = (∅ : gset string)).
  { clear H. induction deck as [|infos deck IH]; [reflexivity|].
    rewrite fmap_cons, union_list_cons, card_token_ids_off, IH.
    apply union_empty_l_L. }
  rewrite He. apply union_empty_r_L.
Qed.

Lemma nonempty_false (ids : gset string) : nonempty ids = false → ids = ∅.
Proof.
  unfold nonempty. intros H. apply bool_decide_eq_false in H.
  destruct (decide (ids = ∅)); [assumption|contradiction].
Qed.

Lemma token_phase_run a deck forced s1 :
  card_phase w a deck initial_state = (Ok forced, s1) →
  token_phase w a forced s1 = for_each (process_token w) (elements (token_ids s1)) s1.
Proof.
  intros Hcards. unfold token_phase. rewrite run_bind. unfold get_token_ids at 1.
  destruct ((negb (no_tokens a) && nonempty (token_ids s1)) || nonempty forced) eqn:Hcond;
    [reflexivity|].
  apply orb_false_iff in Hcond as [Hauto Hforced].
  apply nonempty_false in Hforced.
  assert (He : token_ids s1 = ∅).
  { apply andb_false_iff in Hauto as [Hno|Hids]; [|now apply nonempty_false].
    apply negb_false_iff in Hno. rewrite <- Hforced.
    now apply (card_phase_no_tokens a deck). }
  rewrite He, elements_empty. reflexivity.
Qed.

(** X16. The guard of line 229 only ever skips an empty loop: after the card
    phase the token phase is the loop over the token-id set, whatever the
    flags; with [--no-tokens] that set is the forced ids and nothing
    else. *)
Theorem token_guard_only_skips_empty_loop a deck forced s1 :
  card_phase w a deck initial_state = (Ok forced, s1) →
  token_phase w a forced s1 = for_each (process_token w) (elements (token_ids s1)) s1 ∧
  (no_tokens a = true → token_ids s1 = forced).
Proof.
  intros H. split; [now apply (token_phase_run a deck)|].
  intros Hno. now apply (card_phase_no_tokens a deck).
Qed.

Lemma card_phase_returns a deck forced s1 :
  card_phase w a deck initial_state = (Ok forced, s1) →
  ∃ blocks,
    image_list s1 = concat blocks ∧
    Forall2 (fun infos block => length block = Z.to_nat (entry_count infos)) deck blocks ∧
    sleeps (calls s1) = length deck.
Proof.
  unfold card_phase. intros H.
  apply run_bind_inv in H as (forced0 & s0 & Hforced & H).
  destruct (resolve_forced_run (token a) ∅ initial_state)
    as (forced' & new & Hrun & _ & _ & Hnew).
  rewrite Hrun in Hforced. injection Hforced as -> <-.
  apply run_bind_inv in H as ([] & s2 & Hnote & H).
  assert (Hs2 : image_list s2 = [] ∧ sleeps (calls s2) = 0%nat).
  { assert (Hn0 : sleeps new = 0%nat).
    { rewrite filter_absent; [reflexivity|]. intros Hin.
      rewrite Forall_forall in Hnew. exact (Hnew _ Hin). }
    destruct (nonempty forced0 && no_tokens a); injection Hnote as <-;
      cbn [image_list calls with_calls initial_state app];
      rewrite ?filter_app, ?length_app, Hn0; split; reflexivity. }
  destruct Hs2 as [Himg0 Hsl0].
  apply run_bind_inv in H as ([] & s3 & Hadd & H).
  unfold add_token_ids in Hadd. injection Hadd as <-.
  apply run_bind_inv in H as ([] & s4 & Hdeck & H).
  injection H as _ <-.
  apply for_each_process_card_returns in Hdeck as (blocks & Himg & Hall & Hsl).
  cbn [image_list calls] in Himg, Hsl. rewrite Himg0 in Himg. rewrite Hsl0 in Hsl.
  exists blocks. auto.
Qed.


(** X17. The sheets a run prints: when the run returns, the images laid out
    are one block per deck line, in deck order, of as many images as the
    line's count, followed by two images per token id; they fill
    [N / 9 + 1] pages, [N] being their number. *)
Theorem run_image_and_page_count a deck pages s :
  main w a deck initial_state = (Ok pages, s) →
  ∃ blocks token_images,
    image_list s = concat blocks ++ token_images ∧
    Forall2 (fun infos block => length block = Z.to_nat (entry_count infos)) deck blocks ∧
    length token_images = (2 * size (token_ids s))%nat ∧
    length (data pages) = (length (image_list s) / 9 + 1)%nat.
Proof.
  unfold main. intros H.
  apply run_bind_inv in H as (forced & s1 & Hcards & H).
  apply run_bind_inv in H as ([] & s2 & Htokens & H).
  apply run_bind_inv in H as (images & s3 & Himages & H).
  unfold get_image_list in Himages. injection Himages as <- <-.
  unfold lift in H. injection H as Htile <-.
  rewrite (token_phase_run a deck forced s1 Hcards) in Htokens.
  apply for_each_process_token_returns in Htokens as (imgs & Himg & Hlen & Hids & _).
  destruct (card_phase_returns a deck forced s1 Hcards) as (blocks & Hb & Hall & _).
  exists blocks, imgs. rewrite Himg, Hb. split; [reflexivity|]. split; [exact Hall|].
  split; [now rewrite Hlen, Hids|].
  apply tile_in_pages_returns in Htile as [_ Hpages]. now rewrite Hpages, Himg, Hb.
Qed.

(** X18. The run pauses once per deck line: the pause of line 74 is taken
    once for each line whatever the number of catalog calls and image
    requests the line makes, and never while tokens are fetched. *)
Theorem one_sleep_per_deck_line a deck pages s :
  main w a deck initial_state = (Ok pages, s) →
  length (filter (fun c => c = CallSleep) (calls s)) = length deck.
Proof.
  unfold main. intros H.
  apply run_bind_inv in H as (forced & s1 & Hcards & H).
  apply run_bind_inv in H as ([] & s2 & Htokens & H).
  apply run_bind_inv in H as (images & s3 & Himages & H).
  unfold get_image_list in Himages. injection Himages as <- <-.
  unfold lift in H. injection H as _ <-.
  rewrite (token_phase_run a deck forced s1 Hcards) in Htokens.
  apply for_each_process_token_returns in Htokens as (imgs & _ & _ & _ & Hsl).
  destruct (card_phase_returns a deck forced s1 Hcards) as (blocks & _ & _ & Hsl1).
  now rewrite Hsl.
Qed.

(** X19. An empty deck cannot be laid out: without a deck line and without a
    [--token] spec the run makes no call and raises [IndexError]. *)
Theorem empty_deck_raises_index_error (flag : bool) :
  main w (Args flag []) [] initial_state = (Raise IndexError, initial_state).
Proof.
  destruct flag; vm_compute; reflexivity.
Qed.

End World.

Lemma token_guard_only_skips_empty_loop_witness :
  let a := Args true [] in
  let s1 := snd (card_phase sample_world a spells_and_islands initial_state) in
  token_phase sample_world a ∅ s1 =
    for_each (process_token sample_world) (elements (token_ids s1)) s1 ∧
  (no_tokens a = true → token_ids s1 = ∅).
Proof.
  apply (token_guard_only_skips_empty_loop sample_world (Args true []) spells_and_islands ∅
           (snd (card_phase sample_world (Args true []) spells_and_islands initial_state))).
  vm_compute. reflexivity.
Defined.

Lemma run_image_and_page_count_witness :
  let run := main sample_world (Args true []) spells_and_islands initial_state in
  let pages := match fst run with Ok p => p | Raise _ => NdArray (0, 0, 0, 0)%nat [] end in
  let s := snd run in
  ∃ blocks token_images,
    image_list s = concat blocks ++ token_images ∧
    Forall2 (fun infos block => length block = Z.to_nat (entry_count infos))
      spells_and_islands blocks ∧
    length token_images = (2 * size (token_ids s))%nat ∧
    length (data pages) = (length (image_list s) / 9 + 1)%nat.
Proof.
  apply (run_image_and_page_count sample_world (Args true []) spells_and_islands).
  vm_compute. reflexivity.
Defined.

Lemma one_sleep_per_deck_line_witness :
  let run := main sample_world (Args true []) spells_and_islands initial_state in
  length (filter (fun c => c = CallSleep) (calls (snd run))) = length spells_and_islands.
Proof.
  apply (one_sleep_per_deck_line sample_world (Args true []) spells_and_islands
           match fst (main sample_world (Args true []) spells_and_islands initial_state) with
           | Ok p => p
           | Raise _ => NdArray (0, 0, 0, 0)%nat []
           end).
  vm_compute. reflexivity.
Defined.

End DriverProperties.

(** ** Deck files: what [load_deck] reads *)

Module DeckFileProperties.
Import Py DeckFile StringFacts Scenarios.

Lemma splitlines_line line rest :
  has_linebreak line = false →
  splitlines (line +:+ String "010"%char rest) = line :: splitlines rest.
Proof.
  induction line as [|a line IH]; intros H.
  - simpl. destruct rest; reflexivity.
  - simpl in H. apply orb_false_iff in H as [Ha Hl].
    simpl. rewrite Ha, (IH Hl). reflexivity.
Qed.

Lemma splitlines_last line :
  has_linebreak line = false → line ≠ "" → splitlines line = [line].
Proof.
  induction line as [|a line IH]; intros H Hne; [done|].
  simpl in H. apply orb_false_iff in H as [Ha Hl]. simpl. rewrite Ha.
  destruct line as [|b line]; [reflexivity|].
  rewrite (IH Hl) by discriminate. reflexivity.
Qed.

Lemma split_once_join c a b :
  contains c a = false → split_once c (a +:+ String c b) = [a; b].
Proof.
  induction a as [|x a IH]; simpl.
  - now rewrite Ascii.eqb_refl.
  - intros H. apply orb_false_iff in H as [Hx Ha]. now rewrite Hx, (IH Ha).
Qed.

Lemma has_linebreak_app s t :
  has_linebreak (s +:+ t) = has_linebreak s || has_linebreak t.
Proof. induction s as [|a s IH]; simpl; [reflexivity|]. now rewrite IH, orb_assoc. Qed.

Lemma deck_line_plain (entry : string * string) :
  writable entry →
  has_linebreak (deck_line entry) = false ∧ deck_line entry ≠ "" ∧
  split_once " "%char (deck_line entry) = [fst entry; snd entry].
Proof.
  intros (Hsp & Hc & Hn). unfold deck_line. split; [|split].
  - rewrite has_linebreak_app, Hc. simpl. exact Hn.
  - destruct (fst entry); discriminate.
  - now apply split_once_join.
Qed.

Lemma nonempty_eqb (s : string) : s ≠ "" → negb (String.eqb s "") = true.
Proof. intros H. apply negb_true_iff. now apply String.eqb_neq. Qed.

Lemma rows_line line rest :
  has_linebreak line = false → line ≠ "" →
  load_deck_rows (line +:+ String "010"%char rest) =
    split_once " "%char line :: load_deck_rows rest.
Proof.
  intros Hbreak Hne. unfold load_deck_rows. cbv zeta.
  rewrite (splitlines_line _ _ Hbreak). cbn [List.filter].
  now rewrite (nonempty_eqb _ Hne).
Qed.

Lemma rows_last line :
  has_linebreak line = false → line ≠ "" →
  load_deck_rows line = [split_once " "%char line].
Proof.
  intros Hbreak Hne. unfold load_deck_rows. cbv zeta.
  rewrite (splitlines_last _ Hbreak Hne). cbn [List.filter].
  now rewrite (nonempty_eqb _ Hne).
Qed.

Lemma append_assoc (a b c : string) : ((a +:+ b) +:+ c) = (a +:+ (b +:+ c)).
Proof.
  induction a as [|x a IH]; [reflexivity|].
  change (String x ((a +:+ b) +:+ c) = String x (a +:+ b +:+ c)). now rewrite IH.
Qed.

(** X20. A deck written out and read back: entries written one per line as
    [count name] and joined by line feeds, with or without a line feed at
    the end, are read as the rows [[count; name]], in their order; the
    name keeps its spaces. *)
Theorem load_deck_rows_roundtrip (entries : list (string * string)) :
  Forall writable entries →
  load_deck_rows (deck_text entries) = map (fun entry => [fst entry; snd entry]) entries ∧
  load_deck_rows (deck_text entries +:+ String "010"%char "") =
    map (fun entry => [fst entry; snd entry]) entries.
Proof.
  intros Hall. unfold deck_text.
  induction Hall as [|entry entries Hentry Hall [IH1 IH2]]; [split; reflexivity|].
  destruct (deck_line_plain entry Hentry) as (Hbreak & Hne & Hsplit).
  destruct entries as [|entry2 entries].
  - cbn [map String.concat]. rewrite (rows_last _ Hbreak Hne), (rows_line _ _ Hbreak Hne).
    rewrite Hsplit. split; reflexivity.
  - set (rest := String.concat (String "010"%char "") (map deck_line (entry2 :: entries))) in *.
    change (String.concat (String "010"%char "") (map deck_line (entry :: entry2 :: entries)))
      with (deck_line entry +:+ String "010"%char rest).
    split.
    + now rewrite (rows_line _ _ Hbreak Hne), IH1, Hsplit.
    + rewrite append_assoc.
      change (String "010"%char rest +:+ ?t) with (String "010"%char (rest +:+ t)).
      now rewrite (rows_line _ _ Hbreak Hne), IH2, Hsplit.
Qed.


Lemma load_deck_rows_roundtrip_witness :
  load_deck_rows (deck_text [("4", "Lightning Bolt"); ("1", "Island")]) =
    map (fun entry => [fst entry; snd entry]) [("4", "Lightning Bolt"); ("1", "Island")] ∧
  load_deck_rows (deck_text [("4", "Lightning Bolt"); ("1", "Island")]
                    +:+ String "010"%char "") =
    map (fun entry => [fst entry; snd entry]) [("4", "Lightning Bolt"); ("1", "Island")].
Proof.
  apply (load_deck_rows_roundtrip [("4", "Lightning Bolt"); ("1", "Island")]).
  repeat constructor.
Defined.

(** X21. The rows of any text: every row comes from a line that is not
    empty; a line without a space gives a row of one field, the line
    itself, and any other line the two fields before and after its first
    space. *)
Theorem load_deck_rows_shape content row :
  row ∈ load_deck_rows content →
  ∃ line,
    line ∈ splitlines content ∧ line ≠ "" ∧
    ((contains " "%char line = false ∧ row = [line]) ∨
     (∃ count name, row = [count; name] ∧ line = (count +:+ " " +:+ name) ∧
                    contains " "%char count = false)).
Proof.
  unfold load_deck_rows. cbv zeta. intros Hrow.
  apply list_elem_of_In, in_map_iff in Hrow as (line & <- & Hline).
  apply filter_In in Hline as [Hin Hne].
  apply negb_true_iff, String.eqb_neq in Hne.
  exists line. split; [now apply list_elem_of_In|]. split; [exact Hne|].
  destruct (contains " "%char line) eqn:Hsp.
  - right. destruct (split_once_with_separator _ _ Hsp) as (a & b & Hs & Heq & Ha).
    exists a, b. auto.
  - left. split; [reflexivity|]. now apply PipelineFacts.split_once_without_separator.
Qed.


Lemma load_deck_rows_shape_witness :
  ∃ line,
    line ∈ splitlines deck_file ∧ line ≠ "" ∧
    ((contains " "%char line = false ∧ ["4"; "Lightning Bolt"] = [line]) ∨
     (∃ count name, ["4"; "Lightning Bolt"] = [count; name] ∧
                    line = (count +:+ " " +:+ name) ∧
                    contains " "%char count = false)).
Proof.
  apply (load_deck_rows_shape deck_file ["4"; "Lightning Bolt"]).
  apply list_elem_of_In. vm_compute. now left.
Defined.

End DeckFileProperties.

(** ** Deck files: what [find_deck_files] offers *)

Module DeckSearchProperties.
Import Py DeckSearch.

Lemma tree_induction (P : tree → Prop) :
  (∀ fs ds, Forall (fun d => P (snd d)) ds → P (Dir fs ds)) → ∀ t, P t.
Proof.
  intros step. fix IH 1. intros [fs ds]. apply step.
  induction ds as [|d ds IHds]; constructor; [apply IH|exact IHds].
Qed.

(** X22. The files on offer: a path is among the deck files found exactly
    when it is a file of the tree whose extension is [.csv], [.txt] or
    [.tsv] in any case, and no directory on the way from the root to it
    has [venv] in its name, in any case; the root's own name does not
    count. *)
Theorem find_deck_files_characterised t : ∀ root path,
  In path (find_deck_files root t) ↔
  ∃ dirs fname,
    path = root ++ dirs ++ [fname] ∧ has_file t dirs fname ∧
    Forall (fun d => is_venv d = false) dirs ∧ allowed fname = true.
Proof.
  induction t as [fs ds IH] using tree_induction. intros root path.
  cbn [find_deck_files]. rewrite in_app_iff, in_map_iff, in_concat. split.
  - intros [(fname & <- & Hf)|(l & Hl & Hpath)].
    + apply filter_In in Hf as [Hin Hok]. exists [], fname. simpl. auto.
    + apply in_map_iff in Hl as ([d sub] & <- & Hd). cbn [fst snd] in Hpath.
      destruct (is_venv d) eqn:Hv; [destruct Hpath|].
      rewrite List.Forall_forall in IH. specialize (IH _ Hd). cbn [snd] in IH.
      apply IH in Hpath as (dirs & fname & -> & Hhas & Hdirs & Hok).
      exists (d :: dirs), fname. rewrite <- app_assoc. split; [reflexivity|].
      split; [simpl; eauto|]. split; [now constructor|exact Hok].
  - intros (dirs & fname & -> & Hhas & Hdirs & Hok). destruct dirs as [|d dirs].
    + left. exists fname. split; [reflexivity|]. apply filter_In. auto.
    + right. destruct Hhas as (sub & Hd & Hhas).
      apply Forall_cons in Hdirs as [Hv Hdirs].
      exists (find_deck_files (root ++ [d]) sub). split.
      * apply in_map_iff. exists (d, sub). cbn [fst snd]. now rewrite Hv.
      * rewrite List.Forall_forall in IH. specialize (IH _ Hd). cbn [snd] in IH.
        apply IH. exists dirs, fname. rewrite <- app_assoc. auto.
Qed.

End DeckSearchProperties.
